(** * Garmin lap analyzer: FIT decoder, ZIP extractor, JSON adapter and
      lap/record reconciler

    A shallow embedding of [fit-parser.js] and of the data functions of
    [content.js] ([extractFitFromZip], [isZip], [isFit],
    [parseJsonActivity], [computeLapStats], [formatPace] and the data path
    of [openAnalyzer] and [displayLaps]), followed by the properties
    established about them.

    Modelling conventions.
    - A JavaScript number is a [JS.number]: an exact rational for a finite
      value, or NaN, or a signed infinity.  Arithmetic on finite values is
      exact: the rounding of binary64 operations is not modelled, and the
      two zeros are identified.
    - A JavaScript object whose properties hold numbers (a decoded message,
      a lap, a record) is a [gmap string JS.number]; a property that is
      [undefined] or [null] is an absent key.
    - A [Uint8Array] is a [list byte]; a [DataView] getter returns [None]
      where the host raises a RangeError.
    - Code that throws is modelled in an error monad; the decoder, whose
      [this] is mutated up to the point of the throw, keeps its state in
      both outcomes.
    - Host services are parameters: the raw-deflate stream of [inflateRaw]
      and the date parser behind [new Date(s).getTime()].  [JSON.parse] is
      not modelled: [parseJsonActivity] takes the parsed document.
    - [console.log] calls are left out. *)

From Stdlib Require Import ZArith QArith Qround List Bool String Ascii Lia Lqa Permutation.
From Stdlib.Strings Require Import Byte.
From stdpp Require Import base gmap strings list pretty.

Close Scope Q_scope.
Open Scope Z_scope.

(** ** JavaScript numbers *)

Module JS.

Inductive number :=
| Fin (q : Q)
| NaN
| Inf (neg : bool).

Definition ofZ (z : Z) : number := Fin (inject_Z z).

Definition Qnegb (q : Q) : bool := negb (Qle_bool 0 q).

Definition opp (a : number) : number :=
  match a with
  | Fin q => Fin (- q)%Q
  | NaN => NaN
  | Inf s => Inf (negb s)
  end.

Definition add (a b : number) : number :=
  match a, b with
  | Fin x, Fin y => Fin (x + y)%Q
  | NaN, _ | _, NaN => NaN
  | Inf s, Inf t => if Bool.eqb s t then Inf s else NaN
  | Inf s, Fin _ | Fin _, Inf s => Inf s
  end.

Definition sub (a b : number) : number := add a (opp b).

Definition mul (a b : number) : number :=
  match a, b with
  | Fin x, Fin y => Fin (x * y)%Q
  | NaN, _ | _, NaN => NaN
  | Inf s, Inf t => Inf (xorb s t)
  | Inf s, Fin x | Fin x, Inf s =>
      if Qeq_bool x 0 then NaN else Inf (xorb s (Qnegb x))
  end.

(** Division; a zero divisor is the positive zero. *)
Definition div (a b : number) : number :=
  match a, b with
  | Fin x, Fin y =>
      if Qeq_bool y 0
      then (if Qeq_bool x 0 then NaN else Inf (Qnegb x))
      else Fin (x / y)%Q
  | NaN, _ | _, NaN => NaN
  | Inf _, Inf _ => NaN
  | Inf s, Fin y => Inf (xorb s (Qnegb y))
  | Fin _, Inf _ => Fin 0%Q
  end.

(** [a < b], [a <= b], [a > b], [a >= b]: false as soon as one side is NaN. *)
Definition ltb (a b : number) : bool :=
  match a, b with
  | Fin x, Fin y => negb (Qle_bool y x)
  | Fin _, Inf t => negb t
  | Inf s, Fin _ => s
  | Inf s, Inf t => s && negb t
  | NaN, _ | _, NaN => false
  end.

Definition leb (a b : number) : bool :=
  match a, b with
  | Fin x, Fin y => Qle_bool x y
  | Fin _, Inf t => negb t
  | Inf s, Fin _ => s
  | Inf s, Inf t => s || negb t
  | NaN, _ | _, NaN => false
  end.

Definition gtb (a b : number) : bool := ltb b a.
Definition geb (a b : number) : bool := leb b a.

(** [a === b] on numbers. *)
Definition strictEq (a b : number) : bool :=
  match a, b with
  | Fin x, Fin y => Qeq_bool x y
  | Inf s, Inf t => Bool.eqb s t
  | _, _ => false
  end.

(** Truthiness of a number: 0 and NaN are falsy. *)
Definition truthy (a : number) : bool :=
  match a with
  | Fin q => negb (Qeq_bool q 0)
  | NaN => false
  | Inf _ => true
  end.

(** [a || b] where [a] is a number, [undefined] or [null]. *)
Definition orElse (a b : option number) : option number :=
  match a with
  | Some n => if truthy n then a else b
  | None => b
  end.

(** [a || 0]. *)
Definition orZero (a : option number) : number :=
  match a with
  | Some n => if truthy n then n else Fin 0
  | None => Fin 0
  end.

(** [Math.round]: the nearest integer, ties towards +Infinity. *)
Definition Math_round (a : number) : number :=
  match a with
  | Fin q => Fin (inject_Z (Qfloor (q + (1 # 2))%Q))
  | _ => a
  end.

Definition min2 (a b : number) : number :=
  match a, b with
  | NaN, _ | _, NaN => NaN
  | _, _ => if ltb b a then b else a
  end.

Definition max2 (a b : number) : number :=
  match a, b with
  | NaN, _ | _, NaN => NaN
  | _, _ => if ltb a b then b else a
  end.

(** [Math.min(...l)] and [Math.max(...l)]. *)
Definition Math_min (l : list number) : number := fold_left min2 l (Inf false).
Definition Math_max (l : list number) : number := fold_left max2 l (Inf true).

(** ToInt32 of the language specification: truncate, wrap modulo 2^32 and
    read the result as a signed 32-bit integer. *)
Definition Qtruncate (q : Q) : Z :=
  if Qle_bool 0 q then Qfloor q else Qceiling q.

Definition ToInt32 (a : number) : Z :=
  match a with
  | Fin q =>
      let m := Qtruncate q mod 2 ^ 32 in
      if m <? 2 ^ 31 then m else m - 2 ^ 32
  | _ => 0
  end.

(** [a & b]. *)
Definition bitand (a b : number) : number :=
  ofZ (Z.land (ToInt32 a) (ToInt32 b)).

(** Two numbers denote the same value. *)
Definition sameValue (a b : number) : Prop :=
  match a, b with
  | Fin x, Fin y => (x == y)%Q
  | NaN, NaN => True
  | Inf s, Inf t => s = t
  | _, _ => False
  end.

End JS.

(** ** Typed arrays and DataView *)

Module DataView.

Definition byteAt (bs : list byte) (i : Z) : option Z :=
  if i <? 0 then None
  else option_map (fun b => Z.of_N (Byte.to_N b)) (nth_error bs (Z.to_nat i)).

(** [bs.slice(from, to)] for [0 <= from]. *)
Definition slice (bs : list byte) (from to : Z) : list byte :=
  firstn (Z.to_nat (to - from)) (skipn (Z.to_nat from) bs).

(** The unsigned integer held in [n] bytes at [off]; [None] is the
    RangeError of an access outside the view. *)
Fixpoint getBytes (bs : list byte) (off : Z) (n : nat) : option (list Z) :=
  match n with
  | O => Some nil
  | S n' =>
      match byteAt bs off, getBytes bs (off + 1) n' with
      | Some b, Some r => Some (b :: r)
      | _, _ => None
      end
  end.

(** Little-endian value of a byte sequence. *)
Fixpoint leValue (l : list Z) : Z :=
  match l with
  | nil => 0
  | b :: r => b + 256 * leValue r
  end.

Definition getUint (n : nat) (bs : list byte) (off : Z) (littleEndian : bool)
  : option Z :=
  match getBytes bs off n with
  | Some l => Some (leValue (if littleEndian then l else rev l))
  | None => None
  end.

Definition signed (bits : Z) (u : Z) : Z :=
  if u <? 2 ^ (bits - 1) then u else u - 2 ^ bits.

Definition getUint8 bs off := getUint 1 bs off true.
Definition getUint16 := getUint 2.
Definition getUint32 := getUint 4.
Definition getInt8 bs off := option_map (signed 8) (getUint 1 bs off true).
Definition getInt16 bs off le := option_map (signed 16) (getUint 2 bs off le).
Definition getInt32 bs off le := option_map (signed 32) (getUint 4 bs off le).

(** IEEE 754 binary interchange decoding with [ebits] exponent bits and
    [mbits] fraction bits. *)
Definition decodeFloat (ebits mbits : Z) (bits : Z) : JS.number :=
  let m := bits mod 2 ^ mbits in
  let e := (bits / 2 ^ mbits) mod 2 ^ ebits in
  let s := Z.testbit bits (ebits + mbits) in
  let bias := 2 ^ (ebits - 1) - 1 in
  if e =? 2 ^ ebits - 1 then (if m =? 0 then JS.Inf s else JS.NaN)
  else
    let mag :=
      if e =? 0 then (inject_Z m * Qpower 2 (1 - bias - mbits))%Q
      else (inject_Z (2 ^ mbits + m) * Qpower 2 (e - bias - mbits))%Q in
    JS.Fin (if s then - mag else mag)%Q.

Definition getFloat32 bs off le :=
  option_map (decodeFloat 8 23) (getUint 4 bs off le).
Definition getFloat64 bs off le :=
  option_map (decodeFloat 11 52) (getUint 8 bs off le).

End DataView.

(** ** The FIT decoder ([fit-parser.js]) *)

Module Fit.

Import JS.

Abbreviation message := (gmap string number).
Abbreviation messageTable := (gmap string (list (gmap string number))).

Definition FIT_MSG_NAMES (n : Z) : option string :=
  match n with
  | 0 => Some "file_id"%string
  | 18 => Some "session"%string
  | 19 => Some "lap"%string
  | 20 => Some "record"%string
  | 21 => Some "event"%string
  | 23 => Some "device_info"%string
  | 34 => Some "activity"%string
  | _ => None
  end.

Record profile := {
  name : string;
  scale : option number;
  p_offset : option number }.

Definition plain (n : string) : option profile :=
  Some {| name := n; scale := None; p_offset := None |}.
Definition scaled (n : string) (s : Z) : option profile :=
  Some {| name := n; scale := Some (ofZ s); p_offset := None |}.
Definition scaledOffset (n : string) (s o : Z) : option profile :=
  Some {| name := n; scale := Some (ofZ s); p_offset := Some (ofZ o) |}.

Definition FIT_FIELDS (globalMsgNum : Z) : option (Z -> option profile) :=
  match globalMsgNum with
  | 19 => Some (fun num =>
      match num with
      | 2 => plain "start_time"
      | 7 => scaled "total_elapsed_time" 1000
      | 8 => scaled "total_timer_time" 1000
      | 9 => scaled "total_distance" 100
      | 13 => scaled "avg_speed" 1000
      | 14 => scaled "max_speed" 1000
      | 15 => plain "avg_heart_rate"
      | 16 => plain "max_heart_rate"
      | 110 => scaled "enhanced_avg_speed" 1000
      | 111 => scaled "enhanced_max_speed" 1000
      | 253 => plain "timestamp"
      | _ => None
      end)
  | 20 => Some (fun num =>
      match num with
      | 0 => plain "position_lat"
      | 1 => plain "position_long"
      | 2 => scaledOffset "altitude" 5 500
      | 3 => plain "heart_rate"
      | 4 => plain "cadence"
      | 5 => scaled "distance" 100
      | 6 => scaled "speed" 1000
      | 73 => scaled "enhanced_speed" 1000
      | 78 => scaledOffset "enhanced_altitude" 5 500
      | 253 => plain "timestamp"
      | _ => None
      end)
  | _ => None
  end.

Inductive reader :=
| getUint8 | getInt8 | getUint16 | getInt16 | getUint32 | getInt32
| getFloat32 | getFloat64.

Record typeInfo := {
  tsize : Z;
  read : option reader;
  invalid : option number }.

Definition ty (sz : Z) (r : option reader) (inv : option Z) : option typeInfo :=
  Some {| tsize := sz; read := r; invalid := option_map ofZ inv |}.

Definition BASE_TYPES (t : Z) : option typeInfo :=
  match t with
  | 0x00 => ty 1 (Some getUint8) (Some 0xFF)
  | 0x01 => ty 1 (Some getInt8) (Some 0x7F)
  | 0x02 => ty 1 (Some getUint8) (Some 0xFF)
  | 0x83 => ty 2 (Some getInt16) (Some 0x7FFF)
  | 0x84 => ty 2 (Some getUint16) (Some 0xFFFF)
  | 0x85 => ty 4 (Some getInt32) (Some 0x7FFFFFFF)
  | 0x86 => ty 4 (Some getUint32) (Some 0xFFFFFFFF)
  | 0x07 => ty 1 None (Some 0)
  | 0x88 => ty 4 (Some getFloat32) None
  | 0x89 => ty 8 (Some getFloat64) None
  | 0x0A => ty 1 (Some getUint8) (Some 0)
  | 0x8B => ty 2 (Some getUint16) (Some 0)
  | 0x8C => ty 4 (Some getUint32) (Some 0)
  | 0x0D => ty 1 None None
  | _ => None
  end.

(** [this.view[read](off, littleEndian)]. *)
Definition viewRead (r : reader) (bs : list byte) (off : Z) (le : bool)
  : option number :=
  match r with
  | getUint8 => option_map ofZ (DataView.getUint8 bs off)
  | getInt8 => option_map ofZ (DataView.getInt8 bs off)
  | getUint16 => option_map ofZ (DataView.getUint16 bs off le)
  | getInt16 => option_map ofZ (DataView.getInt16 bs off le)
  | getUint32 => option_map ofZ (DataView.getUint32 bs off le)
  | getInt32 => option_map ofZ (DataView.getInt32 bs off le)
  | getFloat32 => DataView.getFloat32 bs off le
  | getFloat64 => DataView.getFloat64 bs off le
  end.

Record field := { num : Z; size : Z; baseType : Z }.
Record devField := { dev_num : Z; dev_size : Z; devIdx : Z }.

Record definition := {
  globalMsgNum : Z;
  littleEndian : bool;
  fields : list field;
  devFields : list devField }.

(** The parser object.  [dataSize] and [dataOffset] are assigned by
    [_parseHeader] before they are read; they start at 0 here. *)
Record FitParser := {
  bytes : list byte;
  offset : Z;
  definitions : gmap Z definition;
  messages : gmap string (list (gmap string number));
  lastTimestamp : number;
  dataSize : Z;
  dataOffset : Z }.

Definition constructor (data : list byte) : FitParser :=
  {| bytes := data; offset := 0; definitions := ∅; messages := ∅;
     lastTimestamp := ofZ 0; dataSize := 0; dataOffset := 0 |}.

Definition withOffset (o : Z) (s : FitParser) : FitParser :=
  {| bytes := bytes s; offset := o; definitions := definitions s;
     messages := messages s; lastTimestamp := lastTimestamp s;
     dataSize := dataSize s; dataOffset := dataOffset s |}.
Definition withDefinitions (d : gmap Z definition) (s : FitParser) : FitParser :=
  {| bytes := bytes s; offset := offset s; definitions := d;
     messages := messages s; lastTimestamp := lastTimestamp s;
     dataSize := dataSize s; dataOffset := dataOffset s |}.
Definition withMessages (m : gmap string (list (gmap string number)))
  (s : FitParser) : FitParser :=
  {| bytes := bytes s; offset := offset s; definitions := definitions s;
     messages := m; lastTimestamp := lastTimestamp s;
     dataSize := dataSize s; dataOffset := dataOffset s |}.
Definition withLastTimestamp (t : number) (s : FitParser) : FitParser :=
  {| bytes := bytes s; offset := offset s; definitions := definitions s;
     messages := messages s; lastTimestamp := t;
     dataSize := dataSize s; dataOffset := dataOffset s |}.
Definition withDataSize (n : Z) (s : FitParser) : FitParser :=
  {| bytes := bytes s; offset := offset s; definitions := definitions s;
     messages := messages s; lastTimestamp := lastTimestamp s;
     dataSize := n; dataOffset := dataOffset s |}.
Definition withDataOffset (n : Z) (s : FitParser) : FitParser :=
  {| bytes := bytes s; offset := offset s; definitions := definitions s;
     messages := messages s; lastTimestamp := lastTimestamp s;
     dataSize := dataSize s; dataOffset := n |}.

(** Exceptions of the decoder. *)
Inductive exn :=
| RangeError
| NotFit                      (* 'Not a valid FIT file' *)
| NoDefinition (localType : Z) (* 'No definition for local type ..' *).

(** A method either returns or throws; [this] survives both. *)
Inductive outcome (A : Type) :=
| Ret (a : A) (s : FitParser)
| Throw (e : exn) (s : FitParser).
Arguments Ret {A} a s.
Arguments Throw {A} e s.

Definition M (A : Type) := FitParser -> outcome A.

Definition ret {A} (a : A) : M A := fun s => Ret a s.
Definition bind {A B} (m : M A) (k : A -> M B) : M B :=
  fun s => match m s with
           | Ret a s' => k a s'
           | Throw e s' => Throw e s'
           end.
Definition throw {A} (e : exn) : M A := fun s => Throw e s.
Definition get : M FitParser := fun s => Ret s s.
Definition modify (f : FitParser -> FitParser) : M unit := fun s => Ret tt (f s).
Definition liftView {A} (o : option A) : M A :=
  match o with
  | Some a => ret a
  | None => throw RangeError
  end.

Notation "x <- m ;; k" := (bind m (fun x => k))
  (at level 100, m at next level, right associativity).
Notation "m ;;; k" := (bind m (fun _ => k))
  (at level 100, right associativity).

(** [this.offset++] as an expression and [this.offset += n]. *)
Definition postIncOffset : M Z :=
  fun s => Ret (offset s) (withOffset (offset s + 1) s).
Definition addOffset (n : Z) : M unit :=
  modify (fun s => withOffset (offset s + n) s).

(** [this.view.getUint8(this.offset++)]. *)
Definition nextUint8 : M Z :=
  o <- postIncOffset ;;
  s <- get ;;
  liftView (DataView.getUint8 (bytes s) o).

(** [_readField]: the decoded value, or [None] for the [null] of a skipped
    or invalid field. *)
Definition baseTypeInfo (baseType : Z) : option typeInfo :=
  match BASE_TYPES baseType with
  | Some t => Some t
  | None => BASE_TYPES (Z.land baseType 0x1F)
  end.

Definition skipField (f : field) : M (option number) :=
  addOffset (size f) ;;; ret None.

Definition _readField (f : field) (littleEndian : bool) : M (option number) :=
  match baseTypeInfo (baseType f) with
  | None => skipField f
  | Some typeInfo =>
      match read typeInfo with
      | None => skipField f
      | Some rd =>
          if negb (size f =? tsize typeInfo) then skipField f
          else
            s <- get ;;
            value <- liftView (viewRead rd (bytes s) (offset s) littleEndian) ;;
            addOffset (size f) ;;;
            match invalid typeInfo with
            | Some inv =>
                if strictEq value inv then ret None else ret (Some value)
            | None => ret (Some value)
            end
      end
  end.

(** Body of the field loop of [_parseDataMessage] after the read. *)
Definition storeField (profileFields : Z -> option profile) (f : field)
  (value : option number) (msg : gmap string number) : gmap string number :=
  match profileFields (num f), value with
  | Some profile, Some v =>
      let v1 := match scale profile with
                | Some sc => if truthy sc then div v sc else v
                | None => v
                end in
      let v2 := match p_offset profile with
                | Some o => if truthy o then sub v1 o else v1
                | None => v1
                end in
      <[name profile := v2]> msg
  | _, _ => msg
  end.

Fixpoint readFields (profileFields : Z -> option profile) (littleEndian : bool)
  (fs : list field) (msg : gmap string number) : M (gmap string number) :=
  match fs with
  | nil => ret msg
  | f :: rest =>
      value <- _readField f littleEndian ;;
      readFields profileFields littleEndian rest
        (storeField profileFields f value msg)
  end.

Fixpoint skipDevFields (dfs : list devField) : M unit :=
  match dfs with
  | nil => ret tt
  | df :: rest => addOffset (dev_size df) ;;; skipDevFields rest
  end.

(** [this.messages[typeName].push(msg)], creating the array on first use. *)
Definition pushMessage (typeName : string) (msg : gmap string number)
  (s : FitParser) : FitParser :=
  withMessages
    (<[typeName := default nil (messages s !! typeName) ++ [msg]]> (messages s)) s.

Definition _parseDataMessage (localType : Z) (compressedTs : option number)
  : M unit :=
  s <- get ;;
  match definitions s !! localType with
  | None => throw (NoDefinition localType)
  | Some def =>
      let profileFields :=
        match FIT_FIELDS (globalMsgNum def) with
        | Some p => p
        | None => fun _ => None
        end in
      msg0 <- readFields profileFields (littleEndian def) (fields def) ∅ ;;
      skipDevFields (devFields def) ;;;
      let msg :=
        match compressedTs, msg0 !! "timestamp"%string with
        | Some ts, None => <["timestamp"%string := ts]> msg0
        | _, _ => msg0
        end in
      match msg !! "timestamp"%string with
      | Some t => modify (withLastTimestamp t)
      | None => ret tt
      end ;;;
      match FIT_MSG_NAMES (globalMsgNum def) with
      | Some typeName => modify (pushMessage typeName msg)
      | None => ret tt
      end
  end.

Fixpoint readFieldDefs (n : nat) : M (list field) :=
  match n with
  | O => ret nil
  | S k =>
      fnum <- nextUint8 ;;
      fsize <- nextUint8 ;;
      fbase <- nextUint8 ;;
      rest <- readFieldDefs k ;;
      ret ({| num := fnum; size := fsize; baseType := fbase |} :: rest)
  end.

Fixpoint readDevFieldDefs (n : nat) : M (list devField) :=
  match n with
  | O => ret nil
  | S k =>
      dnum <- nextUint8 ;;
      dsize <- nextUint8 ;;
      didx <- nextUint8 ;;
      rest <- readDevFieldDefs k ;;
      ret ({| dev_num := dnum; dev_size := dsize; devIdx := didx |} :: rest)
  end.

Definition _parseDefinition (localType : Z) (hasDev : bool) : M unit :=
  addOffset 1 ;;;
  arch <- nextUint8 ;;
  let le := arch =? 0 in
  s <- get ;;
  gmn <- liftView (DataView.getUint16 (bytes s) (offset s) le) ;;
  addOffset 2 ;;;
  numFields <- nextUint8 ;;
  fs <- readFieldDefs (Z.to_nat numFields) ;;
  dfs <- (if hasDev
          then numDev <- nextUint8 ;; readDevFieldDefs (Z.to_nat numDev)
          else ret nil) ;;
  modify (fun s =>
    withDefinitions
      (<[localType := {| globalMsgNum := gmn; littleEndian := le;
                         fields := fs; devFields := dfs |}]> (definitions s)) s).

(** The timestamp of a compressed-timestamp header (lines 101-103). *)
Definition compressedTimestamp (prev : number) (timeOffset : Z) : number :=
  let ts := add (bitand prev (ofZ 0xFFFFFFE0)) (ofZ timeOffset) in
  if ltb (ofZ timeOffset) (bitand prev (ofZ 0x1F))
  then add ts (ofZ 0x20)
  else ts.

Definition _parseRecord : M unit :=
  header <- nextUint8 ;;
  if negb (Z.land header 0x80 =? 0) then
    let localType := Z.land (Z.shiftr header 5) 0x03 in
    let timeOffset := Z.land header 0x1F in
    s <- get ;;
    let ts := compressedTimestamp (lastTimestamp s) timeOffset in
    modify (withLastTimestamp ts) ;;;
    _parseDataMessage localType (Some ts)
  else if negb (Z.land header 0x40 =? 0) then
    let localType := Z.land header 0x0F in
    let hasDev := negb (Z.land header 0x20 =? 0) in
    _parseDefinition localType hasDev
  else
    let localType := Z.land header 0x0F in
    _parseDataMessage localType None.

(** [String.fromCharCode] on the four signature bytes; an index outside the
    array reads [undefined], whose character code is 0. *)
Definition fromCharCode (codes : list Z) : string :=
  string_of_list_ascii (map (fun c => ascii_of_N (Z.to_N c)) codes).

Definition _parseHeader : M unit :=
  s <- get ;;
  headerSize <- liftView (DataView.getUint8 (bytes s) 0) ;;
  ds <- liftView (DataView.getUint32 (bytes s) 4 true) ;;
  modify (withDataSize ds) ;;;
  let sig := fromCharCode
    (map (fun i => default 0 (DataView.byteAt (bytes s) i)) [8; 9; 10; 11]) in
  if negb (String.eqb sig ".FIT") then throw NotFit
  else
    modify (withOffset headerSize) ;;;
    modify (withDataOffset headerSize).

(** The loop of [parse]; [None] only when the iteration bound [fuel] is
    exhausted, which [parse] never lets happen (see [parseLoop_total]). *)
Fixpoint parseLoop (fuel : nat) (dataEnd : Z) (s : FitParser)
  : option FitParser :=
  if offset s <? dataEnd then
    match fuel with
    | O => None
    | S fuel' =>
        match _parseRecord s with
        | Ret _ s' => parseLoop fuel' dataEnd s'
        | Throw _ s' => Some s'
        end
    end
  else Some s.

(** The parser object once [parse()] has run, or the exception of
    [_parseHeader]. *)
Definition parseFinal (data : list byte) : option (exn + FitParser) :=
  match _parseHeader (constructor data) with
  | Throw e _ => Some (inl e)
  | Ret _ s =>
      let dataEnd := dataOffset s + dataSize s in
      match parseLoop (Z.to_nat (dataEnd - offset s)) dataEnd s with
      | Some s' => Some (inr s')
      | None => None
      end
  end.

Definition parse (data : list byte)
  : option (exn + gmap string (list (gmap string number))) :=
  match parseFinal data with
  | Some (inl e) => Some (inl e)
  | Some (inr s) => Some (inr (messages s))
  | None => None
  end.

End Fit.

(** ** The ZIP extractor ([extractFitFromZip] of [content.js]) *)

Module Zip.

Inductive exn :=
| RangeError
| InvalidZip                 (* 'Invalid ZIP file' *)
| InvalidCentralDirectory    (* 'Invalid central directory' *)
| Unsupported (method : Z)   (* 'Unsupported compression method: ..' *)
| NotFound                   (* 'No .fit file found in ZIP' *)
| InflateError.              (* rejection of the decompression stream *)

Definition view {A} (o : option A) : exn + A :=
  match o with
  | Some a => inr a
  | None => inl RangeError
  end.

Notation "x <- m ;; k" :=
  (match m with inl e => inl e | inr x => k end)
  (at level 100, m at next level, right associativity).

(** [name.toLowerCase()] and [endsWith] on file names.  A name is decoded
    one byte per character: exact for ASCII names, and a byte above 0x7F
    never stands for one of the characters of '.fit'. *)
Definition lowerAscii (c : ascii) : ascii :=
  let n := N_of_ascii c in
  if ((65 <=? n) && (n <=? 90))%N then ascii_of_N (n + 32) else c.

Fixpoint toLowerCase (s : string) : string :=
  match s with
  | EmptyString => EmptyString
  | String c r => String (lowerAscii c) (toLowerCase r)
  end.

Definition endsWith (s suffix : string) : bool :=
  let n := String.length s in
  let k := String.length suffix in
  (k <=? n)%nat && String.eqb (String.substring (n - k) k s) suffix.

Definition decodeName (bs : list byte) : string := string_of_list_byte bs.

Definition isFitName (name : string) : bool :=
  endsWith (toLowerCase name) ".fit".

Section Extract.

(** [inflateRaw] runs the host's raw-deflate stream; [None] when the
    stream rejects its input. *)
Variable inflateRaw : list byte -> option (list byte).

(** The backward search for the end-of-central-directory record: the
    positions [lo + n - 1] down to [lo]; -1 when none carries the
    signature. *)
Fixpoint scanEocd (zipBytes : list byte) (lo : Z) (n : nat) : exn + Z :=
  match n with
  | O => inr (-1)
  | S k =>
      let i := lo + Z.of_nat k in
      sig <- view (DataView.getUint32 zipBytes i true) ;;
      if sig =? 0x06054b50 then inr i else scanEocd zipBytes lo k
  end.

(** The extraction of a matching entry (lines 46-53). *)
Definition extractEntry (zipBytes : list byte) (method compSize localOffset : Z)
  : exn + list byte :=
  localNameLen <- view (DataView.getUint16 zipBytes (localOffset + 26) true) ;;
  localExtraLen <- view (DataView.getUint16 zipBytes (localOffset + 28) true) ;;
  let dataStart := localOffset + 30 + localNameLen + localExtraLen in
  let compressed := DataView.slice zipBytes dataStart (dataStart + compSize) in
  if method =? 0 then inr compressed
  else if method =? 8 then
    match inflateRaw compressed with
    | Some data => inr data
    | None => inl InflateError
    end
  else inl (Unsupported method).

(** The walk over the central directory with [n] entries left. *)
Fixpoint walkDirectory (zipBytes : list byte) (n : nat) (offset : Z)
  : exn + list byte :=
  match n with
  | O => inl NotFound
  | S k =>
      sig <- view (DataView.getUint32 zipBytes offset true) ;;
      if negb (sig =? 0x02014b50) then inl InvalidCentralDirectory
      else
        method <- view (DataView.getUint16 zipBytes (offset + 10) true) ;;
        compSize <- view (DataView.getUint32 zipBytes (offset + 20) true) ;;
        nameLen <- view (DataView.getUint16 zipBytes (offset + 28) true) ;;
        extraLen <- view (DataView.getUint16 zipBytes (offset + 30) true) ;;
        commentLen <- view (DataView.getUint16 zipBytes (offset + 32) true) ;;
        localOffset <- view (DataView.getUint32 zipBytes (offset + 42) true) ;;
        let name :=
          decodeName (DataView.slice zipBytes (offset + 46) (offset + 46 + nameLen)) in
        let offset' := offset + 46 + nameLen + extraLen + commentLen in
        if isFitName name
        then extractEntry zipBytes method compSize localOffset
        else walkDirectory zipBytes k offset'
  end.

Definition extractFitFromZip (zipBytes : list byte) : exn + list byte :=
  let len := Z.of_nat (length zipBytes) in
  let lo := Z.max 0 (len - 65557) in
  eocdOffset <- scanEocd zipBytes lo (Z.to_nat (len - 22 - lo + 1)) ;;
  if eocdOffset =? -1 then inl InvalidZip
  else
    cdOffset <- view (DataView.getUint32 zipBytes (eocdOffset + 16) true) ;;
    cdEntries <- view (DataView.getUint16 zipBytes (eocdOffset + 10) true) ;;
    walkDirectory zipBytes (Z.to_nat cdEntries) cdOffset.

End Extract.

End Zip.

(** ** The JSON adapter: the lap loop of [parseJsonActivity] *)

Module Json.

Import JS.

(** A lap row of the splits structure, reduced to the properties the
    adapter reads. *)
Record lapDTO := {
  startTimeGMT : option string;
  startTimeInSeconds : option number;
  duration : option number;
  elapsedDuration : option number;
  distance : option number;
  averageHR : option number;
  averageHeartRate : option number;
  maxHR : option number;
  maxHeartRate : option number;
  averageSpeed : option number }.

(** [obj[k] = v] where a [null] or [undefined] value leaves the key absent. *)
Definition setProp (k : string) (v : option number) (o : gmap string number)
  : gmap string number :=
  match v with
  | Some n => <[k := n]> o
  | None => o
  end.

(** [a || null]. *)
Definition orNull (a : option number) : option number := orElse a None.

Section Adapter.

(** [new Date(s).getTime()], NaN for a string that is not a date. *)
Variable Date_getTime : string -> number.

Definition lapDuration (lap : lapDTO) : number :=
  orZero (orElse (duration lap) (elapsedDuration lap)).

Definition lapStartTime (lap : lapDTO) : option number :=
  match startTimeGMT lap with
  | Some s => Some (div (Date_getTime s) (ofZ 1000))
  | None => startTimeInSeconds lap
  end.

Definition lapTimestamp (lap : lapDTO) : option number :=
  match startTimeGMT lap with
  | Some s => Some (add (div (Date_getTime s) (ofZ 1000)) (lapDuration lap))
  | None => Some (add (orZero (startTimeInSeconds lap)) (lapDuration lap))
  end.

(** The object pushed on [messages.lap] (lines 152-164). *)
Definition lapMessage (lap : lapDTO) : gmap string number :=
  setProp "start_time" (lapStartTime lap)
  (setProp "timestamp" (lapTimestamp lap)
  (setProp "total_timer_time" (Some (lapDuration lap))
  (setProp "total_distance" (Some (orZero (distance lap)))
  (setProp "avg_heart_rate" (orNull (orElse (averageHR lap) (averageHeartRate lap)))
  (setProp "max_heart_rate" (orNull (orElse (maxHR lap) (maxHeartRate lap)))
  (setProp "avg_speed" (orNull (averageSpeed lap)) ∅)))))).

Definition parseJsonLaps (lapSplits : list lapDTO) : list (gmap string number) :=
  map lapMessage lapSplits.

End Adapter.

End Json.

(** ** The reconciler ([computeLapStats] of [content.js])

    Laps and records are objects whose properties are numbers or absent.
    On such values no operation of [computeLapStats] throws (property
    reads, arithmetic, comparisons, [filter], [map], [sort], [find],
    [Math.min], [Math.max], [Math.round]), so it is a plain function
    here. *)

Module Stats.

Import JS.

Record bound := { start : number; end_ : number }.

Record LapStat := {
  lapNumber : Z;
  totalDistance : number;
  avgPace : option number;
  minHR : option number;
  maxHR : option number;
  avgHR : option number;
  timeToMinHR : option number;
  elapsedTime : number }.

(** [laps.map((lap) => ...)] threading [cumDist]. *)
Fixpoint lapBoundsFrom (cumDist : number) (laps : list (gmap string number))
  : list bound :=
  match laps with
  | nil => nil
  | lap :: rest =>
      let cumDist' := add cumDist (orZero (lap !! "total_distance"%string)) in
      {| start := cumDist; end_ := cumDist' |} :: lapBoundsFrom cumDist' rest
  end.

Definition lapBounds (laps : list (gmap string number)) : list bound :=
  lapBoundsFrom (ofZ 0) laps.

(** [x - y] on properties; [undefined] operands give NaN. *)
Definition subProps (x y : option number) : number :=
  match x, y with
  | Some a, Some b => sub a b
  | _, _ => NaN
  end.

(** The comparator [(a, b) => a.distance - b.distance]. *)
Definition byDistance (a b : gmap string number) : number :=
  subProps (a !! "distance"%string) (b !! "distance"%string).

(** [Array.prototype.sort] with a comparator: a stable sort, here by
    insertion.  When the comparator is not a consistent order (a NaN or
    infinite difference) the host leaves the order unspecified. *)
Fixpoint insertSorted {A} (cmp : A -> A -> number) (x : A) (l : list A) : list A :=
  match l with
  | nil => [x]
  | y :: l' =>
      if ltb (cmp y x) (ofZ 0) then y :: insertSorted cmp x l'
      else x :: y :: l'
  end.

Definition sort {A} (cmp : A -> A -> number) (l : list A) : list A :=
  fold_right (insertSorted cmp) nil l.

Definition hasProp (k : string) (o : gmap string number) : bool :=
  match o !! k with Some _ => true | None => false end.

Definition sortedRecords (records : list (gmap string number))
  : list (gmap string number) :=
  sort byDistance (List.filter (hasProp "distance") records).

(** [r.distance >= bound.start - 10 && r.distance <= bound.end + 10]. *)
Definition inWindow (b : bound) (r : gmap string number) : bool :=
  match r !! "distance"%string with
  | Some d => geb d (sub (start b) (ofZ 10)) && leb d (add (end_ b) (ofZ 10))
  | None => false
  end.

Definition distanceMatch (b : bound) (sorted : list (gmap string number))
  : list (gmap string number) :=
  List.filter (inWindow b) sorted.

(** [r.timestamp != null && r.timestamp >= start_time && r.timestamp <= timestamp]. *)
Definition inTimeWindow (startTime endTime : number) (r : gmap string number)
  : bool :=
  match r !! "timestamp"%string with
  | Some t => geb t startTime && leb t endTime
  | None => false
  end.

Definition lapRecords (lap : gmap string number) (b : bound)
  (sorted records : list (gmap string number)) : list (gmap string number) :=
  let matched := distanceMatch b sorted in
  match length matched, lap !! "start_time"%string, lap !! "timestamp"%string with
  | O, Some startTime, Some endTime =>
      List.filter (inTimeWindow startTime endTime) records
  | _, _, _ => matched
  end.

(** [r.heart_rate != null && r.heart_rate > 0]. *)
Definition hasHR (r : gmap string number) : bool :=
  match r !! "heart_rate"%string with
  | Some h => gtb h (ofZ 0)
  | None => false
  end.

Definition heartRate (r : gmap string number) : number :=
  default NaN (r !! "heart_rate"%string).

Definition hrIs (m : number) (r : gmap string number) : bool :=
  match r !! "heart_rate"%string with
  | Some h => strictEq h m
  | None => false
  end.

(** Lines 224-230. *)
Definition timeToMin (lap : gmap string number)
  (hrRecords : list (gmap string number)) (minHR : number) : option number :=
  match List.find (hrIs minHR) hrRecords with
  | Some minHRRecord =>
      match minHRRecord !! "timestamp"%string, lap !! "start_time"%string with
      | Some t, Some s => Some (Math_round (sub t s))
      | _, _ => None
      end
  | None => None
  end.

(** The callback of the final [laps.map]. *)
Definition lapStat (sorted records : list (gmap string number))
  (lap : gmap string number) (index : nat) (b : bound) : LapStat :=
  let lapRecs := lapRecords lap b sorted records in
  let hrRecords := List.filter hasHR lapRecs in
  let hrValues := map heartRate hrRecords in
  let totalDist := orZero (lap !! "total_distance"%string) in
  let elapsed :=
    orZero (orElse (lap !! "total_timer_time"%string)
               (Some (subProps (lap !! "timestamp"%string)
                               (lap !! "start_time"%string)))) in
  let pace :=
    if gtb totalDist (ofZ 0) && gtb elapsed (ofZ 0)
    then Some (mul (div elapsed totalDist) (ofZ 1000))
    else None in
  match hrValues with
  | nil =>
      {| lapNumber := Z.of_nat index + 1;
         totalDistance := totalDist;
         avgPace := pace;
         minHR := None;
         maxHR := orElse (lap !! "max_heart_rate"%string) None;
         avgHR := orElse (lap !! "avg_heart_rate"%string) None;
         timeToMinHR := None;
         elapsedTime := elapsed |}
  | _ :: _ =>
      let mn := Math_min hrValues in
      {| lapNumber := Z.of_nat index + 1;
         totalDistance := totalDist;
         avgPace := pace;
         minHR := Some mn;
         maxHR := Some (Math_max hrValues);
         avgHR := Some (Math_round
                    (div (fold_left add hrValues (ofZ 0))
                         (ofZ (Z.of_nat (length hrValues)))));
         timeToMinHR := timeToMin lap hrRecords mn;
         elapsedTime := elapsed |}
  end.

(** [laps.map((lap, index) => f(lap, index, lapBounds[index]))]; the two
    arrays have the same length. *)
Fixpoint mapIndexed {A B C} (f : A -> nat -> B -> C) (index : nat)
  (l : list A) (bs : list B) : list C :=
  match l, bs with
  | x :: l', b :: bs' => f x index b :: mapIndexed f (S index) l' bs'
  | _, _ => nil
  end.

Definition computeLapStats (laps records : list (gmap string number))
  : list LapStat :=
  let bounds := lapBounds laps in
  let sorted := sortedRecords records in
  mapIndexed (lapStat sorted records) 0%nat laps bounds.

End Stats.


(** ** The JSON adapter: the record loop and the result of
       [parseJsonActivity]

    The argument is what [JSON.parse] returns: [details] with its metric
    descriptors and metric rows, and [splits].  A cell of a metric row is
    a number or [null]. *)

Module JsonActivity.

Import JS.

Record descriptor := {
  metricsIndex : Z;
  key : string }.

(** An element of [activityDetailMetrics]. *)
Record metric := {
  metrics : option (list (option number)) }.

Record geoPolyline := {
  geo_metrics : option (list metric) }.

Record details := {
  metricDescriptors : option (list descriptor);
  activityDetailMetrics : option (list metric);
  geoPolylineDTO : option geoPolyline }.

(** [splits] is an array of lap rows or an object that may hold them
    under [lapDTOs]. *)
Inductive splits :=
| SplitsArray (laps : list Json.lapDTO)
| SplitsObject (lapDTOs : option (list Json.lapDTO)).

Inductive exn :=
| TypeError.

(** The object [idx] after the descriptor loop: a later descriptor with
    the same index overwrites an earlier one. *)
Definition idx (descriptors : list descriptor) : gmap Z string :=
  fold_left (fun acc d => <[metricsIndex d := key d]> acc) descriptors ∅.

(** The number a cell stands for in arithmetic: [null] is 0. *)
Definition toNumber (v : option number) : number :=
  match v with
  | Some n => n
  | None => ofZ 0
  end.

(** [record[k] = v] where [v] may be [null]. *)
Definition assign (k : string) (v : option number) (o : gmap string number)
  : gmap string number :=
  match v with
  | Some n => <[k := n]> o
  | None => delete k o
  end.

(** The body of the loop over the cells of a row (lines 140-144). *)
Definition storeMetric (keys : gmap Z string) (i : nat) (v : option number)
  (record : gmap string number) : gmap string number :=
  match keys !! Z.of_nat i with
  | None => record
  | Some k =>
      let r1 := if String.eqb k "directTimestamp"
                then <["timestamp"%string := div (toNumber v) (ofZ 1000)]> record
                else record in
      let r2 := if String.eqb k "directHeartRate"
                then assign "heart_rate" v r1 else r1 in
      let r3 := if String.eqb k "directDistance"
                then assign "distance" v r2 else r2 in
      if String.eqb k "directSpeed" then assign "speed" v r3 else r3
  end.

Fixpoint readMetrics (keys : gmap Z string) (i : nat)
  (vals : list (option number)) (record : gmap string number)
  : gmap string number :=
  match vals with
  | nil => record
  | v :: rest => readMetrics keys (S i) rest (storeMetric keys i v record)
  end.

Definition recordOf (keys : gmap Z string) (m : metric) : gmap string number :=
  readMetrics keys 0 (default nil (metrics m)) ∅.

(** [details.activityDetailMetrics || details.geoPolylineDTO?.metrics || []];
    an array is truthy even when empty. *)
Definition metricRows (d : details) : list metric :=
  match activityDetailMetrics d with
  | Some l => l
  | None =>
      match geoPolylineDTO d with
      | Some g => default nil (geo_metrics g)
      | None => nil
      end
  end.

(** [messages.record] after the loop over the rows: the rows that got a
    timestamp, in order. *)
Definition parseJsonRecords (d : details) : list (gmap string number) :=
  let keys := idx (default nil (metricDescriptors d)) in
  List.filter (Stats.hasProp "timestamp") (map (recordOf keys) (metricRows d)).

(** [splits?.lapDTOs || splits || []] as the [for .. of] loop takes it: a
    plain object without [lapDTOs] is not iterable. *)
Definition lapSplits (s : option splits) : exn + list Json.lapDTO :=
  match s with
  | None => inr nil
  | Some (SplitsArray l) => inr l
  | Some (SplitsObject (Some l)) => inr l
  | Some (SplitsObject None) => inl TypeError
  end.

Section Adapter.

Variable Date_getTime : string -> number.

(** [parseJsonActivity] on the parsed document; reading a property of an
    absent [details] throws. *)
Definition parseJsonActivity (d : option details) (s : option splits)
  : exn + gmap string (list (gmap string number)) :=
  match d with
  | None => inl TypeError
  | Some d =>
      let records := parseJsonRecords d in
      match lapSplits s with
      | inl e => inl e
      | inr l =>
          inr (<["record"%string := records]>
                (<["lap"%string := Json.parseJsonLaps Date_getTime l]> ∅))
      end
  end.

End Adapter.

End JsonActivity.

(** ** Format detection and the data path of [openAnalyzer] and
       [displayLaps] *)

Module Loader.

(** [bytes[i] === v]; an index outside the array reads [undefined]. *)
Definition byteIs (bytes : list byte) (i v : Z) : bool :=
  match DataView.byteAt bytes i with
  | Some b => b =? v
  | None => false
  end.

Definition isZip (bytes : list byte) : bool :=
  (4 <? Z.of_nat (length bytes)) && byteIs bytes 0 0x50 && byteIs bytes 1 0x4B
  && byteIs bytes 2 0x03 && byteIs bytes 3 0x04.

Definition isFit (bytes : list byte) : bool :=
  (12 <? Z.of_nat (length bytes)) && byteIs bytes 8 0x2E && byteIs bytes 9 0x46
  && byteIs bytes 10 0x49 && byteIs bytes 11 0x54.

(** What the [catch] of [openAnalyzer] can receive on the binary path. *)
Inductive exn :=
| ZipError (e : Zip.exn)
| UnexpectedFormat            (* 'Unexpected file format (..)' *)
| FitError (e : Fit.exn).

Section Binary.

Variable inflateRaw : list byte -> option (list byte).

(** The choice of [fitBytes] (lines 470-479). *)
Definition fitBytes (rawBytes : list byte) : exn + list byte :=
  if isZip rawBytes then
    match Zip.extractFitFromZip inflateRaw rawBytes with
    | inl e => inl (ZipError e)
    | inr b => inr b
    end
  else if isFit rawBytes then inr rawBytes
  else inl UnexpectedFormat.

(** [fitData] on the binary path: [new FitParser(fitBytes).parse()]
    (lines 482-483); [None] only where [Fit.parse] is, that is never. *)
Definition fitData (rawBytes : list byte)
  : option (exn + gmap string (list (gmap string JS.number))) :=
  match fitBytes rawBytes with
  | inl e => Some (inl e)
  | inr b =>
      match Fit.parse b with
      | Some (inl e) => Some (inl (FitError e))
      | Some (inr table) => Some (inr table)
      | None => None
      end
  end.

End Binary.

(** The value [displayLaps] gives [allLapStats]; [None] when it shows
    'No laps found in this activity.' instead. *)
Definition allLapStats (fitData : gmap string (list (gmap string JS.number)))
  : option (list Stats.LapStat) :=
  let laps := default nil (fitData !! "lap"%string) in
  let records := default nil (fitData !! "record"%string) in
  match laps with
  | nil => None
  | _ :: _ => Some (Stats.computeLapStats laps records)
  end.

End Loader.

(** ** [formatPace]

    [Number.prototype.toString] is modelled on integers, where it prints
    the decimal digits (up to 10^21); [formatPace] applies it to integers
    only. *)

Module Format.

Import JS.







End Format.

(** * Vocabulary of the properties *)

(** ** Definitions that follow the specification's wording *)

Module Spec.

Import JS Stats.




(** The timestamp the specification gives a compressed header: the last
    full timestamp with its low five bits cleared, plus the offset, plus 32
    after a wraparound. *)
Definition expectedTimestamp (T O : Z) : Z :=
  if O <? Z.land T 0x1F
  then Z.land T (Z.lnot 0x1F) + O + 32
  else Z.land T (Z.lnot 0x1F) + O.

End Spec.

(** ** The reconciler *)

Module StatsProp.

Import JS Stats.




End StatsProp.

(** ** The decoder *)

Module FitProp.

Import JS Fit.

(** [s'] differs from [s] at most by a cursor moved forward and by the
    timestamp accumulator. *)
Record advance (s s' : FitParser) : Prop := mkAdvance {
  adv_bytes : bytes s' = bytes s;
  adv_definitions : definitions s' = definitions s;
  adv_messages : messages s' = messages s;
  adv_dataSize : dataSize s' = dataSize s;
  adv_dataOffset : dataOffset s' = dataOffset s;
  adv_offset : offset s <= offset s' }.

(** A method that only advances, whatever its outcome, and whose result
    satisfies [V]. *)
Definition advancing {A} (m : M A) (V : A -> Prop) : Prop :=
  forall s, match m s with
            | Ret a s' => advance s s' /\ V a
            | Throw _ s' => advance s s'
            end.

Definition fieldOk (f : field) : Prop := 0 <= size f.
Definition devFieldOk (df : devField) : Prop := 0 <= dev_size df.
Definition definitionOk (d : definition) : Prop :=
  Forall fieldOk (fields d) /\ Forall devFieldOk (devFields d).
Definition definitionsOk (s : FitParser) : Prop :=
  forall lt d, definitions s !! lt = Some d -> definitionOk d.

(** [s'] follows [s] in a decode pass: same buffer and header fields, a
    cursor that did not move back, well-formed definitions. *)
Record follows (s s' : FitParser) : Prop := mkFollows {
  fol_bytes : bytes s' = bytes s;
  fol_dataSize : dataSize s' = dataSize s;
  fol_dataOffset : dataOffset s' = dataOffset s;
  fol_offset : offset s <= offset s';
  fol_definitions : definitionsOk s -> definitionsOk s' }.

(** [decodes dataEnd s s']: the loop of [parse] takes [s] to [s'] through
    records that all decode. *)
Inductive decodes (dataEnd : Z) : FitParser -> FitParser -> Prop :=
| decodes_done s : decodes dataEnd s s
| decodes_record s s' s'' :
    offset s < dataEnd ->
    _parseRecord s = Ret tt s' ->
    decodes dataEnd s' s'' ->
    decodes dataEnd s s''.

(** The local type a data header refers to; [None] for a definition
    header. *)
Definition dataLocalType (header : Z) : option Z :=
  if negb (Z.land header 0x80 =? 0) then Some (Z.land (Z.shiftr header 5) 0x03)
  else if negb (Z.land header 0x40 =? 0) then None
  else Some (Z.land header 0x0F).

(** Bytes a reader consumes. *)
Definition readerWidth (r : reader) : Z :=
  match r with
  | getUint8 | getInt8 => 1
  | getUint16 | getInt16 => 2
  | getUint32 | getInt32 | getFloat32 => 4
  | getFloat64 => 8
  end.

Definition sumSizes (fs : list field) : Z :=
  fold_right (fun f acc => size f + acc) 0 fs.
Definition sumDevSizes (dfs : list devField) : Z :=
  fold_right (fun df acc => dev_size df + acc) 0 dfs.
Definition payloadOf (d : definition) : Z :=
  sumSizes (fields d) + sumDevSizes (devFields d).

(** The bytes from the cursor on. *)
Definition ahead (s : FitParser) : list byte :=
  skipn (Z.to_nat (offset s)) (bytes s).

End FitProp.

(** ** Well-formed protocol streams *)

Module FitStream.

Import Fit FitProp.

Definition byteZ (b : byte) : Z := Z.of_N (Byte.to_N b).
Definition ofZ8 (z : Z) : byte := default x00 (Byte.of_N (Z.to_N z)).

(** The records of a stream, before framing. *)
Inductive record :=
| DefinitionRecord (localType : Z) (reserved arch msgNum0 msgNum1 : byte)
    (fieldDefs : list (byte * byte * byte))
    (devFieldDefs : option (list (byte * byte * byte)))
| DataRecord (localType : Z) (payload : list byte)
| CompressedRecord (localType : Z) (timeOffset : Z) (payload : list byte).

Definition encodeTriples (l : list (byte * byte * byte)) : list byte :=
  flat_map (fun t => [t.1.1; t.1.2; t.2]) l.

Definition encodeDev (dev : option (list (byte * byte * byte))) : list byte :=
  match dev with
  | Some ds => ofZ8 (Z.of_nat (length ds)) :: encodeTriples ds
  | None => nil
  end.

Definition encode (r : record) : list byte :=
  match r with
  | DefinitionRecord lt reserved arch m0 m1 fs dev =>
      ofZ8 (0x40 + match dev with Some _ => 0x20 | None => 0 end + lt)
        :: reserved :: arch :: m0 :: m1 :: ofZ8 (Z.of_nat (length fs))
        :: encodeTriples fs ++ encodeDev dev
  | DataRecord lt payload => ofZ8 lt :: payload
  | CompressedRecord lt timeOffset payload =>
      ofZ8 (0x80 + 32 * lt + timeOffset) :: payload
  end.

(** Bytes a data record carries under a definition: the declared sizes of
    its fields and of its developer fields. *)
Definition sizeSum (l : list (byte * byte * byte)) : Z :=
  fold_right (fun t acc => byteZ t.1.2 + acc) 0 l.

Definition payloadSize (fs : list (byte * byte * byte))
  (dev : option (list (byte * byte * byte))) : Z :=
  sizeSum fs + match dev with Some ds => sizeSum ds | None => 0 end.

(** [wellFormed sizes recs]: every data record refers to a local type
    defined before it and carries exactly the bytes that definition
    declares; [sizes] maps the local types defined so far to their payload
    size. *)
Fixpoint wellFormed (sizes : gmap Z Z) (recs : list record) : Prop :=
  match recs with
  | nil => True
  | DefinitionRecord lt _ _ _ _ fs dev :: rest =>
      0 <= lt < 16 /\
      Z.of_nat (length fs) < 256 /\
      match dev with Some ds => Z.of_nat (length ds) < 256 | None => True end /\
      wellFormed (<[lt := payloadSize fs dev]> sizes) rest
  | DataRecord lt payload :: rest =>
      0 <= lt < 16 /\
      sizes !! lt = Some (Z.of_nat (length payload)) /\
      wellFormed sizes rest
  | CompressedRecord lt timeOffset payload :: rest =>
      0 <= lt < 4 /\ 0 <= timeOffset < 32 /\
      sizes !! lt = Some (Z.of_nat (length payload)) /\
      wellFormed sizes rest
  end.

Definition body (recs : list record) : list byte := flat_map encode recs.

Definition le32 (v : Z) : list byte :=
  map (fun i => ofZ8 ((v / 256 ^ i) mod 256)) [0; 1; 2; 3].

(** A file: the header (its length, the protocol and profile versions, the
    payload length and the signature, then [extra] bytes), the records, and
    a trailer. *)
Definition file (protocol profile0 profile1 : byte) (extra : list byte)
  (recs : list record) (trailer : list byte) : list byte :=
  (ofZ8 (12 + Z.of_nat (length extra)) :: protocol :: profile0 :: profile1
     :: le32 (Z.of_nat (length (body recs)))
     ++ list_byte_of_string ".FIT" ++ extra)
  ++ body recs ++ trailer.

Definition fieldOf (t : byte * byte * byte) : field :=
  {| num := byteZ t.1.1; size := byteZ t.1.2; baseType := byteZ t.2 |}.
Definition devFieldOf (t : byte * byte * byte) : devField :=
  {| dev_num := byteZ t.1.1; dev_size := byteZ t.1.2; devIdx := byteZ t.2 |}.

(** Every local type the stream has defined so far is in the registry,
    with the payload size the stream declared. *)
Definition registered (sizes : gmap Z Z) (s : FitParser) : Prop :=
  forall lt n, sizes !! lt = Some n ->
    exists d, definitions s !! lt = Some d /\ definitionOk d /\ payloadOf d = n.

(** [f] holds of every integer from 0 below [n]. *)
Definition allBelow (n : nat) (f : Z -> bool) : bool :=
  forallb f (map Z.of_nat (seq 0 n)).

End FitStream.

(** ** Central directories *)

Module ZipSpec.

Import Zip.

(** A central-directory entry as the walk reads it. *)
Record cdEntry := {
  method : Z;
  compSize : Z;
  nameLen : Z;
  extraLen : Z;
  commentLen : Z;
  localOffset : Z;
  name : string }.

(** The entry at [offset], when its signature is the central-directory one
    and its fixed part lies inside the buffer. *)
Definition entryAt (zipBytes : list byte) (offset : Z) : option cdEntry :=
  match DataView.getUint32 zipBytes offset true,
        DataView.getUint16 zipBytes (offset + 10) true,
        DataView.getUint32 zipBytes (offset + 20) true,
        DataView.getUint16 zipBytes (offset + 28) true,
        DataView.getUint16 zipBytes (offset + 30) true,
        DataView.getUint16 zipBytes (offset + 32) true,
        DataView.getUint32 zipBytes (offset + 42) true with
  | Some sig, Some m, Some cs, Some nl, Some el, Some cl, Some lo =>
      if sig =? 0x02014b50
      then Some {| method := m; compSize := cs; nameLen := nl; extraLen := el;
                   commentLen := cl; localOffset := lo;
                   name := decodeName
                     (DataView.slice zipBytes (offset + 46) (offset + 46 + nl)) |}
      else None
  | _, _, _, _, _, _, _ => None
  end.

Definition nextEntry (offset : Z) (e : cdEntry) : Z :=
  offset + 46 + nameLen e + extraLen e + commentLen e.

(** [precedes zipBytes from k to]: the [k] entries from [from] on, in
    directory order, have other names, and [to] is where the next one
    starts. *)
Inductive precedes (zipBytes : list byte) : Z -> nat -> Z -> Prop :=
| precedes_none offset : precedes zipBytes offset 0 offset
| precedes_entry offset e k offset' :
    entryAt zipBytes offset = Some e ->
    isFitName (name e) = false ->
    precedes zipBytes (nextEntry offset e) k offset' ->
    precedes zipBytes offset (S k) offset'.

End ZipSpec.

(** ** Sample inputs *)

Module Sample.

Import JS Stats.

Definition object (props : list (string * Z)) : gmap string number :=
  fold_right (fun kv o => <[kv.1 := ofZ kv.2]> o) ∅ props.

Definition lap1000 : gmap string number :=
  object [("start_time", 0); ("timestamp", 300); ("total_distance", 1000)]%string.

(** Two samples with the same heart rate, the farther one first. *)
Definition farFirst : list (gmap string number) :=
  [ object [("timestamp", 100); ("heart_rate", 100); ("distance", 500)]%string;
    object [("timestamp", 50); ("heart_rate", 100); ("distance", 100)]%string ].

Definition window1000 : bound := {| start := ofZ 0; end_ := ofZ 1000 |}.



Definition startAt100 : Json.lapDTO :=
  {| Json.startTimeGMT := None; Json.startTimeInSeconds := Some (ofZ 100);
     Json.duration := Some (ofZ 60); Json.elapsedDuration := None;
     Json.distance := Some (ofZ 200); Json.averageHR := None;
     Json.averageHeartRate := None; Json.maxHR := None;
     Json.maxHeartRate := None; Json.averageSpeed := None |}.

Definition noDate (s : string) : number := NaN.

End Sample.

Module ZipSample.

Definition le (n : nat) (v : Z) : list Z :=
  map (fun i => (v / 256 ^ Z.of_nat i) mod 256) (seq 0 n).

Definition toBytes (l : list Z) : list byte :=
  map (fun z => default x00 (Byte.of_N (Z.to_N z))) l.

Definition localFile (fname : string) (data : list Z) : list byte :=
  toBytes (le 4 0x04034b50 ++ le 2 20 ++ le 2 0 ++ le 2 0 ++ le 2 0 ++ le 2 0
           ++ le 4 0 ++ le 4 (Z.of_nat (length data)) ++ le 4 (Z.of_nat (length data))
           ++ le 2 (Z.of_nat (String.length fname)) ++ le 2 0)
  ++ list_byte_of_string fname ++ toBytes data.

Definition centralEntry (fname : string) (method compSize localOffset : Z)
  : list byte :=
  toBytes (le 4 0x02014b50 ++ le 2 20 ++ le 2 20 ++ le 2 0 ++ le 2 method
           ++ le 2 0 ++ le 2 0 ++ le 4 0 ++ le 4 compSize ++ le 4 compSize
           ++ le 2 (Z.of_nat (String.length fname)) ++ le 2 0 ++ le 2 0
           ++ le 2 0 ++ le 2 0 ++ le 4 0 ++ le 4 localOffset)
  ++ list_byte_of_string fname.

Definition endRecord (entries cdSize cdOffset : Z) : list byte :=
  toBytes (le 4 0x06054b50 ++ le 2 0 ++ le 2 0 ++ le 2 entries ++ le 2 entries
           ++ le 4 cdSize ++ le 4 cdOffset ++ le 2 0).

(** Three stored files: a text file, then two whose names end in '.fit'
    up to case; the directory gives the last one an unknown method. *)
Definition archive : list byte :=
  let f1 := localFile "README.TXT" [104; 105] in
  let f2 := localFile "RUN.FIT" [1; 2; 3] in
  let f3 := localFile "b.fit" [9] in
  let o2 := Z.of_nat (length f1) in
  let o3 := o2 + Z.of_nat (length f2) in
  let cdOffset := o3 + Z.of_nat (length f3) in
  let cd := centralEntry "README.TXT" 0 2 0 ++ centralEntry "RUN.FIT" 0 3 o2
            ++ centralEntry "b.fit" 99 1 o3 in
  f1 ++ f2 ++ f3 ++ cd ++ endRecord 3 (Z.of_nat (length cd)) cdOffset.

Definition noInflate (d : list byte) : option (list byte) := None.

End ZipSample.

Module StreamSample.

Import JS Fit FitStream.

Definition b (z : Z) : byte := ofZ8 z.

(** A record definition (timestamp, heart rate, a 3-byte string and one
    developer field), a plain record, a second definition and a
    compressed-timestamp record. *)
Definition recs : list record :=
  [ DefinitionRecord 0 (b 0) (b 0) (b 20) (b 0)
      [(b 253, b 4, b 0x86); (b 3, b 1, b 2); (b 9, b 3, b 7)]
      (Some [(b 0, b 2, b 0)]);
    DataRecord 0 (map b [100; 0; 0; 0; 120; 65; 66; 67; 7; 7]);
    DefinitionRecord 1 (b 0) (b 0) (b 20) (b 0) [(b 3, b 1, b 2)] None;
    CompressedRecord 1 3 [b 121] ].

Definition data : list byte :=
  file (b 0x10) (b 0) (b 0) [b 0; b 0] recs [b 0; b 0].

(** A record of local type 0, then one of local type 5, never defined,
    then more bytes. *)
Definition undefinedType : list byte :=
  file (b 0x10) (b 0) (b 0) nil
    [ DefinitionRecord 0 (b 0) (b 0) (b 20) (b 0) [(b 3, b 1, b 2)] None;
      DataRecord 0 [b 120];
      DataRecord 5 [b 1; b 2; b 3];
      DataRecord 0 [b 130] ] nil.

(** A full timestamp of 0x80000005 followed by a compressed-timestamp
    record with offset 3. *)
Definition year2058 : list byte :=
  file (b 0x10) (b 0) (b 0) nil
    [ DefinitionRecord 0 (b 0) (b 0) (b 20) (b 0)
        [(b 253, b 4, b 0x86); (b 3, b 1, b 2)] None;
      DataRecord 0 (map b [5; 0; 0; 0x80; 120]);
      DefinitionRecord 1 (b 0) (b 0) (b 20) (b 0) [(b 3, b 1, b 2)] None;
      CompressedRecord 1 3 [b 121] ] nil.

(** A record whose heart-rate byte is the uint8 sentinel 0xFF. *)
Definition sentinelHeartRate : list byte :=
  file (b 0x10) (b 0) (b 0) nil
    [ DefinitionRecord 0 (b 0) (b 0) (b 20) (b 0)
        [(b 253, b 4, b 0x86); (b 3, b 1, b 2)] None;
      DataRecord 0 (map b [100; 0; 0; 0; 0xFF]) ] nil.

(** The timestamps of the records a parse returns. *)
Definition recordTimestamps
  (r : option (exn + gmap string (list (gmap string number))))
  : list (option number) :=
  match r with
  | Some (inr table) =>
      map (fun m : gmap string number => m !! "timestamp"%string)
          (default nil (table !! "record"%string))
  | _ => nil
  end.

(** The heart rates of the records a parse returns. *)
Definition recordHeartRates
  (r : option (exn + gmap string (list (gmap string number))))
  : list (option number) :=
  match r with
  | Some (inr table) =>
      map (fun m : gmap string number => m !! "heart_rate"%string)
          (default nil (table !! "record"%string))
  | _ => nil
  end.

(** A one-byte field of type uint8 holding 0xFF. *)
Definition heartRateField : field := {| num := 3; size := 1; baseType := 2 |}.
Definition uint8Info : typeInfo :=
  {| tsize := 1; read := Some getUint8; invalid := Some (ofZ 0xFF) |}.

End StreamSample.


(** ** Archives with one entry *)

Module ZipStream.

Import FitStream.

(** The [n] low bytes of [v], least significant first. *)
Fixpoint le (n : nat) (v : Z) : list byte :=
  match n with
  | O => nil
  | S k => ofZ8 (v mod 256) :: le k (v / 256)
  end.

Definition size (l : list byte) : Z := Z.of_nat (length l).

(** A local file header with its name, extra field and stored bytes. *)
Definition localFile (fname extra data : list byte) (method : Z) : list byte :=
  le 4 0x04034b50 ++ le 2 20 ++ le 2 0 ++ le 2 method ++ le 2 0 ++ le 2 0
  ++ le 4 0 ++ le 4 (size data) ++ le 4 (size data)
  ++ le 2 (size fname) ++ le 2 (size extra) ++ fname ++ extra ++ data.

Definition centralEntry (fname : list byte) (method compSize localOffset : Z)
  : list byte :=
  le 4 0x02014b50 ++ le 2 20 ++ le 2 20 ++ le 2 0 ++ le 2 method ++ le 2 0
  ++ le 2 0 ++ le 4 0 ++ le 4 compSize ++ le 4 compSize
  ++ le 2 (size fname) ++ le 2 0 ++ le 2 0 ++ le 2 0 ++ le 2 0 ++ le 4 0
  ++ le 4 localOffset ++ fname.

Definition endRecord (entries cdSize cdOffset : Z) : list byte :=
  le 4 0x06054b50 ++ le 2 0 ++ le 2 0 ++ le 2 entries ++ le 2 entries
  ++ le 4 cdSize ++ le 4 cdOffset ++ le 2 0.

(** An archive holding the one file [fname], whose stored bytes are
    [data]. *)
Definition archive (fname extra data : list byte) (method : Z) : list byte :=
  let lf := localFile fname extra data method in
  let cd := centralEntry fname method (size data) 0 in
  lf ++ cd ++ endRecord 1 (size cd) (size lf).

(** The same bytes, field by field. *)
Definition segments (fname extra data : list byte) (method : Z)
  : list (list byte) :=
  [ le 4 0x04034b50; le 2 20; le 2 0; le 2 method; le 2 0; le 2 0;
    le 4 0; le 4 (size data); le 4 (size data);
    le 2 (size fname); le 2 (size extra); fname; extra; data;
    le 4 0x02014b50; le 2 20; le 2 20; le 2 0; le 2 method; le 2 0;
    le 2 0; le 4 0; le 4 (size data); le 4 (size data);
    le 2 (size fname); le 2 0; le 2 0; le 2 0; le 2 0; le 4 0;
    le 4 0; fname;
    le 4 0x06054b50; le 2 0; le 2 0; le 2 1; le 2 1;
    le 4 (size (centralEntry fname method (size data) 0));
    le 4 (size (localFile fname extra data method)); le 2 0 ].

End ZipStream.

(** ** File signatures *)

Module LoaderProp.

(** The four bytes '.FIT' at offset 8. *)
Definition fitSignature (bytes : list byte) : bool :=
  Loader.byteIs bytes 8 0x2E && Loader.byteIs bytes 9 0x46
  && Loader.byteIs bytes 10 0x49 && Loader.byteIs bytes 11 0x54.

End LoaderProp.

(** ** Results up to the representation of a number *)

Module StatsSame.

Import JS.

(** Two optional numbers are both absent or denote the same value. *)
Definition sameResult (a b : option number) : Prop :=
  match a, b with
  | Some x, Some y => sameValue x y
  | None, None => True
  | _, _ => False
  end.

End StatsSame.

(** ** Columns of a metric table *)

Module JsonProp.

(** The last of the [n] columns from [i] on whose descriptor carries the
    key [k]. *)
Definition lastFrom (keys : gmap Z string) (k : string) (i n : nat)
  : option nat :=
  List.find (fun j => bool_decide (keys !! Z.of_nat j = Some k)) (rev (seq i n)).

Definition lastColumn (keys : gmap Z string) (k : string) (n : nat)
  : option nat :=
  lastFrom keys k 0 n.

(** A document without lap rows and with heart rates but no timestamps. *)
Definition noTimestamps : JsonActivity.details :=
  {| JsonActivity.metricDescriptors :=
       Some [ {| JsonActivity.metricsIndex := 0;
                 JsonActivity.key := "directHeartRate" |} ];
     JsonActivity.activityDetailMetrics :=
       Some [ {| JsonActivity.metrics := Some [Some (JS.ofZ 120)] |} ];
     JsonActivity.geoPolylineDTO := None |}.

End JsonProp.

(** ** Streams of record messages *)

Module RecordStream.

Import JS Fit FitStream.

(** A sample: a timestamp in seconds, a heart rate and a distance in
    centimetres, as the file stores them. *)
Record sample := {
  time : Z;
  heart : Z;
  centimetres : Z }.

(** No field holds the invalid value of its base type. *)
Definition valid (p : sample) : Prop :=
  0 <= time p < 0xFFFFFFFF /\ 0 <= heart p < 0xFF /\
  0 <= centimetres p < 0xFFFFFFFF.

(** The definition of a little-endian record message under local type
    [lt]: timestamp (uint32), heart rate (uint8), distance (uint32). *)
Definition sampleDefinition (lt : Z) : record :=
  DefinitionRecord lt x00 x00 (ofZ8 20) x00
    [ (ofZ8 253, ofZ8 4, ofZ8 0x86); (ofZ8 3, ofZ8 1, ofZ8 2);
      (ofZ8 5, ofZ8 4, ofZ8 0x86) ] None.

(** What the decoder registers for it. *)
Definition sampleFields : definition :=
  {| globalMsgNum := 20; littleEndian := true;
     fields := [ {| num := 253; size := 4; baseType := 0x86 |};
                 {| num := 3; size := 1; baseType := 2 |};
                 {| num := 5; size := 4; baseType := 0x86 |} ];
     devFields := nil |}.

Definition sampleRecord (lt : Z) (p : sample) : record :=
  DataRecord lt (le32 (time p) ++ [ofZ8 (heart p)] ++ le32 (centimetres p)).

Definition stream (lt : Z) (samples : list sample) : list record :=
  sampleDefinition lt :: map (sampleRecord lt) samples.

(** The message a sample stands for, the distance in metres. *)
Definition sampleMessage (p : sample) : gmap string number :=
  <["distance"%string := div (ofZ (centimetres p)) (ofZ 100)]>
    (<["heart_rate"%string := ofZ (heart p)]>
      (<["timestamp"%string := ofZ (time p)]> ∅)).

End RecordStream.

(** ** Sample decoder states and streams *)

Module DecoderSample.

Import JS Fit FitStream.

(** A record definition for local type 3, big-endian, with one
    heart-rate byte. *)
Definition bigEndianDefinition : record :=
  DefinitionRecord 3 x00 x01 x00 (ofZ8 20) [(ofZ8 3, ofZ8 1, ofZ8 2)] None.

Definition heartRateDefinition : definition :=
  {| globalMsgNum := 20; littleEndian := true;
     fields := [ {| num := 3; size := 1; baseType := 2 |} ];
     devFields := nil |}.

(** A parser that knows local type 0, its cursor on a data record of
    that type. *)
Definition ready : FitParser :=
  withDefinitions {[ 0 := heartRateDefinition ]}
    (constructor [ofZ8 0; ofZ8 120]).

(** The same parser on a record with a compressed-timestamp header for
    local type 0 and time offset 7. *)
Definition compressed : FitParser :=
  withDefinitions {[ 0 := heartRateDefinition ]}
    (constructor [ofZ8 (0x80 + 7); ofZ8 120]).

(** The parser after one more record. *)
Definition step (s : FitParser) : FitParser :=
  match _parseRecord s with
  | Ret _ s' => s'
  | Throw _ s' => s'
  end.

End DecoderSample.

(** * Properties *)

Lemma Qle_bool_false (x y : Q) : Qle_bool x y = false <-> (y < x)%Q.
Proof.
  split; intros H.
  - apply Qnot_le_lt. intros Hle. apply Qle_bool_iff in Hle. congruence.
  - destruct (Qle_bool x y) eqn:E; [|reflexivity].
    apply Qle_bool_iff in E. lra.
Qed.

Ltac qreflect :=
  repeat match goal with
  | H : Qle_bool _ _ = true |- _ => apply Qle_bool_iff in H
  | H : Qle_bool _ _ = false |- _ => apply Qle_bool_false in H
  | H : negb _ = true |- _ => apply negb_true_iff in H
  | H : negb _ = false |- _ => apply negb_false_iff in H
  | |- negb _ = true => apply negb_true_iff
  | |- negb _ = false => apply negb_false_iff
  | |- Qle_bool _ _ = true => apply Qle_bool_iff
  | |- Qle_bool _ _ = false => apply Qle_bool_false
  end.

Ltac numcases :=
  repeat match goal with
  | a : JS.number |- _ => destruct a as [?| |[|]]
  end; simpl in *; try congruence; try reflexivity.

(** ** JavaScript numbers *)

Section Numbers.

Import JS.

Lemma ltb_leb a b : ltb a b = true -> leb a b = true.
Proof. numcases. intros. qreflect. lra. Qed.

Lemma leb_refl a : a <> NaN -> leb a a = true.
Proof. numcases. intros. qreflect. lra. Qed.

Lemma leb_total a b : a <> NaN -> b <> NaN -> ltb b a = false -> leb a b = true.
Proof. numcases. intros. qreflect. lra. Qed.

Lemma leb_trans a b c : leb a b = true -> leb b c = true -> leb a c = true.
Proof. numcases. intros. qreflect. lra. Qed.


Lemma gtb_notNaN a b : gtb a b = true -> a <> NaN.
Proof. unfold gtb. numcases. Qed.

Lemma min2_either a b : a <> NaN -> b <> NaN -> min2 a b = a \/ min2 a b = b.
Proof.
  intros Ha Hb. unfold min2.
  destruct a, b; try congruence; destruct (ltb _ _); auto.
Qed.

Lemma min2_leb a b :
  a <> NaN -> b <> NaN -> leb (min2 a b) a = true /\ leb (min2 a b) b = true.
Proof.
  intros Ha Hb.
  assert (E : min2 a b = if ltb b a then b else a)
    by (unfold min2; destruct a, b; congruence).
  rewrite E. destruct (ltb b a) eqn:L.
  - split; [now apply ltb_leb | now apply leb_refl].
  - split; [now apply leb_refl | now apply leb_total].
Qed.

Lemma min2_notNaN a b : a <> NaN -> b <> NaN -> min2 a b <> NaN.
Proof. intros Ha Hb. destruct (min2_either a b Ha Hb) as [-> | ->]; assumption. Qed.

Lemma fold_min2 (l : list number) (acc : number) :
  acc <> NaN -> Forall (fun x => x <> NaN) l ->
  let m := fold_left min2 l acc in
  m <> NaN /\ (m = acc \/ In m l) /\ leb m acc = true /\
  Forall (fun x => leb m x = true) l.
Proof.
  revert acc. induction l as [|x l IH]; simpl; intros acc Hacc Hl.
  - repeat split; auto. now apply leb_refl.
  - inversion Hl as [|? ? Hx Hl']; subst.
    destruct (IH (min2 acc x) (min2_notNaN _ _ Hacc Hx) Hl') as (Hm & Hin & Hle & Hall).
    destruct (min2_leb acc x Hacc Hx) as [L1 L2].
    repeat split; auto.
    + destruct Hin as [E|Hin]; [|auto].
      rewrite E. destruct (min2_either acc x Hacc Hx) as [-> | ->]; auto.
    + eapply leb_trans; eassumption.
    + constructor; [eapply leb_trans; eassumption | assumption].
Qed.

(** [Math.min] of a non-empty list without NaN is one of its elements and
    a lower bound of all of them. *)
Lemma Math_min_attained (l : list number) :
  l <> nil -> Forall (fun x => x <> NaN) l ->
  In (Math_min l) l /\ Forall (fun x => leb (Math_min l) x = true) l.
Proof.
  intros Hne Hl. unfold Math_min.
  destruct (fold_min2 l (Inf false) ltac:(discriminate) Hl) as (Hm & Hin & _ & Hall).
  split; [|assumption].
  destruct Hin as [E|Hin]; [|assumption].
  destruct l as [|x l]; [congruence|].
  inversion Hall as [|? ? Hx _]; subst. rewrite E in Hx |- *.
  destruct x as [q| |[|]]; simpl in Hx; try discriminate. now left.
Qed.

End Numbers.

(** ** The reconciler *)

Section Reconciler.

Import JS Stats StatsProp.

(** *** Lists *)



(** *** The sort *)

Lemma insertSorted_perm {A} (cmp : A -> A -> number) x (l : list A) :
  Permutation (insertSorted cmp x l) (x :: l).
Proof.
  induction l as [|y l IH]; simpl; [reflexivity|].
  destruct (ltb (cmp y x) (ofZ 0)); [|reflexivity].
  rewrite IH. apply perm_swap.
Qed.

Lemma sort_perm {A} (cmp : A -> A -> number) (l : list A) :
  Permutation (sort cmp l) l.
Proof.
  induction l as [|x l IH]; simpl; [reflexivity|].
  rewrite insertSorted_perm. now apply perm_skip.
Qed.





Lemma filter_perm {A} (f : A -> bool) (l l' : list A) :
  Permutation l l' -> Permutation (List.filter f l) (List.filter f l').
Proof.
  induction 1; simpl.
  - reflexivity.
  - destruct (f x); [now apply perm_skip|assumption].
  - destruct (f x), (f y); try reflexivity. apply perm_swap.
  - etransitivity; eassumption.
Qed.

Lemma filter_filter {A} (f g : A -> bool) (l : list A) :
  List.filter f (List.filter g l) = List.filter (fun x => g x && f x) l.
Proof.
  induction l as [|x l IH]; simpl; [reflexivity|].
  destruct (g x); simpl; [destruct (f x)|]; now rewrite ?IH.
Qed.

Lemma inWindow_hasProp b r : inWindow b r = true -> hasProp "distance" r = true.
Proof. unfold inWindow, hasProp. destruct (r !! "distance"%string); [reflexivity|discriminate]. Qed.

Lemma distanceMatch_perm b records :
  Permutation (distanceMatch b (sortedRecords records))
              (List.filter (inWindow b) records).
Proof.
  unfold distanceMatch, sortedRecords.
  rewrite (filter_perm _ _ _ (sort_perm _ _)), filter_filter.
  erewrite List.filter_ext; [reflexivity|].
  intros r; simpl. destruct (inWindow b r) eqn:E.
  - now rewrite (inWindow_hasProp _ _ E).
  - apply andb_false_r.
Qed.

(** *** The final map *)

Lemma mapIndexed_lookup {A B C} (f : A -> nat -> B -> C) (l : list A) (bs : list B)
  (k i : nat) :
  length l = length bs ->
  mapIndexed f k l bs !! i =
    match l !! i, bs !! i with
    | Some x, Some b => Some (f x (k + i)%nat b)
    | _, _ => None
    end.
Proof.
  revert bs k i. induction l as [|x l IH]; intros [|b bs] k i Hlen;
    simpl in Hlen; try discriminate.
  - now destruct i.
  - destruct i as [|i]; simpl.
    + now rewrite Nat.add_0_r.
    + rewrite IH by lia. now rewrite Nat.add_succ_r.
Qed.

Lemma mapIndexed_length {A B C} (f : A -> nat -> B -> C) (l : list A) (bs : list B)
  (k : nat) :
  length l = length bs -> length (mapIndexed f k l bs) = length l.
Proof.
  revert bs k. induction l as [|x l IH]; intros [|b bs] k Hlen;
    simpl in *; try discriminate; auto.
Qed.

Lemma lapBoundsFrom_length cum laps : length (lapBoundsFrom cum laps) = length laps.
Proof. revert cum. induction laps as [|lap laps IH]; simpl; auto. Qed.

Lemma computeLapStats_lookup laps records i lap :
  laps !! i = Some lap ->
  exists b, lapBounds laps !! i = Some b /\
    computeLapStats laps records !! i =
      Some (lapStat (sortedRecords records) records lap i b).
Proof.
  intros Hlap. unfold computeLapStats.
  rewrite mapIndexed_lookup by (symmetry; apply lapBoundsFrom_length).
  rewrite Hlap.
  destruct (lapBounds laps !! i) as [b|] eqn:Hb; [eauto|].
  apply lookup_ge_None in Hb. apply lookup_lt_Some in Hlap.
  unfold lapBounds in Hb. rewrite lapBoundsFrom_length in Hb. lia.
Qed.



Lemma lapRecords_subset lap b records r :
  In r (lapRecords lap b (sortedRecords records) records) -> In r records.
Proof.
  unfold lapRecords.
  assert (Hd : In r (distanceMatch b (sortedRecords records)) -> In r records).
  { intros H. apply (Permutation_in _ (distanceMatch_perm b records)) in H.
    now apply filter_In in H. }
  destruct (length _); [|exact Hd].
  destruct (lap !! "start_time"%string); [|exact Hd].
  destruct (lap !! "timestamp"%string); [|exact Hd].
  intros H. now apply filter_In in H.
Qed.

Lemma lapStat_no_heart_rate records lap i b :
  (forall r, In r records -> hasHR r = false) ->
  let st := lapStat (sortedRecords records) records lap i b in
  minHR st = None /\ timeToMinHR st = None /\
  maxHR st = orElse (lap !! "max_heart_rate"%string) None /\
  avgHR st = orElse (lap !! "avg_heart_rate"%string) None.
Proof.
  intros Hno. unfold lapStat.
  assert (E : List.filter hasHR (lapRecords lap b (sortedRecords records) records) = nil).
  { destruct (List.filter hasHR _) as [|r l] eqn:E; [reflexivity|].
    assert (Hr : In r (List.filter hasHR (lapRecords lap b (sortedRecords records) records)))
      by (rewrite E; now left).
    apply filter_In in Hr. destruct Hr as [Hr Hh].
    apply lapRecords_subset in Hr. rewrite (Hno r Hr) in Hh. discriminate. }
  rewrite E. simpl. auto.
Qed.


(** C6.  The timestamp fallback is all-or-nothing.  When the distance
    match is not empty it is the lap's matched list.  When it is empty and
    the lap has a start and an end timestamp, the matched list is exactly
    the records, in input order, whose timestamp is present and lies in
    [start_time, timestamp], both ends included.  When it is empty and a
    timestamp is missing, the matched list stays empty. *)
Theorem timestamp_fallback_all_or_nothing
  (lap : gmap string number) (b : bound) (records : list (gmap string number)) :
  let matched := distanceMatch b (sortedRecords records) in
  let result := lapRecords lap b (sortedRecords records) records in
  (matched <> nil -> result = matched) /\
  (matched = nil ->
     forall s e, lap !! "start_time"%string = Some s ->
       lap !! "timestamp"%string = Some e ->
       result = List.filter (inTimeWindow s e) records /\
       forall r, In r result <->
         In r records /\
         exists t, r !! "timestamp"%string = Some t /\
                   geb t s = true /\ leb t e = true) /\
  (matched = nil ->
     lap !! "start_time"%string = None \/ lap !! "timestamp"%string = None ->
     result = nil).
Proof.
  intros matched result. subst result. unfold lapRecords.
  change (distanceMatch b (sortedRecords records)) with matched.
  split; [|split].
  - destruct matched; [congruence|reflexivity].
  - intros Hm s e Hs He. rewrite Hm, Hs, He. simpl.
    split; [reflexivity|]. intros r. rewrite filter_In. unfold inTimeWindow.
    split.
    + intros [Hr Hw]. split; [assumption|].
      destruct (r !! "timestamp"%string) as [t|]; [|discriminate].
      apply andb_true_iff in Hw. eauto.
    + intros (Hr & t & -> & H2 & H3). now rewrite H2, H3.
  - intros Hm Hts. rewrite Hm. simpl.
    destruct Hts as [-> | ->]; [reflexivity|].
    now destruct (lap !! "start_time"%string).
Qed.

(** *** Windows *)



Lemma hasHR_notNaN r : hasHR r = true -> heartRate r <> NaN.
Proof.
  unfold hasHR, heartRate. destruct (r !! "heart_rate"%string) as [h|]; [|discriminate].
  intros Hg. change (h <> NaN). eapply gtb_notNaN, Hg.
Qed.






End Reconciler.

(** ** The JSON adapter *)

Section JsonAdapter.

Import JS Stats.

Lemma setProp_lookup k k' v (o : gmap string number) :
  Json.setProp k v o !! k' =
    if decide (k = k')
    then match v with Some n => Some n | None => o !! k' end
    else o !! k'.
Proof.
  unfold Json.setProp. destruct v as [n|].
  - rewrite lookup_insert. reflexivity.
  - now destruct (decide _).
Qed.





Lemma sameValue_refl a : sameValue a a.
Proof. destruct a; simpl; auto. reflexivity. Qed.





End JsonAdapter.

(** ** The decoder *)

Section Decoder.

Import JS Fit FitProp FitStream.

Lemma advance_refl s : advance s s.
Proof. constructor; auto; lia. Qed.

Lemma advance_trans s1 s2 s3 : advance s1 s2 -> advance s2 s3 -> advance s1 s3.
Proof. intros [] []. constructor; try congruence; lia. Qed.

Lemma advancing_ret {A} (a : A) (V : A -> Prop) : V a -> advancing (ret a) V.
Proof. intros Ha s. simpl. split; [apply advance_refl | assumption]. Qed.

Lemma advancing_bind {A B} (m : M A) (k : A -> M B) (V : A -> Prop) (W : B -> Prop) :
  advancing m V -> (forall a, V a -> advancing (k a) W) -> advancing (bind m k) W.
Proof.
  intros Hm Hk s. unfold bind. specialize (Hm s).
  destruct (m s) as [a s1|e s1]; [|assumption].
  destruct Hm as [H1 Ha]. specialize (Hk a Ha s1).
  destruct (k a s1) as [b s2|e s2].
  - destruct Hk. split; [eapply advance_trans; eassumption | assumption].
  - eapply advance_trans; eassumption.
Qed.

Lemma advancing_weaken {A} (m : M A) (V W : A -> Prop) :
  advancing m V -> (forall a, V a -> W a) -> advancing m W.
Proof.
  intros Hm HVW s. specialize (Hm s). destruct (m s); [|assumption].
  destruct Hm. auto.
Qed.

Lemma advancing_get : advancing get (fun _ => True).
Proof. intros s. simpl. split; [apply advance_refl | exact I]. Qed.

Lemma advancing_throw {A} e (V : A -> Prop) : advancing (throw e) V.
Proof. intros s. apply advance_refl. Qed.

Lemma advancing_liftView {A} (o : option A) :
  advancing (liftView o) (fun a => o = Some a).
Proof.
  destruct o; intros s; simpl;
    [split; [apply advance_refl|reflexivity] | apply advance_refl].
Qed.

Lemma advancing_addOffset n : 0 <= n -> advancing (addOffset n) (fun _ => True).
Proof. intros Hn s. simpl. split; [|exact I]. constructor; simpl; auto; lia. Qed.

Lemma advancing_withLastTimestamp t :
  advancing (modify (withLastTimestamp t)) (fun _ => True).
Proof. intros s. simpl. split; [|exact I]. constructor; simpl; auto; lia. Qed.

Lemma byteAt_range bs i b : DataView.byteAt bs i = Some b -> 0 <= b < 256.
Proof.
  unfold DataView.byteAt. destruct (i <? 0); [discriminate|].
  destruct (nth_error bs (Z.to_nat i)) as [x|]; [|discriminate].
  intros [= <-]. pose proof (Byte.to_N_bounded x). lia.
Qed.

Lemma getUint8_byteAt bs i : DataView.getUint8 bs i = DataView.byteAt bs i.
Proof.
  unfold DataView.getUint8, DataView.getUint. simpl.
  destruct (DataView.byteAt bs i) as [b|]; [|reflexivity].
  simpl. f_equal. lia.
Qed.

Lemma nextUint8_eq s :
  nextUint8 s =
    match DataView.byteAt (bytes s) (offset s) with
    | Some b => Ret b (withOffset (offset s + 1) s)
    | None => Throw RangeError (withOffset (offset s + 1) s)
    end.
Proof.
  unfold nextUint8, bind, postIncOffset, get. simpl.
  rewrite getUint8_byteAt. now destruct (DataView.byteAt _ _).
Qed.

Lemma advancing_nextUint8 : advancing nextUint8 (fun b => 0 <= b < 256).
Proof.
  intros s. rewrite nextUint8_eq.
  assert (advance s (withOffset (offset s + 1) s))
    by (constructor; simpl; auto; lia).
  destruct (DataView.byteAt _ _) eqn:E; [|assumption].
  split; [assumption|]. eapply byteAt_range, E.
Qed.

Ltac adv :=
  lazymatch goal with
  | |- advancing (bind _ _) _ =>
      eapply advancing_bind; [adv | intros ? ?; adv]
  | |- advancing (ret _) _ => apply advancing_ret
  | |- advancing get _ => apply advancing_get
  | |- advancing (throw _) _ => apply advancing_throw
  | |- advancing (liftView _) _ => apply advancing_liftView
  | |- advancing nextUint8 _ => apply advancing_nextUint8
  | |- advancing (modify (withLastTimestamp _)) _ =>
      apply advancing_withLastTimestamp
  | |- advancing (addOffset _) _ => apply advancing_addOffset
  | |- _ => idtac
  end.

Lemma advancing_skipField f : fieldOk f -> advancing (skipField f) (fun _ => True).
Proof. intros Hf. unfold skipField. adv; auto. Qed.

Lemma advancing_readField f le : fieldOk f -> advancing (_readField f le) (fun _ => True).
Proof.
  intros Hf. unfold _readField.
  destruct (baseTypeInfo _) as [ti|]; [|now apply advancing_skipField].
  destruct (read ti) as [rd|]; [|now apply advancing_skipField].
  destruct (negb _); [now apply advancing_skipField|].
  adv; auto. destruct (invalid ti) as [inv|]; [destruct (strictEq _ _)|]; adv; auto.
Qed.

Lemma advancing_readFields pf le fs msg :
  Forall fieldOk fs -> advancing (readFields pf le fs msg) (fun _ => True).
Proof.
  intros Hfs. revert msg. induction Hfs as [|f fs Hf _ IH]; intros msg; simpl.
  - now apply advancing_ret.
  - eapply advancing_bind; [now apply advancing_readField|]. intros v _. apply IH.
Qed.

Lemma advancing_skipDevFields dfs :
  Forall devFieldOk dfs -> advancing (skipDevFields dfs) (fun _ => True).
Proof.
  induction 1 as [|df dfs Hdf _ IH]; simpl.
  - now apply advancing_ret.
  - eapply advancing_bind; [now apply advancing_addOffset|]. intros _ _. exact IH.
Qed.

Lemma advancing_readFieldDefs n : advancing (readFieldDefs n) (Forall fieldOk).
Proof.
  induction n as [|n IH]; simpl.
  - apply advancing_ret. constructor.
  - eapply advancing_bind; [apply advancing_nextUint8|]. intros a Ha.
    eapply advancing_bind; [apply advancing_nextUint8|]. intros b Hb.
    eapply advancing_bind; [apply advancing_nextUint8|]. intros c Hc.
    eapply advancing_bind; [apply IH|]. intros fs Hfs.
    apply advancing_ret. constructor; [|assumption].
    unfold fieldOk. simpl in *. lia.
Qed.

Lemma advancing_readDevFieldDefs n : advancing (readDevFieldDefs n) (Forall devFieldOk).
Proof.
  induction n as [|n IH]; simpl.
  - apply advancing_ret. constructor.
  - eapply advancing_bind; [apply advancing_nextUint8|]. intros a Ha.
    eapply advancing_bind; [apply advancing_nextUint8|]. intros b Hb.
    eapply advancing_bind; [apply advancing_nextUint8|]. intros c Hc.
    eapply advancing_bind; [apply IH|]. intros fs Hfs.
    apply advancing_ret. constructor; [|assumption].
    unfold devFieldOk. simpl in *. lia.
Qed.

Lemma advance_follows s s' : advance s s' -> follows s s'.
Proof.
  intros [Hb Hd Hm Hs Ho Hoff]. constructor; auto. unfold definitionsOk. now rewrite Hd.
Qed.

Lemma follows_refl s : follows s s.
Proof. apply advance_follows, advance_refl. Qed.

Lemma follows_trans s1 s2 s3 : follows s1 s2 -> follows s2 s3 -> follows s1 s3.
Proof. intros [] []. constructor; try congruence; auto; lia. Qed.

Lemma bind_case {A B} (m : M A) (k : A -> M B) (V : A -> Prop)
  (P : outcome B -> Prop) (s0 s : FitParser) :
  advance s0 s ->
  advancing m V ->
  (forall e s1, advance s0 s1 -> P (Throw e s1)) ->
  (forall a s1, V a -> advance s0 s1 -> P (k a s1)) ->
  P (bind m k s).
Proof.
  intros H0 Hm Ht Hk. unfold bind. specialize (Hm s).
  destruct (m s) as [a s1|e s1]; [destruct Hm|];
    eauto using advance_trans.
Qed.

Tactic Notation "mbind" constr(H) constr(L) "as" ident(a) ident(s1) ident(Ha) ident(Hs) :=
  lazymatch goal with
  | |- context [bind ?m ?k ?s] =>
      pattern (bind m k s); eapply (bind_case m k _ _ _ s H L);
      [ intros ? ? ?; try assumption | intros a s1 Ha Hs; cbv beta ]
  end.

Lemma _parseDataMessage_spec lt cts s :
  definitionsOk s ->
  match _parseDataMessage lt cts s with
  | Ret _ s' => follows s s' /\ definitions s' = definitions s
  | Throw _ s' => advance s s'
  end.
Proof.
  intros Hok. unfold _parseDataMessage. unfold bind at 1, get.
  destruct (definitions s !! lt) as [def|] eqn:Hdef; [|apply advance_refl].
  destruct (Hok lt def Hdef) as [Hf Hd].
  mbind (advance_refl s) (advancing_readFields
           (match FIT_FIELDS (globalMsgNum def) with Some p => p | None => fun _ => None end)
           (littleEndian def) (fields def) ∅ Hf) as msg0 s1 Hm A1.
  mbind A1 (advancing_skipDevFields (devFields def) Hd) as u s2 Hu A2.
  set (msg := match cts, msg0 !! "timestamp"%string with
              | Some ts, None => <["timestamp"%string := ts]> msg0
              | _, _ => msg0
              end).
  assert (A3 : forall t, advance s (withLastTimestamp t s2)).
  { intros t. destruct A2. constructor; simpl; auto. }
  assert (F : forall s3, advance s s3 ->
            match (match FIT_MSG_NAMES (globalMsgNum def) with
                   | Some typeName => modify (pushMessage typeName msg)
                   | None => ret tt
                   end) s3 with
            | Ret _ s' => follows s s' /\ definitions s' = definitions s
            | Throw _ s' => advance s s'
            end).
  { intros s3 A. destruct (FIT_MSG_NAMES _); simpl.
    - destruct A as [Hb Hd' Hm' Hs Ho Hoff]. split; [|assumption].
      constructor; simpl; auto. unfold definitionsOk. simpl. now rewrite Hd'.
    - split; [now apply advance_follows | now destruct A]. }
  unfold bind. destruct (msg !! "timestamp"%string) as [t|]; simpl; apply F; auto.
Qed.

Lemma _parseDefinition_spec lt hasDev s :
  match _parseDefinition lt hasDev s with
  | Ret _ s' => follows s s' /\ messages s' = messages s
  | Throw _ s' => advance s s'
  end.
Proof.
  unfold _parseDefinition.
  mbind (advance_refl s) (advancing_addOffset 1 ltac:(lia)) as u1 s1 Hu1 A1.
  mbind A1 advancing_nextUint8 as arch s2 Harch A2.
  unfold bind at 1, get.
  mbind A2 (advancing_liftView (DataView.getUint16 (bytes s2) (offset s2) (arch =? 0)))
    as gmn s3 Hgmn A3.
  mbind A3 (advancing_addOffset 2 ltac:(lia)) as u2 s4 Hu2 A4.
  mbind A4 advancing_nextUint8 as numFields s5 Hnf A5.
  mbind A5 (advancing_readFieldDefs (Z.to_nat numFields)) as fs s6 Hfs A6.
  assert (Hdev : advancing
            (if hasDev
             then bind nextUint8 (fun numDev => readDevFieldDefs (Z.to_nat numDev))
             else ret nil) (Forall devFieldOk)).
  { destruct hasDev.
    - eapply advancing_bind; [apply advancing_nextUint8|].
      intros n _. apply advancing_readDevFieldDefs.
    - apply advancing_ret. constructor. }
  mbind A6 Hdev as dfs s7 Hdfs A7.
  simpl. destruct A7 as [Hb Hd Hm Hs Ho Hoff]. split; [|assumption].
  constructor; simpl; auto.
  intros Hok lt' d. simpl. rewrite lookup_insert.
  destruct (decide (lt = lt')).
  - intros [= <-]. split; assumption.
  - rewrite Hd. apply Hok.
Qed.

Lemma _parseRecord_spec s :
  definitionsOk s ->
  match _parseRecord s with
  | Ret _ s' => follows s s' /\ offset s + 1 <= offset s'
  | Throw _ s' => messages s' = messages s
  end.
Proof.
  intros Hok. unfold _parseRecord. unfold bind at 1. rewrite nextUint8_eq.
  set (s1 := withOffset (offset s + 1) s).
  assert (A1 : advance s s1) by (constructor; simpl; auto; lia).
  assert (Hok1 : definitionsOk s1) by exact Hok.
  destruct (DataView.byteAt _ _) as [header|]; [|reflexivity].
  destruct (negb (Z.land header 128 =? 0)).
  - unfold bind at 1, get. unfold bind at 1. simpl modify.
    cbv beta iota. unfold modify.
    set (ts := compressedTimestamp (lastTimestamp s) (Z.land header 31)).
    change (lastTimestamp s1) with (lastTimestamp s). fold ts.
    set (s2 := withLastTimestamp ts s1).
    assert (A2 : advance s s2) by (destruct A1; constructor; simpl; auto).
    assert (Hok2 : definitionsOk s2) by exact Hok.
    pose proof (_parseDataMessage_spec
      (Z.land (Z.shiftr header 5) 3) (Some ts) s2 Hok2) as H.
    destruct (_parseDataMessage _ _ s2) as [u s3|e s3].
    + destruct H as [F _]. split.
      * eapply follows_trans; [apply advance_follows, A2 | exact F].
      * destruct F. simpl in *. lia.
    + destruct H. simpl in *. congruence.
  - destruct (negb (Z.land header 64 =? 0)).
    + pose proof (_parseDefinition_spec (Z.land header 15)
                    (negb (Z.land header 32 =? 0)) s1) as H.
      destruct (_parseDefinition _ _ s1) as [u s3|e s3].
      * destruct H as [F _]. split.
        -- eapply follows_trans; [apply advance_follows, A1 | exact F].
        -- destruct F. simpl in *. lia.
      * destruct H. simpl in *. congruence.
    + pose proof (_parseDataMessage_spec (Z.land header 15) None s1 Hok1) as H.
      destruct (_parseDataMessage _ _ s1) as [u s3|e s3].
      * destruct H as [F _]. split.
        -- eapply follows_trans; [apply advance_follows, A1 | exact F].
        -- destruct F. simpl in *. lia.
      * destruct H. simpl in *. congruence.
Qed.

Lemma parseLoop_total fuel dataEnd s :
  definitionsOk s ->
  dataEnd - offset s <= Z.of_nat fuel ->
  exists s1 s2,
    decodes dataEnd s s1 /\
    parseLoop fuel dataEnd s = Some s2 /\
    messages s2 = messages s1 /\
    (dataEnd <= offset s1 /\ s2 = s1 \/
     offset s1 < dataEnd /\ exists e, _parseRecord s1 = Throw e s2).
Proof.
  revert s. induction fuel as [|fuel IH]; intros s Hok Hfuel.
  - exists s, s. simpl. destruct (offset s <? dataEnd) eqn:E; [lia|].
    repeat split; [constructor|]. left. split; [lia|reflexivity].
  - simpl. destruct (offset s <? dataEnd) eqn:E.
    + pose proof (_parseRecord_spec s Hok) as Hrec.
      destruct (_parseRecord s) as [[] s'|e s'] eqn:Er.
      * destruct Hrec as [F Hoff].
        destruct (IH s' (fol_definitions _ _ F Hok) ltac:(lia))
          as (s1 & s2 & Hd & Hl & Hm & Hstop).
        exists s1, s2. repeat split; auto.
        econstructor; eauto. lia.
      * exists s, s'. repeat split; auto; [constructor|].
        right. split; [lia|eauto].
    + exists s, s. repeat split; [constructor|]. left. split; [lia|reflexivity].
Qed.

Lemma _parseHeader_ret data u s0 :
  _parseHeader (constructor data) = Ret u s0 ->
  bytes s0 = data /\ definitions s0 = ∅ /\ messages s0 = ∅ /\
  offset s0 = dataOffset s0 /\
  DataView.getUint8 data 0 = Some (dataOffset s0) /\
  DataView.getUint32 data 4 true = Some (dataSize s0).
Proof.
  unfold _parseHeader, bind, get, liftView. cbn [bytes constructor].
  destruct (DataView.getUint8 data 0) as [hs|]; [|discriminate].
  cbn [ret bytes]. destruct (DataView.getUint32 data 4 true) as [ds|]; [|discriminate].
  cbn [ret modify]. destruct (negb _); [discriminate|].
  intros [= _ <-]. simpl. repeat split.
Qed.

Lemma _parseDataMessage_undefined lt cts s :
  definitions s !! lt = None ->
  _parseDataMessage lt cts s = Throw (NoDefinition lt) s.
Proof. intros H. unfold _parseDataMessage, bind, get. now rewrite H. Qed.

Lemma _parseRecord_undefined s header lt :
  DataView.byteAt (bytes s) (offset s) = Some header ->
  dataLocalType header = Some lt ->
  definitions s !! lt = None ->
  exists s', _parseRecord s = Throw (NoDefinition lt) s' /\
             messages s' = messages s.
Proof.
  intros Hb Hlt Hdef. unfold _parseRecord. unfold bind at 1.
  rewrite nextUint8_eq, Hb. unfold dataLocalType in Hlt.
  destruct (negb (Z.land header 128 =? 0)).
  - injection Hlt as Hlt. rewrite Hlt.
    unfold bind, get, modify.
    rewrite _parseDataMessage_undefined by exact Hdef.
    eexists. split; reflexivity.
  - destruct (negb (Z.land header 64 =? 0)); [discriminate|].
    injection Hlt as Hlt. rewrite Hlt.
    rewrite _parseDataMessage_undefined by exact Hdef.
    eexists. split; reflexivity.
Qed.

(** C4.  Once the header validates, [parse] returns: it yields the messages
    of the state [s1] reached through the records that decoded, and it
    stops there either at the declared end of the payload or because the
    next record throws, which leaves the messages as they were.  A data
    record whose local type has no definition is such a throw. *)
Theorem parse_returns_decoded_prefix (data : list byte) (s0 : FitParser) :
  _parseHeader (constructor data) = Ret tt s0 ->
  let dataEnd := dataOffset s0 + dataSize s0 in
  (exists s1,
     decodes dataEnd s0 s1 /\
     parse data = Some (inr (messages s1)) /\
     (dataEnd <= offset s1 \/
      exists e s2, _parseRecord s1 = Throw e s2 /\ messages s2 = messages s1)) /\
  (forall s header lt,
     DataView.byteAt (bytes s) (offset s) = Some header ->
     dataLocalType header = Some lt ->
     definitions s !! lt = None ->
     exists s', _parseRecord s = Throw (NoDefinition lt) s' /\
                messages s' = messages s).
Proof.
  intros Hh dataEnd. split; [|apply _parseRecord_undefined].
  destruct (_parseHeader_ret _ _ _ Hh) as (_ & Hdefs & _).
  assert (Hok : definitionsOk s0).
  { intros lt d. rewrite Hdefs, lookup_empty. discriminate. }
  destruct (parseLoop_total (Z.to_nat (dataEnd - offset s0)) dataEnd s0 Hok ltac:(lia))
    as (s1 & s2 & Hd & Hl & Hm & Hstop).
  exists s1. split; [assumption|]. split.
  - unfold parse, parseFinal. rewrite Hh. fold dataEnd. rewrite Hl. now rewrite Hm.
  - destruct Hstop as [[H _]|[_ [e He]]]; [left; assumption|].
    right. exists e, s2. split; [assumption|assumption].
Qed.

Lemma Qtruncate_inject_Z z : Qtruncate (inject_Z z) = z.
Proof.
  unfold Qtruncate. destruct (Qle_bool 0 (inject_Z z));
    [apply Qfloor_Z | apply Qceiling_Z].
Qed.

Lemma ToInt32_ofZ z :
  ToInt32 (ofZ z) =
    if z mod 2 ^ 32 <? 2 ^ 31 then z mod 2 ^ 32 else z mod 2 ^ 32 - 2 ^ 32.
Proof. unfold ToInt32, ofZ. now rewrite Qtruncate_inject_Z. Qed.

Lemma land_clear5 x : Z.land x (-32) = 32 * (x / 32).
Proof.
  change (-32) with (Z.lnot (Z.ones 5)).
  rewrite <- Z.ldiff_land, Z.ldiff_ones_r by lia.
  rewrite Z.shiftl_mul_pow2, Z.shiftr_div_pow2 by lia.
  change (2 ^ 5) with 32. lia.
Qed.

Lemma land_low5 x : Z.land x 31 = x mod 32.
Proof. change 31 with (Z.ones 5). now rewrite Z.land_ones by lia. Qed.

Lemma ltb_ofZ a b : ltb (ofZ a) (ofZ b) = (a <? b).
Proof.
  unfold ltb, ofZ, Qle_bool, inject_Z. simpl.
  rewrite !Z.mul_1_r. rewrite Z.ltb_antisym. reflexivity.
Qed.

Lemma add_ofZ a b : sameValue (add (ofZ a) (ofZ b)) (ofZ (a + b)).
Proof. unfold add, ofZ, sameValue. rewrite inject_Z_plus. reflexivity. Qed.

Lemma compressedTimestamp_ofZ T O :
  0 <= T < 2 ^ 32 ->
  let T' := if T <? 2 ^ 31 then T else T - 2 ^ 32 in
  sameValue (compressedTimestamp (ofZ T) O)
    (ofZ (32 * (T' / 32) + O + (if O <? T mod 32 then 32 else 0))).
Proof.
  intros HT T'. unfold compressedTimestamp, bitand.
  assert (E1 : ToInt32 (ofZ T) = T').
  { rewrite ToInt32_ofZ, Z.mod_small by lia. reflexivity. }
  assert (E2 : ToInt32 (ofZ 0xFFFFFFE0) = -32) by reflexivity.
  assert (E3 : ToInt32 (ofZ 0x1F) = 31) by reflexivity.
  rewrite E1, E2, E3, land_clear5, land_low5, ltb_ofZ.
  assert (E4 : T' mod 32 = T mod 32).
  { subst T'. destruct (T <? 2 ^ 31); [reflexivity|].
    change (T - 2 ^ 32) with (T + (- 2 ^ 27) * 32). apply Z.mod_add. lia. }
  rewrite E4. destruct (O <? T mod 32).
  - unfold add, ofZ, sameValue. rewrite !inject_Z_plus. reflexivity.
  - unfold add, ofZ, sameValue. rewrite !inject_Z_plus.
    change (inject_Z 0) with 0%Q. lra.
Qed.

(** Below 2^31 the code computes the timestamp of the specification. *)
Lemma compressedTimestamp_below_2_31 T O :
  0 <= T < 2 ^ 31 ->
  sameValue (compressedTimestamp (ofZ T) O) (ofZ (Spec.expectedTimestamp T O)).
Proof.
  intros HT.
  pose proof (compressedTimestamp_ofZ T O ltac:(lia)) as H. cbv zeta in H.
  replace (T <? 2 ^ 31) with true in H by (symmetry; apply Z.ltb_lt; lia).
  unfold Spec.expectedTimestamp. change (Z.lnot 31) with (-32).
  rewrite land_clear5, land_low5.
  destruct (O <? T mod 32); [exact H|].
  now rewrite Z.add_0_r in H.
Qed.

(** From 2^31 on the sign bit of the 32-bit AND makes it 2^32 too small. *)
Lemma compressedTimestamp_from_2_31 T O :
  2 ^ 31 <= T < 2 ^ 32 ->
  sameValue (compressedTimestamp (ofZ T) O)
    (ofZ (Spec.expectedTimestamp T O - 2 ^ 32)).
Proof.
  intros HT.
  pose proof (compressedTimestamp_ofZ T O ltac:(lia)) as H. cbv zeta in H.
  replace (T <? 2 ^ 31) with false in H by (symmetry; apply Z.ltb_ge; lia).
  unfold Spec.expectedTimestamp. change (Z.lnot 31) with (-32).
  rewrite land_clear5, land_low5.
  assert (E : 32 * ((T - 2 ^ 32) / 32) = 32 * (T / 32) - 2 ^ 32).
  { change (T - 2 ^ 32) with (T + (- 2 ^ 27) * 32).
    rewrite Z.div_add by lia. lia. }
  rewrite E in H.
  destruct (O <? T mod 32).
  - replace (32 * (T / 32) + O + 32 - 2 ^ 32)
      with (32 * (T / 32) - 2 ^ 32 + O + 32) by lia. exact H.
  - replace (32 * (T / 32) + O - 2 ^ 32)
      with (32 * (T / 32) - 2 ^ 32 + O + 0) by lia. exact H.
Qed.

(** C7.  A field whose base type has an invalid sentinel and whose bytes
    decode to exactly that sentinel reads as [null]: the cursor moves past
    it and it puts nothing in the message, so the field loop continues
    with the message unchanged. *)
Theorem sentinel_field_is_absent
  (f : field) (le : bool) (s : FitParser) (ti : typeInfo) (rd : reader)
  (inv v : number) :
  baseTypeInfo (baseType f) = Some ti ->
  read ti = Some rd ->
  invalid ti = Some inv ->
  size f = tsize ti ->
  viewRead rd (bytes s) (offset s) le = Some v ->
  strictEq v inv = true ->
  _readField f le s = Ret None (withOffset (offset s + size f) s) /\
  (forall pf msg, storeField pf f None msg = msg) /\
  (forall pf fs msg,
     readFields pf le (f :: fs) msg s =
     readFields pf le fs msg (withOffset (offset s + size f) s)).
Proof.
  intros Hti Hrd Hinv Hsz Hv Heq.
  assert (E : _readField f le s = Ret None (withOffset (offset s + size f) s)).
  { unfold _readField. rewrite Hti, Hrd, Hinv.
    replace (size f =? tsize ti) with true by (symmetry; now apply Z.eqb_eq).
    unfold bind, get. cbn [negb]. cbv beta iota.
    rewrite Hv. simpl. now rewrite Heq. }
  split; [exact E|]. split.
  - intros pf msg. unfold storeField. now destruct (pf (num f)).
  - intros pf fs msg. simpl. unfold bind. rewrite E.
    unfold storeField. now destruct (pf (num f)).
Qed.

Lemma byteAt_skipn bs off b rest :
  0 <= off -> skipn (Z.to_nat off) bs = b :: rest ->
  DataView.byteAt bs off = Some (byteZ b).
Proof.
  intros Hoff H. unfold DataView.byteAt.
  replace (off <? 0) with false by (symmetry; apply Z.ltb_ge; lia).
  replace (Z.to_nat off) with (Z.to_nat off + 0)%nat by lia.
  now rewrite <- (nth_error_skipn (Z.to_nat off) bs 0%nat), H.
Qed.

Lemma skipn_advance (bs : list byte) off pre rest :
  0 <= off -> skipn (Z.to_nat off) bs = pre ++ rest ->
  skipn (Z.to_nat (off + Z.of_nat (length pre))) bs = rest.
Proof.
  intros Hoff H.
  replace (Z.to_nat (off + Z.of_nat (length pre)))
    with (length pre + Z.to_nat off)%nat by lia.
  rewrite <- (skipn_skipn (length pre) (Z.to_nat off) bs), H.
  rewrite skipn_app, skipn_all, Nat.sub_diag. reflexivity.
Qed.

Lemma skipn_inside (bs : list byte) off pre rest :
  0 <= off <= Z.of_nat (length bs) -> skipn (Z.to_nat off) bs = pre ++ rest ->
  off + Z.of_nat (length pre) <= Z.of_nat (length bs).
Proof.
  intros Hoff H. apply (f_equal (@length byte)) in H.
  rewrite length_skipn, length_app in H. lia.
Qed.

Lemma skipn_cons_inside (bs : list byte) off b rest :
  0 <= off -> skipn (Z.to_nat off) bs = b :: rest ->
  off + 1 <= Z.of_nat (length bs).
Proof.
  intros Hoff H. apply (f_equal (@length byte)) in H.
  rewrite length_skipn in H. simpl in H. lia.
Qed.

Lemma byteAt_inside bs off :
  0 <= off -> off + 1 <= Z.of_nat (length bs) ->
  exists b, DataView.byteAt bs off = Some b.
Proof.
  intros Hoff Hlen. unfold DataView.byteAt.
  replace (off <? 0) with false by (symmetry; apply Z.ltb_ge; lia).
  destruct (nth_error bs (Z.to_nat off)) as [x|] eqn:E; [simpl; eauto|].
  apply nth_error_None in E. lia.
Qed.

Lemma getBytes_inside bs n off :
  0 <= off -> off + Z.of_nat n <= Z.of_nat (length bs) ->
  exists l, DataView.getBytes bs off n = Some l.
Proof.
  revert off. induction n as [|n IH]; intros off Hoff Hlen; simpl; [eauto|].
  destruct (byteAt_inside bs off Hoff ltac:(lia)) as [b ->].
  destruct (IH (off + 1) ltac:(lia) ltac:(lia)) as [l ->]. eauto.
Qed.

Lemma getUint_inside n bs off le :
  0 <= off -> off + Z.of_nat n <= Z.of_nat (length bs) ->
  exists v, DataView.getUint n bs off le = Some v.
Proof.
  intros Hoff Hlen. unfold DataView.getUint.
  destruct (getBytes_inside bs n off Hoff Hlen) as [l ->]. eauto.
Qed.

Lemma viewRead_inside rd bs off le :
  0 <= off -> off + readerWidth rd <= Z.of_nat (length bs) ->
  exists v, viewRead rd bs off le = Some v.
Proof.
  intros Hoff Hlen.
  destruct rd; simpl in *;
    unfold DataView.getUint8, DataView.getInt8, DataView.getUint16,
      DataView.getInt16, DataView.getUint32, DataView.getInt32,
      DataView.getFloat32, DataView.getFloat64;
    match goal with
    | |- context [DataView.getUint ?n bs off ?e] =>
        destruct (getUint_inside n bs off e Hoff ltac:(simpl; lia)) as [v ->]
    end; simpl; eauto.
Qed.

Lemma BASE_TYPES_width t ti rd :
  BASE_TYPES t = Some ti -> read ti = Some rd -> readerWidth rd = tsize ti.
Proof.
  unfold BASE_TYPES, ty. intros H Hr.
  destruct t as [|p|p]; try discriminate H;
    repeat first
      [ discriminate H
      | injection H as <-; simpl in Hr;
        first [ discriminate Hr | injection Hr as <-; reflexivity ]
      | destruct p as [p|p|] ].
Qed.

Lemma baseTypeInfo_width t ti rd :
  baseTypeInfo t = Some ti -> read ti = Some rd -> readerWidth rd = tsize ti.
Proof.
  unfold baseTypeInfo. destruct (BASE_TYPES t) as [ti'|] eqn:E.
  - intros [= <-]. now apply BASE_TYPES_width with t.
  - apply BASE_TYPES_width.
Qed.

Lemma _readField_inside f le s :
  0 <= offset s -> offset s + size f <= Z.of_nat (length (bytes s)) ->
  exists v, _readField f le s = Ret v (withOffset (offset s + size f) s).
Proof.
  intros Hoff Hlen.
  assert (Hskip : exists v, skipField f s = Ret v (withOffset (offset s + size f) s))
    by (eexists; reflexivity).
  unfold _readField.
  destruct (baseTypeInfo (baseType f)) as [ti|] eqn:Eti; [|exact Hskip].
  destruct (read ti) as [rd|] eqn:Erd; [|exact Hskip].
  destruct (size f =? tsize ti) eqn:Esz; [|exact Hskip].
  apply Z.eqb_eq in Esz. cbn [negb].
  pose proof (baseTypeInfo_width _ _ _ Eti Erd) as Hw.
  destruct (viewRead_inside rd (bytes s) (offset s) le Hoff ltac:(lia)) as [v Hv].
  unfold bind, get. cbv beta iota. rewrite Hv. simpl.
  destruct (invalid ti) as [inv|]; [destruct (strictEq v inv)|]; eexists; reflexivity.
Qed.

Lemma sumSizes_nonneg fs : Forall fieldOk fs -> 0 <= sumSizes fs.
Proof. induction 1 as [|f fs Hf _ IH]; simpl; unfold fieldOk in *; lia. Qed.

Lemma sumDevSizes_nonneg dfs : Forall devFieldOk dfs -> 0 <= sumDevSizes dfs.
Proof. induction 1 as [|f fs Hf _ IH]; simpl; unfold devFieldOk in *; lia. Qed.

Lemma withOffset_withOffset a b s : withOffset a (withOffset b s) = withOffset a s.
Proof. reflexivity. Qed.

Lemma readFields_inside pf le fs msg s :
  Forall fieldOk fs ->
  0 <= offset s -> offset s + sumSizes fs <= Z.of_nat (length (bytes s)) ->
  exists msg', readFields pf le fs msg s =
                 Ret msg' (withOffset (offset s + sumSizes fs) s).
Proof.
  intros Hfs. revert msg s.
  induction Hfs as [|f fs Hf Hfs IH]; intros msg s Hoff Hlen; simpl in *.
  - exists msg. unfold ret. f_equal. destruct s; unfold withOffset; simpl. f_equal. lia.
  - pose proof (sumSizes_nonneg fs Hfs). unfold fieldOk in Hf.
    destruct (_readField_inside f le s Hoff ltac:(lia)) as [v Hv].
    unfold bind. rewrite Hv.
    destruct (IH (storeField pf f v msg) (withOffset (offset s + size f) s))
      as [msg' ->]; simpl; try lia.
    exists msg'. f_equal. unfold withOffset; simpl. f_equal. lia.
Qed.

Lemma skipDevFields_eq dfs s :
  skipDevFields dfs s = Ret tt (withOffset (offset s + sumDevSizes dfs) s).
Proof.
  revert s. induction dfs as [|df dfs IH]; intros s; simpl.
  - unfold ret. f_equal. destruct s; unfold withOffset; simpl. f_equal. lia.
  - unfold bind, addOffset, modify. rewrite IH. f_equal.
    unfold withOffset; simpl. f_equal. lia.
Qed.

Lemma _parseDataMessage_inside lt cts s d :
  definitions s !! lt = Some d -> definitionOk d ->
  0 <= offset s -> offset s + payloadOf d <= Z.of_nat (length (bytes s)) ->
  exists s', _parseDataMessage lt cts s = Ret tt s' /\
    offset s' = offset s + payloadOf d /\
    bytes s' = bytes s /\ definitions s' = definitions s /\
    dataSize s' = dataSize s /\ dataOffset s' = dataOffset s.
Proof.
  intros Hd [Hf Hdev] Hoff Hlen. unfold payloadOf in *.
  pose proof (sumSizes_nonneg _ Hf). pose proof (sumDevSizes_nonneg _ Hdev).
  unfold _parseDataMessage. unfold bind at 1, get. rewrite Hd.
  unfold bind at 1.
  destruct (readFields_inside
    (match FIT_FIELDS (globalMsgNum d) with Some p => p | None => fun _ => None end)
    (littleEndian d) (fields d) ∅ s Hf Hoff ltac:(lia)) as [msg0 ->].
  unfold bind at 1. rewrite skipDevFields_eq.
  set (msg := match cts, msg0 !! "timestamp"%string with
              | Some ts, None => <["timestamp"%string := ts]> msg0
              | _, _ => msg0
              end).
  unfold bind.
  destruct (msg !! "timestamp"%string) as [t|];
    destruct (FIT_MSG_NAMES (globalMsgNum d)) as [typeName|];
    simpl; eexists; (split; [reflexivity|]); simpl; repeat split; lia.
Qed.

Lemma allBelow_spec n f : allBelow n f = true ->
  forall z, 0 <= z < Z.of_nat n -> f z = true.
Proof.
  unfold allBelow. rewrite forallb_forall. intros H z Hz. apply H.
  apply in_map_iff. exists (Z.to_nat z). split; [lia|].
  apply in_seq. lia.
Qed.

Lemma byteZ_range b : 0 <= byteZ b < 256.
Proof. unfold byteZ. pose proof (Byte.to_N_bounded b). lia. Qed.

Lemma byteZ_ofZ8 z : 0 <= z < 256 -> byteZ (ofZ8 z) = z.
Proof.
  intros Hz. unfold byteZ, ofZ8.
  destruct (Byte.of_N (Z.to_N z)) as [b|] eqn:E.
  - apply Byte.to_of_N in E. simpl. lia.
  - apply Byte.of_N_None_iff in E. lia.
Qed.

Lemma header_definition lt (hasDev : bool) :
  0 <= lt < 16 ->
  let h := 0x40 + (if hasDev then 0x20 else 0) + lt in
  (Z.land h 0x80 =? 0) = true /\ (Z.land h 0x40 =? 0) = false /\
  Z.land h 0x0F = lt /\ (Z.land h 0x20 =? 0) = negb hasDev.
Proof.
  intros Hlt h. subst h.
  pose proof (allBelow_spec 16 (fun lt =>
    forallb (fun d : bool =>
      let h := 0x40 + (if d then 0x20 else 0) + lt in
      (Z.land h 0x80 =? 0) && negb (Z.land h 0x40 =? 0) &&
      (Z.land h 0x0F =? lt) && Bool.eqb (Z.land h 0x20 =? 0) (negb d))
      [true; false]) eq_refl lt Hlt) as H.
  cbv beta in H. rewrite forallb_forall in H.
  specialize (H hasDev ltac:(destruct hasDev; simpl; auto)). cbv zeta in H.
  apply andb_true_iff in H. destruct H as [H H4].
  apply andb_true_iff in H. destruct H as [H H3].
  apply andb_true_iff in H. destruct H as [H1 H2].
  apply negb_true_iff in H2. apply Z.eqb_eq in H3. apply eqb_prop in H4.
  auto.
Qed.

Lemma header_data lt :
  0 <= lt < 16 ->
  (Z.land lt 0x80 =? 0) = true /\ (Z.land lt 0x40 =? 0) = true /\
  Z.land lt 0x0F = lt.
Proof.
  intros Hlt.
  pose proof (allBelow_spec 16 (fun lt =>
      (Z.land lt 0x80 =? 0) && (Z.land lt 0x40 =? 0) && (Z.land lt 0x0F =? lt))
    eq_refl lt Hlt) as H.
  cbv beta in H.
  apply andb_true_iff in H. destruct H as [H H3].
  apply andb_true_iff in H. destruct H as [H1 H2].
  apply Z.eqb_eq in H3. auto.
Qed.

Lemma header_compressed lt timeOffset :
  0 <= lt < 4 -> 0 <= timeOffset < 32 ->
  let h := 0x80 + 32 * lt + timeOffset in
  (Z.land h 0x80 =? 0) = false /\ Z.land (Z.shiftr h 5) 0x03 = lt /\
  Z.land h 0x1F = timeOffset.
Proof.
  intros Hlt Hto h.
  pose proof (allBelow_spec 128 (fun x =>
      negb (Z.land (0x80 + x) 0x80 =? 0) &&
      (Z.land (Z.shiftr (0x80 + x) 5) 0x03 =? x / 32) &&
      (Z.land (0x80 + x) 0x1F =? x mod 32))
    eq_refl (32 * lt + timeOffset) ltac:(lia)) as H.
  cbv beta in H. replace (128 + (32 * lt + timeOffset)) with h in H by (subst h; lia).
  apply andb_true_iff in H. destruct H as [H H3].
  apply andb_true_iff in H. destruct H as [H1 H2].
  apply negb_true_iff in H1. apply Z.eqb_eq in H2, H3.
  assert (E1 : (32 * lt + timeOffset) / 32 = lt)
    by (symmetry; apply (Z.div_unique _ 32 lt timeOffset); lia).
  assert (E2 : (32 * lt + timeOffset) mod 32 = timeOffset)
    by (symmetry; apply (Z.mod_unique _ 32 lt timeOffset); lia).
  rewrite E1 in H2. rewrite E2 in H3. auto.
Qed.

Lemma nextUint8_ahead s b rest :
  0 <= offset s -> ahead s = b :: rest ->
  nextUint8 s = Ret (byteZ b) (withOffset (offset s + 1) s).
Proof.
  intros Hoff H. rewrite nextUint8_eq.
  now rewrite (byteAt_skipn _ _ _ _ Hoff H).
Qed.

Lemma ahead_advance s pre rest :
  0 <= offset s -> ahead s = pre ++ rest ->
  ahead (withOffset (offset s + Z.of_nat (length pre)) s) = rest.
Proof. intros Hoff H. unfold ahead. simpl. now apply skipn_advance. Qed.

Lemma ahead_next s b rest :
  0 <= offset s -> ahead s = b :: rest ->
  ahead (withOffset (offset s + 1) s) = rest.
Proof. intros Hoff H. apply (ahead_advance s [b] rest Hoff H). Qed.

Lemma readFieldDefs_ahead fs rest s :
  0 <= offset s -> ahead s = encodeTriples fs ++ rest ->
  readFieldDefs (length fs) s =
    Ret (map fieldOf fs) (withOffset (offset s + 3 * Z.of_nat (length fs)) s).
Proof.
  revert s. induction fs as [|[[a b] c] fs IH]; intros s Hoff H.
  - simpl. unfold ret. f_equal. destruct s; unfold withOffset; simpl. f_equal. lia.
  - cbn [length readFieldDefs]. simpl in H.
    unfold bind.
    rewrite (nextUint8_ahead s a _ Hoff H).
    pose proof (ahead_next s a _ Hoff H) as H1.
    set (s1 := withOffset (offset s + 1) s) in *.
    assert (Hoff1 : 0 <= offset s1) by (simpl; lia).
    rewrite (nextUint8_ahead s1 b _ Hoff1 H1).
    pose proof (ahead_next s1 b _ Hoff1 H1) as H2.
    set (s2 := withOffset (offset s1 + 1) s1) in *.
    assert (Hoff2 : 0 <= offset s2) by (simpl; lia).
    rewrite (nextUint8_ahead s2 c _ Hoff2 H2).
    pose proof (ahead_next s2 c _ Hoff2 H2) as H3.
    set (s3 := withOffset (offset s2 + 1) s2) in *.
    assert (Hoff3 : 0 <= offset s3) by (simpl; lia).
    rewrite (IH s3 Hoff3 H3). simpl. unfold ret, fieldOf. simpl.
    f_equal. unfold withOffset. simpl. f_equal. lia.
Qed.

Lemma readDevFieldDefs_ahead fs rest s :
  0 <= offset s -> ahead s = encodeTriples fs ++ rest ->
  readDevFieldDefs (length fs) s =
    Ret (map devFieldOf fs) (withOffset (offset s + 3 * Z.of_nat (length fs)) s).
Proof.
  revert s. induction fs as [|[[a b] c] fs IH]; intros s Hoff H.
  - simpl. unfold ret. f_equal. destruct s; unfold withOffset; simpl. f_equal. lia.
  - cbn [length readDevFieldDefs]. simpl in H.
    unfold bind.
    rewrite (nextUint8_ahead s a _ Hoff H).
    pose proof (ahead_next s a _ Hoff H) as H1.
    set (s1 := withOffset (offset s + 1) s) in *.
    assert (Hoff1 : 0 <= offset s1) by (simpl; lia).
    rewrite (nextUint8_ahead s1 b _ Hoff1 H1).
    pose proof (ahead_next s1 b _ Hoff1 H1) as H2.
    set (s2 := withOffset (offset s1 + 1) s1) in *.
    assert (Hoff2 : 0 <= offset s2) by (simpl; lia).
    rewrite (nextUint8_ahead s2 c _ Hoff2 H2).
    pose proof (ahead_next s2 c _ Hoff2 H2) as H3.
    set (s3 := withOffset (offset s2 + 1) s2) in *.
    assert (Hoff3 : 0 <= offset s3) by (simpl; lia).
    rewrite (IH s3 Hoff3 H3). simpl. unfold ret, devFieldOf. simpl.
    f_equal. unfold withOffset. simpl. f_equal. lia.
Qed.

Lemma length_encodeTriples l : length (encodeTriples l) = (3 * length l)%nat.
Proof. induction l as [|t l IH]; simpl; lia. Qed.

Lemma sumSizes_fieldOf fs : sumSizes (map fieldOf fs) = sizeSum fs.
Proof. induction fs as [|t fs IH]; simpl; [reflexivity|]. now rewrite IH. Qed.

Lemma sumDevSizes_devFieldOf fs : sumDevSizes (map devFieldOf fs) = sizeSum fs.
Proof. induction fs as [|t fs IH]; simpl; [reflexivity|]. now rewrite IH. Qed.

Lemma fieldOk_fieldOf fs : Forall fieldOk (map fieldOf fs).
Proof.
  induction fs as [|t fs IH]; simpl; constructor; auto.
  unfold fieldOk. simpl. apply byteZ_range.
Qed.

Lemma devFieldOk_devFieldOf fs : Forall devFieldOk (map devFieldOf fs).
Proof.
  induction fs as [|t fs IH]; simpl; constructor; auto.
  unfold devFieldOk. simpl. apply byteZ_range.
Qed.

Lemma _parseDefinition_ahead s lt reserved arch m0 m1 fs dev rest :
  0 <= offset s ->
  ahead s = reserved :: arch :: m0 :: m1 :: ofZ8 (Z.of_nat (length fs))
              :: encodeTriples fs ++ encodeDev dev ++ rest ->
  Z.of_nat (length fs) < 256 ->
  match dev with Some ds => Z.of_nat (length ds) < 256 | None => True end ->
  exists s' d,
    _parseDefinition lt (match dev with Some _ => true | None => false end) s
      = Ret tt s' /\
    offset s' = offset s + 5 + Z.of_nat (length (encodeTriples fs ++ encodeDev dev)) /\
    bytes s' = bytes s /\ dataSize s' = dataSize s /\
    dataOffset s' = dataOffset s /\
    definitions s' = <[lt := d]> (definitions s) /\
    definitionOk d /\ payloadOf d = payloadSize fs dev.
Proof.
  intros Hoff H Hfs Hdev. unfold _parseDefinition.
  unfold bind at 1. unfold addOffset at 1, modify.
  pose proof (ahead_next s reserved _ Hoff H) as H1.
  set (s1 := withOffset (offset s + 1) s) in *.
  assert (Hoff1 : 0 <= offset s1) by (simpl; lia).
  unfold bind at 1. rewrite (nextUint8_ahead s1 arch _ Hoff1 H1).
  pose proof (ahead_next s1 arch _ Hoff1 H1) as H2.
  set (s2 := withOffset (offset s1 + 1) s1) in *.
  assert (Hoff2 : 0 <= offset s2) by (simpl; lia).
  unfold bind at 1, get. unfold bind at 1.
  assert (Hin : offset s2 + Z.of_nat 2 <= Z.of_nat (length (bytes s2))).
  { pose proof (skipn_cons_inside _ _ _ _ Hoff2 H2).
    apply (skipn_inside (bytes s2) (offset s2) [m0; m1]
             (ofZ8 (Z.of_nat (length fs)) :: encodeTriples fs ++ encodeDev dev ++ rest));
      [lia | exact H2]. }
  destruct (getUint_inside 2 (bytes s2) (offset s2) (byteZ arch =? 0) Hoff2 Hin)
    as [gmn Hgmn].
  unfold DataView.getUint16. rewrite Hgmn. cbn [liftView ret].
  unfold bind at 1. unfold addOffset at 1, modify.
  pose proof (ahead_advance s2 [m0; m1] _ Hoff2 H2) as H3.
  change (Z.of_nat (length [m0; m1])) with 2 in H3.
  set (s3 := withOffset (offset s2 + 2) s2) in *.
  assert (Hoff3 : 0 <= offset s3) by (simpl; lia).
  unfold bind at 1. rewrite (nextUint8_ahead s3 _ _ Hoff3 H3).
  pose proof (ahead_next s3 _ _ Hoff3 H3) as H4.
  set (s4 := withOffset (offset s3 + 1) s3) in *.
  assert (Hoff4 : 0 <= offset s4) by (simpl; lia).
  rewrite (byteZ_ofZ8 (Z.of_nat (length fs)) ltac:(lia)), Nat2Z.id.
  unfold bind at 1. rewrite (readFieldDefs_ahead fs _ s4 Hoff4 H4).
  pose proof (ahead_advance s4 (encodeTriples fs) _ Hoff4 H4) as H5.
  rewrite length_encodeTriples in H5.
  replace (Z.of_nat (3 * length fs)) with (3 * Z.of_nat (length fs)) in H5 by lia.
  set (s5 := withOffset (offset s4 + 3 * Z.of_nat (length fs)) s4) in *.
  assert (Hoff5 : 0 <= offset s5) by (simpl; lia).
  unfold bind at 1.
  destruct dev as [ds|].
  - simpl in H5. unfold bind at 1. rewrite (nextUint8_ahead s5 _ _ Hoff5 H5).
    pose proof (ahead_next s5 _ _ Hoff5 H5) as H6.
    set (s6 := withOffset (offset s5 + 1) s5) in *.
    assert (Hoff6 : 0 <= offset s6) by (simpl; lia).
    rewrite (byteZ_ofZ8 (Z.of_nat (length ds)) ltac:(lia)), Nat2Z.id.
    rewrite (readDevFieldDefs_ahead ds _ s6 Hoff6 H6).
    eexists. eexists. split; [reflexivity|].
    simpl. rewrite length_app, length_encodeTriples. simpl.
    rewrite length_encodeTriples.
    split; [lia|]. repeat split.
    + apply fieldOk_fieldOf.
    + apply devFieldOk_devFieldOf.
    + unfold payloadOf, payloadSize. simpl.
      now rewrite sumSizes_fieldOf, sumDevSizes_devFieldOf.
  - eexists. eexists. split; [reflexivity|].
    simpl. rewrite length_app, length_encodeTriples. simpl.
    split; [lia|]. repeat split.
    + apply fieldOk_fieldOf.
    + constructor.
    + unfold payloadOf, payloadSize. simpl. now rewrite sumSizes_fieldOf.
Qed.

(** One record of a well-formed stream moves the cursor by its encoded
    length and keeps the registry in step with the stream. *)
Lemma _parseRecord_wellFormed sizes r recs rest s :
  0 <= offset s ->
  ahead s = encode r ++ rest ->
  wellFormed sizes (r :: recs) ->
  registered sizes s ->
  exists s' sizes',
    _parseRecord s = Ret tt s' /\
    offset s' = offset s + Z.of_nat (length (encode r)) /\
    bytes s' = bytes s /\ dataSize s' = dataSize s /\
    dataOffset s' = dataOffset s /\
    wellFormed sizes' recs /\ registered sizes' s'.
Proof.
  intros Hoff H Hwf Hreg. unfold _parseRecord. unfold bind at 1.
  destruct r as [lt reserved arch m0 m1 fs dev | lt payload | lt timeOffset payload].
  - (* definition *)
    destruct Hwf as (Hlt & Hfs & Hdev & Hwf). cbn [encode app] in H.
    set (hasDev := match dev with Some _ => true | None => false end).
    assert (Eh : 64 + match dev with Some _ => 32 | None => 0 end + lt
                 = 64 + (if hasDev then 32 else 0) + lt) by now destruct dev.
    rewrite Eh in H.
    destruct (header_definition lt hasDev Hlt) as (B1 & B2 & B3 & B4).
    set (h := 64 + (if hasDev then 32 else 0) + lt) in *.
    assert (Hh : 0 <= h < 256) by (subst h; destruct hasDev; lia).
    rewrite (nextUint8_ahead s _ _ Hoff H), (byteZ_ofZ8 h Hh).
    rewrite B1, B2, B3, B4. cbn [negb]. rewrite negb_involutive.
    pose proof (ahead_next s _ _ Hoff H) as H1.
    set (s1 := withOffset (offset s + 1) s) in *.
    assert (Hoff1 : 0 <= offset s1) by (simpl; lia).
    rewrite <- app_assoc in H1.
    destruct (_parseDefinition_ahead s1 lt reserved arch m0 m1 fs dev rest
                Hoff1 H1 Hfs Hdev)
      as (s' & d & Hrun & Ho & Hb & Hds & Hdo & Hdefs & Hok & Hpay).
    fold hasDev in Hrun.
    exists s', (<[lt := payloadSize fs dev]> sizes).
    split; [exact Hrun|]. split.
    { rewrite Ho. cbn [encode length]. simpl offset. lia. }
    repeat split; auto.
    intros lt' n. rewrite Hdefs, !lookup_insert.
    destruct (decide (lt = lt')).
    + intros [= <-]. eauto.
    + apply Hreg.
  - (* plain data *)
    destruct Hwf as (Hlt & Hsz & Hwf). cbn [encode app] in H.
    destruct (header_data lt Hlt) as (B1 & B2 & B3).
    assert (Hh : 0 <= lt < 256) by lia.
    rewrite (nextUint8_ahead s _ _ Hoff H), (byteZ_ofZ8 lt Hh).
    rewrite B1, B2, B3. cbn [negb].
    pose proof (ahead_next s _ _ Hoff H) as H1.
    pose proof (skipn_cons_inside _ _ _ _ Hoff H) as Hin.
    set (s1 := withOffset (offset s + 1) s) in *.
    assert (Hoff1 : 0 <= offset s1) by (simpl; lia).
    destruct (Hreg lt _ Hsz) as (d & Hd & Hok & Hpay).
    assert (Hin1 : offset s1 + payloadOf d <= Z.of_nat (length (bytes s1))).
    { rewrite Hpay. apply (skipn_inside (bytes s1) (offset s1) payload rest);
        [simpl; simpl in Hin; lia | exact H1]. }
    destruct (_parseDataMessage_inside lt None s1 d Hd Hok Hoff1 Hin1)
      as (s' & Hrun & Ho & Hb & Hdefs & Hds & Hdo).
    exists s', sizes. split; [exact Hrun|]. split.
    { rewrite Ho, Hpay. cbn [encode length]. simpl offset. lia. }
    repeat split; auto.
    intros lt' n Hn. rewrite Hdefs. now apply Hreg.
  - (* compressed timestamp *)
    destruct Hwf as (Hlt & Hto & Hsz & Hwf). cbn [encode app] in H.
    destruct (header_compressed lt timeOffset Hlt Hto) as (B1 & B2 & B3).
    set (h := 128 + 32 * lt + timeOffset) in *.
    assert (Hh : 0 <= h < 256) by (subst h; lia).
    rewrite (nextUint8_ahead s _ _ Hoff H), (byteZ_ofZ8 h Hh).
    rewrite B1, B2, B3. cbn [negb].
    pose proof (ahead_next s _ _ Hoff H) as H1.
    pose proof (skipn_cons_inside _ _ _ _ Hoff H) as Hin.
    set (s1 := withOffset (offset s + 1) s) in *.
    unfold bind at 1, get. unfold bind at 1, modify.
    set (ts := compressedTimestamp (lastTimestamp s1) timeOffset).
    set (s2 := withLastTimestamp ts s1).
    assert (Hoff2 : 0 <= offset s2) by (simpl; lia).
    destruct (Hreg lt _ Hsz) as (d & Hd & Hok & Hpay).
    assert (Hin2 : offset s2 + payloadOf d <= Z.of_nat (length (bytes s2))).
    { rewrite Hpay. apply (skipn_inside (bytes s1) (offset s1) payload rest);
        [simpl; simpl in Hin; lia | exact H1]. }
    destruct (_parseDataMessage_inside lt (Some ts) s2 d Hd Hok Hoff2 Hin2)
      as (s' & Hrun & Ho & Hb & Hdefs & Hds & Hdo).
    exists s', sizes. split; [exact Hrun|]. split.
    { rewrite Ho, Hpay. cbn [encode length]. simpl offset. lia. }
    repeat split; auto.
    intros lt' n Hn. rewrite Hdefs. now apply Hreg.
Qed.

Lemma encode_nonempty r : (1 <= length (encode r))%nat.
Proof. destruct r; simpl; lia. Qed.

Lemma parseLoop_wellFormed recs : forall sizes s rest fuel,
  0 <= offset s ->
  ahead s = body recs ++ rest ->
  wellFormed sizes recs ->
  registered sizes s ->
  (length (body recs) <= fuel)%nat ->
  exists s',
    parseLoop fuel (offset s + Z.of_nat (length (body recs))) s = Some s' /\
    decodes (offset s + Z.of_nat (length (body recs))) s s' /\
    offset s' = offset s + Z.of_nat (length (body recs)) /\
    bytes s' = bytes s /\ dataSize s' = dataSize s /\
    dataOffset s' = dataOffset s.
Proof.
  induction recs as [|r recs IH]; intros sizes s rest fuel Hoff H Hwf Hreg Hfuel.
  - exists s. simpl. rewrite Z.add_0_r.
    split; [destruct fuel; simpl; now rewrite Z.ltb_irrefl|].
    split; [constructor|]. repeat split; lia.
  - unfold body in *. cbn [flat_map] in *. rewrite length_app in *.
    rewrite <- app_assoc in H.
    pose proof (encode_nonempty r) as Hne.
    destruct fuel as [|fuel]; [lia|]. cbn [parseLoop].
    replace (offset s <? _) with true by (symmetry; apply Z.ltb_lt; lia).
    destruct (_parseRecord_wellFormed sizes r recs _ s Hoff H Hwf Hreg)
      as (s1 & sizes' & Hrun & Ho & Hb & Hds & Hdo & Hwf' & Hreg').
    rewrite Hrun.
    assert (H1 : ahead s1 = flat_map encode recs ++ rest).
    { unfold ahead. rewrite Hb, Ho. now apply skipn_advance. }
    destruct (IH sizes' s1 rest fuel ltac:(lia) H1 Hwf' Hreg' ltac:(lia))
      as (s' & Hloop & Hdec & Ho' & Hb' & Hds' & Hdo').
    assert (Eend : offset s1 + Z.of_nat (length (flat_map encode recs))
                   = offset s + Z.of_nat (length (encode r) + length (flat_map encode recs)))
      by lia.
    rewrite Eend in Hloop, Hdec.
    exists s'. split; [exact Hloop|]. split.
    + eapply decodes_record; [lia | exact Hrun | exact Hdec].
    + repeat split; try congruence; lia.
Qed.

Lemma leValue_le32 v :
  0 <= v < 2 ^ 32 -> DataView.leValue (map byteZ (le32 v)) = v.
Proof.
  intros Hv. unfold le32. cbn [map DataView.leValue].
  rewrite !byteZ_ofZ8 by (apply Z.mod_pos_bound; lia).
  change (256 ^ 0) with 1. change (256 ^ 1) with 256.
  change (256 ^ 2) with 65536. change (256 ^ 3) with 16777216.
  change (2 ^ 32) with 4294967296 in Hv.
  Z.div_mod_to_equations. lia.
Qed.

Lemma _parseHeader_file protocol p0 p1 extra recs trailer :
  12 + Z.of_nat (length extra) < 256 ->
  Z.of_nat (length (body recs)) < 2 ^ 32 ->
  let data := file protocol p0 p1 extra recs trailer in
  exists s0,
    _parseHeader (constructor data) = Ret tt s0 /\
    bytes s0 = data /\ definitions s0 = ∅ /\
    offset s0 = 12 + Z.of_nat (length extra) /\
    dataOffset s0 = 12 + Z.of_nat (length extra) /\
    dataSize s0 = Z.of_nat (length (body recs)) /\
    DataView.getUint8 data 0 = Some (dataOffset s0) /\
    DataView.getUint32 data 4 true = Some (dataSize s0) /\
    ahead s0 = body recs ++ trailer.
Proof.
  intros Hextra Hbody data.
  set (hs := 12 + Z.of_nat (length extra)) in *.
  set (n := Z.of_nat (length (body recs))) in *.
  assert (E0 : DataView.getUint8 data 0 = Some hs).
  { rewrite getUint8_byteAt. unfold data, file. cbn [app].
    unfold DataView.byteAt. simpl. f_equal. apply byteZ_ofZ8. lia. }
  assert (E4 : DataView.getUint32 data 4 true = Some n).
  { unfold data, file, le32. cbn [map app].
    unfold DataView.getUint32, DataView.getUint, DataView.getBytes,
      DataView.byteAt. simpl nth_error. cbn [Z.ltb Z.compare Z.add Pos.add Pos.succ option_map].
    f_equal. apply (leValue_le32 n). lia. }
  unfold _parseHeader, bind, get, liftView. cbn [bytes constructor].
  rewrite E0, E4. cbn [ret modify].
  assert (Esig : negb (String.eqb
     (fromCharCode (map (fun i => default 0 (DataView.byteAt data i)) [8; 9; 10; 11]))
     ".FIT") = false).
  { unfold data, file, le32. cbn [map app list_byte_of_string].
    unfold DataView.byteAt. simpl. reflexivity. }
  cbn [bytes withDataSize constructor]. rewrite Esig.
  eexists. split; [reflexivity|]. simpl.
  repeat split; auto.
  unfold ahead. simpl. unfold data, file.
  match goal with
  | |- skipn _ (?hdr ++ _) = _ =>
      assert (Hlen : length hdr = Z.to_nat hs)
        by (simpl; rewrite ?length_app; simpl; lia);
      rewrite skipn_app, <- Hlen, skipn_all, Nat.sub_diag
  end.
  reflexivity.
Qed.

(** C2.  Decoding a well-formed stream ends with the cursor at
    headerLength + payloadLength, the two values read from the header: the
    pass starts at headerLength, every record decodes, and every record,
    with its skipped, unrecognized and developer fields, moves the cursor
    by exactly its encoded length ([_parseRecord_wellFormed]). *)
Theorem wellformed_stream_consumed_exactly
  (protocol profile0 profile1 : byte) (extra : list byte)
  (recs : list record) (trailer : list byte) :
  12 + Z.of_nat (length extra) < 256 ->
  Z.of_nat (length (body recs)) < 2 ^ 32 ->
  wellFormed ∅ recs ->
  let data := file protocol profile0 profile1 extra recs trailer in
  exists s0 s headerLength payloadLength,
    DataView.getUint8 data 0 = Some headerLength /\
    DataView.getUint32 data 4 true = Some payloadLength /\
    headerLength = 12 + Z.of_nat (length extra) /\
    payloadLength = Z.of_nat (length (body recs)) /\
    _parseHeader (constructor data) = Ret tt s0 /\
    offset s0 = headerLength /\
    decodes (headerLength + payloadLength) s0 s /\
    parseFinal data = Some (inr s) /\
    offset s = headerLength + payloadLength.
Proof.
  intros Hextra Hbody Hwf data.
  destruct (_parseHeader_file protocol profile0 profile1 extra recs trailer
              Hextra Hbody)
    as (s0 & Hh & Hb & Hdefs & Ho & Hdo & Hds & E0 & E4 & Ha).
  fold data in Hh, Hb, E0, E4.
  assert (Hreg : registered ∅ s0).
  { intros lt n. rewrite lookup_empty. discriminate. }
  destruct (parseLoop_wellFormed recs ∅ s0 trailer
              (length (body recs)) ltac:(lia) Ha Hwf Hreg ltac:(lia))
    as (s & Hloop & Hdec & Ho' & _).
  exists s0, s, (dataOffset s0), (dataSize s0).
  split; [exact E0|]. split; [exact E4|]. split; [exact Hdo|].
  split; [exact Hds|]. split; [exact Hh|]. split; [lia|].
  split; [|split].
  - replace (dataOffset s0 + dataSize s0)
      with (offset s0 + Z.of_nat (length (body recs))) by lia.
    exact Hdec.
  - unfold parseFinal. fold data. rewrite Hh. cbv zeta.
    replace (Z.to_nat (dataOffset s0 + dataSize s0 - offset s0))
      with (length (body recs)) by lia.
    replace (dataOffset s0 + dataSize s0)
      with (offset s0 + Z.of_nat (length (body recs))) by lia.
    now rewrite Hloop.
  - lia.
Qed.

Lemma wellformed_stream_consumed_exactly_witness :
  exists s,
    parseFinal StreamSample.data = Some (inr s) /\ offset s = 14 + 41.
Proof.
  destruct (wellformed_stream_consumed_exactly
              (StreamSample.b 0x10) (StreamSample.b 0) (StreamSample.b 0)
              [StreamSample.b 0; StreamSample.b 0] StreamSample.recs
              [StreamSample.b 0; StreamSample.b 0])
    as (s0 & s & h & p & _ & _ & Hh & Hp & _ & _ & _ & Hs & Ho).
  - simpl. lia.
  - vm_compute. reflexivity.
  - vm_compute. repeat split; discriminate.
  - exists s. split; [exact Hs|]. rewrite Ho, Hh, Hp. reflexivity.
Defined.

Lemma parse_returns_decoded_prefix_witness :
  exists s0,
    _parseHeader (constructor StreamSample.undefinedType) = Ret tt s0 /\
    StreamSample.recordHeartRates (parse StreamSample.undefinedType)
      = [Some (ofZ 120)] /\
    exists s1,
      decodes (dataOffset s0 + dataSize s0) s0 s1 /\
      parse StreamSample.undefinedType = Some (inr (messages s1)) /\
      (dataOffset s0 + dataSize s0 <= offset s1 \/
       exists e s2, _parseRecord s1 = Throw e s2 /\ messages s2 = messages s1).
Proof.
  eexists.
  split; [vm_compute; reflexivity|].
  split; [vm_compute; reflexivity|].
  refine (proj1 (parse_returns_decoded_prefix StreamSample.undefinedType _ _)).
  vm_compute. reflexivity.
Defined.

Lemma sentinel_field_is_absent_witness :
  let s := constructor [StreamSample.b 0xFF] in
  viewRead getUint8 (bytes s) (offset s) true = Some (ofZ 0xFF) /\
  _readField StreamSample.heartRateField true s = Ret None (withOffset 1 s) /\
  StreamSample.recordHeartRates (parse StreamSample.sentinelHeartRate) = [None] /\
  StreamSample.recordTimestamps (parse StreamSample.sentinelHeartRate)
    = [Some (ofZ 100)].
Proof.
  intros s. split; [reflexivity|]. split.
  - refine (proj1 (sentinel_field_is_absent StreamSample.heartRateField true s
                     StreamSample.uint8Info getUint8 (ofZ 0xFF) (ofZ 0xFF)
                     _ _ _ _ _ _)); reflexivity.
  - split; vm_compute; reflexivity.
Defined.

(** C3.  With a last full timestamp of 0x80000005 (low bits 5) and a
    record offset of 3, the specification's value is
    0x80000000 + 3 + 32 = 2147483683; the code computes -2147483613, which
    is 2^32 less, as the 32-bit AND is signed.  A stream carrying that
    timestamp decodes to a record with the negative timestamp. *)
Theorem compressed_timestamp_negative_from_2_31 :
  compressedTimestamp (ofZ 0x80000005) 3 = ofZ (-2147483613) /\
  Spec.expectedTimestamp 0x80000005 3 = 2147483683 /\
  StreamSample.recordTimestamps (parse StreamSample.year2058)
    = [Some (ofZ 0x80000005); Some (ofZ (-2147483613))].
Proof.
  split; [vm_compute; reflexivity|]. split; [reflexivity|].
  vm_compute. reflexivity.
Qed.

End Decoder.

(** ** The ZIP extractor *)

Section Archive.

Import Zip ZipSpec.

Lemma walkDirectory_entry inflateRaw zipBytes n offset e :
  entryAt zipBytes offset = Some e ->
  walkDirectory inflateRaw zipBytes (S n) offset =
    if isFitName (name e)
    then extractEntry inflateRaw zipBytes (method e) (compSize e) (localOffset e)
    else walkDirectory inflateRaw zipBytes n (nextEntry offset e).
Proof.
  unfold entryAt. simpl.
  destruct (DataView.getUint32 zipBytes offset true) as [sig|]; [|discriminate].
  destruct (DataView.getUint16 zipBytes (offset + 10) true) as [m|]; [|discriminate].
  destruct (DataView.getUint32 zipBytes (offset + 20) true) as [cs|]; [|discriminate].
  destruct (DataView.getUint16 zipBytes (offset + 28) true) as [nl|]; [|discriminate].
  destruct (DataView.getUint16 zipBytes (offset + 30) true) as [el|]; [|discriminate].
  destruct (DataView.getUint16 zipBytes (offset + 32) true) as [cl|]; [|discriminate].
  destruct (DataView.getUint32 zipBytes (offset + 42) true) as [lo|]; [|discriminate].
  cbn [view]. destruct (sig =? 33639248); [|discriminate].
  intros [= <-]. reflexivity.
Qed.

Lemma walkDirectory_first_match inflateRaw zipBytes from k offset e n :
  precedes zipBytes from k offset ->
  entryAt zipBytes offset = Some e ->
  isFitName (name e) = true ->
  (k < n)%nat ->
  walkDirectory inflateRaw zipBytes n from =
    extractEntry inflateRaw zipBytes (method e) (compSize e) (localOffset e).
Proof.
  intros Hp. revert n.
  induction Hp as [offset|offset e0 k offset' He0 Hn0 _ IH]; intros n He Hfit Hk.
  - destruct n as [|n]; [lia|].
    now rewrite (walkDirectory_entry _ _ _ _ _ He), Hfit.
  - destruct n as [|n]; [lia|].
    rewrite (walkDirectory_entry _ _ _ _ _ He0), Hn0.
    apply IH; [assumption|assumption|lia].
Qed.

Lemma extractEntry_unsupported inflateRaw zipBytes m cs lo m' :
  extractEntry inflateRaw zipBytes m cs lo = inl (Unsupported m') -> m' = m.
Proof.
  unfold extractEntry.
  destruct (DataView.getUint16 zipBytes (lo + 26) true) as [a|]; [|discriminate].
  destruct (DataView.getUint16 zipBytes (lo + 28) true) as [b|]; [|discriminate].
  cbn [view]. destruct (m =? 0); [discriminate|].
  destruct (m =? 8); [destruct (inflateRaw _); discriminate|].
  now intros [= ->].
Qed.

Lemma extractEntry_stored inflateRaw zipBytes cs lo nl el :
  DataView.getUint16 zipBytes (lo + 26) true = Some nl ->
  DataView.getUint16 zipBytes (lo + 28) true = Some el ->
  extractEntry inflateRaw zipBytes 0 cs lo =
    inr (DataView.slice zipBytes (lo + 30 + nl + el) (lo + 30 + nl + el + cs)).
Proof. intros H1 H2. unfold extractEntry. now rewrite H1, H2. Qed.

(** C9.  When the first [k] directory entries have other names and the
    next one ends in '.fit' up to case, the walk returns the extraction of
    that entry whatever follows it: the result is the same as with [k+1]
    entries declared, an unsupported-method error can only name this
    entry's method, and a stored entry yields its bytes.  'ACTIVITY.FIT'
    matches as 'activity.fit' does. *)
Theorem first_fit_entry_is_extracted
  (inflateRaw : list byte -> option (list byte)) (zipBytes : list byte)
  (cdOffset : Z) (cdEntries k : nat) (offset : Z) (e : cdEntry) :
  precedes zipBytes cdOffset k offset ->
  entryAt zipBytes offset = Some e ->
  isFitName (name e) = true ->
  (k < cdEntries)%nat ->
  let result := walkDirectory inflateRaw zipBytes cdEntries cdOffset in
  result = extractEntry inflateRaw zipBytes (method e) (compSize e) (localOffset e) /\
  result = walkDirectory inflateRaw zipBytes (S k) cdOffset /\
  (forall m, result = inl (Unsupported m) -> m = method e) /\
  (forall nl el,
     method e = 0 ->
     DataView.getUint16 zipBytes (localOffset e + 26) true = Some nl ->
     DataView.getUint16 zipBytes (localOffset e + 28) true = Some el ->
     result = inr (DataView.slice zipBytes (localOffset e + 30 + nl + el)
                     (localOffset e + 30 + nl + el + compSize e))) /\
  isFitName "ACTIVITY.FIT" = true /\ isFitName "activity.fit" = true.
Proof.
  intros Hp He Hfit Hk result.
  assert (E : result =
    extractEntry inflateRaw zipBytes (method e) (compSize e) (localOffset e))
    by (eapply walkDirectory_first_match; eassumption).
  split; [exact E|]. split.
  - rewrite E. symmetry. eapply walkDirectory_first_match; eauto.
  - split; [|split; [|split; reflexivity]].
    + intros m Hm. rewrite E in Hm. eapply extractEntry_unsupported, Hm.
    + intros nl el Hm H1 H2. rewrite E, Hm. now apply extractEntry_stored.
Qed.

Lemma extractFitFromZip_walk inflateRaw zipBytes eocdOffset cdOffset cdEntries :
  let len := Z.of_nat (length zipBytes) in
  let lo := Z.max 0 (len - 65557) in
  scanEocd zipBytes lo (Z.to_nat (len - 22 - lo + 1)) = inr eocdOffset ->
  eocdOffset <> -1 ->
  DataView.getUint32 zipBytes (eocdOffset + 16) true = Some cdOffset ->
  DataView.getUint16 zipBytes (eocdOffset + 10) true = Some cdEntries ->
  extractFitFromZip inflateRaw zipBytes =
    walkDirectory inflateRaw zipBytes (Z.to_nat cdEntries) cdOffset.
Proof.
  intros len lo Hscan Hne H1 H2. unfold extractFitFromZip.
  fold len. fold lo. rewrite Hscan.
  destruct (eocdOffset =? -1) eqn:E; [apply Z.eqb_eq in E; contradiction|].
  now rewrite H1, H2.
Qed.

Lemma first_fit_entry_is_extracted_witness :
  let zipBytes := ZipSample.archive in
  precedes zipBytes 118 1 174 /\
  (exists e, entryAt zipBytes 174 = Some e /\ name e = "RUN.FIT"%string /\
     walkDirectory ZipSample.noInflate zipBytes 3 118 =
       extractEntry ZipSample.noInflate zipBytes (method e) (compSize e) (localOffset e)) /\
  extractFitFromZip ZipSample.noInflate zipBytes = inr (ZipSample.toBytes [1; 2; 3]).
Proof.
  intros zipBytes.
  assert (Hp : precedes zipBytes 118 1 174).
  { eapply precedes_entry with (e := {| method := 0; compSize := 2; nameLen := 10;
      extraLen := 0; commentLen := 0; localOffset := 0; name := "README.TXT" |}).
    - vm_compute. reflexivity.
    - vm_compute. reflexivity.
    - apply precedes_none. }
  split; [exact Hp|]. split.
  - eexists. split; [vm_compute; reflexivity|]. split; [reflexivity|].
    refine (proj1 (first_fit_entry_is_extracted ZipSample.noInflate zipBytes
                     118 3 1 174 _ Hp _ _ _)).
    + vm_compute. reflexivity.
    + vm_compute. reflexivity.
    + lia.
  - vm_compute. reflexivity.
Defined.

End Archive.

(** ** The reconciler: windows and heart rates *)

Section Windows.

Import JS Stats StatsProp.

Lemma lapBoundsFrom_step c lap rest i :
  lapBoundsFrom c (lap :: rest) !! S i =
  lapBoundsFrom (add c (orZero (lap !! "total_distance"%string))) rest !! i.
Proof. reflexivity. Qed.

Lemma lapBoundsFrom_end laps : forall c i lap b,
  laps !! i = Some lap -> lapBoundsFrom c laps !! i = Some b ->
  end_ b = add (start b) (orZero (lap !! "total_distance"%string)).
Proof.
  induction laps as [|l rest IH]; intros c i lap b Hl Hb.
  - destruct i; discriminate.
  - destruct i as [|i].
    + simpl in Hl, Hb. injection Hl as <-. injection Hb as <-. reflexivity.
    + simpl in Hl. rewrite lapBoundsFrom_step in Hb. eapply IH; eauto.
Qed.

Lemma lapBoundsFrom_next laps : forall c i b b',
  lapBoundsFrom c laps !! i = Some b ->
  lapBoundsFrom c laps !! S i = Some b' ->
  start b' = end_ b.
Proof.
  induction laps as [|l rest IH]; intros c i b b' Hb Hb'.
  - destruct i; discriminate.
  - destruct i as [|i].
    + simpl in Hb. injection Hb as <-.
      rewrite lapBoundsFrom_step in Hb'.
      destruct rest as [|l2 rest]; [discriminate|].
      simpl in Hb'. injection Hb' as <-. reflexivity.
    + rewrite lapBoundsFrom_step in Hb, Hb'. eapply IH; eauto.
Qed.

(** X1. The distance windows of the laps tile the distance axis: the
    first window starts at 0, every window ends at its start plus the lap's
    declared distance (0 when absent), and every later window starts where
    the one before it ends. *)
Theorem lap_windows_tile (laps : list (gmap string number)) :
  (forall b, lapBounds laps !! 0%nat = Some b -> start b = ofZ 0) /\
  (forall i lap b, laps !! i = Some lap -> lapBounds laps !! i = Some b ->
     end_ b = add (start b) (orZero (lap !! "total_distance"%string))) /\
  (forall i b b', lapBounds laps !! i = Some b ->
     lapBounds laps !! S i = Some b' -> start b' = end_ b).
Proof.
  split; [|split].
  - intros b Hb. destruct laps; [discriminate|].
    simpl in Hb. injection Hb as <-. reflexivity.
  - intros i lap b. apply lapBoundsFrom_end.
  - intros i b b'. apply lapBoundsFrom_next.
Qed.




End Windows.

Section HeartRates.

Import JS Stats StatsProp.

Lemma max2_either a b : a <> NaN -> b <> NaN -> max2 a b = a \/ max2 a b = b.
Proof.
  intros Ha Hb. unfold max2.
  destruct a, b; try congruence; destruct (ltb _ _); auto.
Qed.

Lemma max2_leb a b :
  a <> NaN -> b <> NaN -> leb a (max2 a b) = true /\ leb b (max2 a b) = true.
Proof.
  intros Ha Hb.
  assert (E : max2 a b = if ltb a b then b else a)
    by (unfold max2; destruct a, b; congruence).
  rewrite E. destruct (ltb a b) eqn:L.
  - split; [now apply ltb_leb | now apply leb_refl].
  - split; [now apply leb_refl | now apply leb_total].
Qed.

Lemma max2_notNaN a b : a <> NaN -> b <> NaN -> max2 a b <> NaN.
Proof. intros Ha Hb. destruct (max2_either a b Ha Hb) as [-> | ->]; assumption. Qed.

Lemma fold_max2 (l : list number) (acc : number) :
  acc <> NaN -> Forall (fun x => x <> NaN) l ->
  let m := fold_left max2 l acc in
  m <> NaN /\ (m = acc \/ In m l) /\ leb acc m = true /\
  Forall (fun x => leb x m = true) l.
Proof.
  revert acc. induction l as [|x l IH]; simpl; intros acc Hacc Hl.
  - repeat split; auto. now apply leb_refl.
  - inversion Hl as [|? ? Hx Hl']; subst.
    destruct (IH (max2 acc x) (max2_notNaN _ _ Hacc Hx) Hl') as (Hm & Hin & Hle & Hall).
    destruct (max2_leb acc x Hacc Hx) as [L1 L2].
    repeat split; auto.
    + destruct Hin as [E|Hin]; [|auto].
      rewrite E. destruct (max2_either acc x Hacc Hx) as [-> | ->]; auto.
    + eapply leb_trans; eassumption.
    + constructor; [eapply leb_trans; eassumption | assumption].
Qed.

(** [Math.max] of a non-empty list without NaN is one of its elements and
    an upper bound of all of them. *)
Lemma Math_max_attained (l : list number) :
  l <> nil -> Forall (fun x => x <> NaN) l ->
  In (Math_max l) l /\ Forall (fun x => leb x (Math_max l) = true) l.
Proof.
  intros Hne Hl. unfold Math_max.
  destruct (fold_max2 l (Inf true) ltac:(discriminate) Hl) as (Hm & Hin & _ & Hall).
  split; [|assumption].
  destruct Hin as [E|Hin]; [|assumption].
  destruct l as [|x l]; [congruence|].
  inversion Hall as [|? ? Hx _]; subst. rewrite E in Hx |- *.
  destruct x as [q| |[|]]; simpl in Hx; try discriminate. now left.
Qed.

Lemma hasHR_heartRate r :
  hasHR r = true ->
  r !! "heart_rate"%string = Some (heartRate r) /\ gtb (heartRate r) (ofZ 0) = true.
Proof.
  unfold hasHR, heartRate.
  destruct (r !! "heart_rate"%string) as [h|]; [|discriminate]. auto.
Qed.

(** The statistics of a lap that has heart-rate samples. *)
Lemma lapStat_heart_rates sorted records lap i b :
  let hrRecords := List.filter hasHR (lapRecords lap b sorted records) in
  let hrValues := map heartRate hrRecords in
  hrRecords <> nil ->
  let st := lapStat sorted records lap i b in
  minHR st = Some (Math_min hrValues) /\
  maxHR st = Some (Math_max hrValues) /\
  avgHR st = Some (Math_round (div (fold_left add hrValues (ofZ 0))
                                   (ofZ (Z.of_nat (length hrValues))))).
Proof.
  intros hrRecords hrValues Hne st. subst st. unfold lapStat.
  fold hrRecords. fold hrValues.
  destruct hrValues as [|v vs] eqn:E.
  - subst hrValues. destruct hrRecords; [congruence|discriminate].
  - auto.
Qed.

Lemma hrValues_notNaN (l : list (gmap string number)) :
  Forall (fun x => x <> NaN) (map heartRate (List.filter hasHR l)).
Proof.
  apply List.Forall_forall. intros v Hv. apply in_map_iff in Hv.
  destruct Hv as (r & <- & Hr). apply filter_In in Hr.
  apply hasHR_notNaN, Hr.
Qed.

(** X3. When a lap has heart-rate samples, its [minHR] and [maxHR] are
    the heart rates of two records of the activity, [minHR] is positive
    and every matched heart rate lies between the two. *)
Theorem minHR_maxHR_are_sample_values
  (laps records : list (gmap string number)) (i : nat)
  (lap : gmap string number) (b : bound) (st : LapStat) :
  laps !! i = Some lap ->
  lapBounds laps !! i = Some b ->
  computeLapStats laps records !! i = Some st ->
  let hrRecords :=
    List.filter hasHR (lapRecords lap b (sortedRecords records) records) in
  hrRecords <> nil ->
  exists mn mx rmin rmax,
    minHR st = Some mn /\ maxHR st = Some mx /\
    In rmin records /\ rmin !! "heart_rate"%string = Some mn /\
    In rmax records /\ rmax !! "heart_rate"%string = Some mx /\
    gtb mn (ofZ 0) = true /\ leb mn mx = true /\
    forall r, In r hrRecords ->
      leb mn (heartRate r) = true /\ leb (heartRate r) mx = true.
Proof.
  intros Hlap Hb Hst hrRecords Hne.
  destruct (computeLapStats_lookup laps records i lap Hlap) as (b' & Hb' & Hst').
  assert (b' = b) by congruence. subst b'.
  assert (st = lapStat (sortedRecords records) records lap i b) by congruence.
  subst st. clear Hst Hst' Hb'.
  destruct (lapStat_heart_rates (sortedRecords records) records lap i b Hne)
    as (Hmin & Hmax & _).
  fold hrRecords in Hmin, Hmax.
  set (hrValues := map heartRate hrRecords) in *.
  assert (Hvals : Forall (fun x => x <> NaN) hrValues) by apply hrValues_notNaN.
  assert (Hvne : hrValues <> nil).
  { subst hrValues. destruct hrRecords; [congruence|discriminate]. }
  destruct (Math_min_attained hrValues Hvne Hvals) as [Hmn Hlow].
  destruct (Math_max_attained hrValues Hvne Hvals) as [Hmx Hhigh].
  rewrite List.Forall_forall in Hlow, Hhigh.
  apply in_map_iff in Hmn. destruct Hmn as (rmin & Ermin & Hrmin).
  apply in_map_iff in Hmx. destruct Hmx as (rmax & Ermax & Hrmax).
  assert (Hsub : forall r, In r hrRecords -> In r records /\ hasHR r = true).
  { intros r Hr. apply filter_In in Hr. destruct Hr as [Hr Hh].
    split; [eapply lapRecords_subset; eassumption | assumption]. }
  destruct (Hsub _ Hrmin) as [Hin1 Hh1]. destruct (Hsub _ Hrmax) as [Hin2 Hh2].
  destruct (hasHR_heartRate _ Hh1) as [Hp1 Hpos1].
  destruct (hasHR_heartRate _ Hh2) as [Hp2 _].
  exists (Math_min hrValues), (Math_max hrValues), rmin, rmax.
  rewrite <- Ermin at 2 3. rewrite <- Ermax at 2.
  repeat split; try assumption.
  - apply Hhigh. rewrite <- Ermin. subst hrValues. now apply in_map.
  - apply Hlow. subst hrValues. now apply in_map.
  - apply Hhigh. subst hrValues. now apply in_map.
Qed.

Lemma minHR_maxHR_are_sample_values_witness :
  exists mn mx rmin rmax,
    minHR (lapStat (sortedRecords Sample.farFirst) Sample.farFirst Sample.lap1000 0
             Sample.window1000) = Some mn /\
    maxHR (lapStat (sortedRecords Sample.farFirst) Sample.farFirst Sample.lap1000 0
             Sample.window1000) = Some mx /\
    In rmin Sample.farFirst /\ rmin !! "heart_rate"%string = Some mn /\
    In rmax Sample.farFirst /\ rmax !! "heart_rate"%string = Some mx /\
    gtb mn (ofZ 0) = true /\ leb mn mx = true /\
    forall r,
      In r (List.filter hasHR
              (lapRecords Sample.lap1000 Sample.window1000
                 (sortedRecords Sample.farFirst) Sample.farFirst)) ->
      leb mn (heartRate r) = true /\ leb (heartRate r) mx = true.
Proof.
  apply (minHR_maxHR_are_sample_values [Sample.lap1000] Sample.farFirst 0
           Sample.lap1000 Sample.window1000).
  - reflexivity.
  - reflexivity.
  - reflexivity.
  - intros E. apply (f_equal (@length _)) in E. vm_compute in E. discriminate.
Defined.

End HeartRates.

Section HeartRateMean.

Import JS Stats StatsProp.








End HeartRateMean.

Section RecordOrder.

Import JS Stats StatsProp StatsSame.

Lemma leb_antisym a b : leb a b = true -> leb b a = true -> sameValue a b.
Proof.
  destruct a as [x| |[|]], b as [y| |[|]]; simpl; try discriminate; auto.
  intros H1 H2. apply Qle_bool_iff in H1, H2. now apply Qle_antisym.
Qed.

Lemma sameResult_refl o : sameResult o o.
Proof. destruct o; simpl; [apply sameValue_refl | exact I]. Qed.

Lemma Math_min_perm (l l' : list number) :
  l <> nil -> Forall (fun x => x <> NaN) l -> Permutation l l' ->
  sameValue (Math_min l) (Math_min l').
Proof.
  intros Hne Hl Hp.
  assert (Hne' : l' <> nil).
  { intros ->. apply Permutation_sym, Permutation_nil in Hp. contradiction. }
  assert (Hl' : Forall (fun x => x <> NaN) l')
    by (eapply Permutation_Forall; eassumption).
  destruct (Math_min_attained l Hne Hl) as [Hin Hlow].
  destruct (Math_min_attained l' Hne' Hl') as [Hin' Hlow'].
  rewrite List.Forall_forall in Hlow, Hlow'.
  apply leb_antisym.
  - apply Hlow. eapply Permutation_in; [apply Permutation_sym, Hp | exact Hin'].
  - apply Hlow'. eapply Permutation_in; [exact Hp | exact Hin].
Qed.

Lemma Math_max_perm (l l' : list number) :
  l <> nil -> Forall (fun x => x <> NaN) l -> Permutation l l' ->
  sameValue (Math_max l) (Math_max l').
Proof.
  intros Hne Hl Hp.
  assert (Hne' : l' <> nil).
  { intros ->. apply Permutation_sym, Permutation_nil in Hp. contradiction. }
  assert (Hl' : Forall (fun x => x <> NaN) l')
    by (eapply Permutation_Forall; eassumption).
  destruct (Math_max_attained l Hne Hl) as [Hin Hlow].
  destruct (Math_max_attained l' Hne' Hl') as [Hin' Hlow'].
  rewrite List.Forall_forall in Hlow, Hlow'.
  apply leb_antisym.
  - apply Hlow'. eapply Permutation_in; [exact Hp | exact Hin].
  - apply Hlow. eapply Permutation_in; [apply Permutation_sym, Hp | exact Hin'].
Qed.

Lemma sortedRecords_perm records records' :
  Permutation records records' ->
  Permutation (sortedRecords records) (sortedRecords records').
Proof.
  intros Hp. unfold sortedRecords.
  etransitivity; [apply sort_perm|].
  etransitivity; [|apply Permutation_sym, sort_perm].
  now apply filter_perm.
Qed.

Lemma lapRecords_perm lap b records records' :
  Permutation records records' ->
  Permutation (lapRecords lap b (sortedRecords records) records)
              (lapRecords lap b (sortedRecords records') records').
Proof.
  intros Hp. unfold lapRecords.
  assert (Hm : Permutation (distanceMatch b (sortedRecords records))
                           (distanceMatch b (sortedRecords records')))
    by (apply filter_perm, sortedRecords_perm, Hp).
  rewrite <- (Permutation_length Hm).
  destruct (length (distanceMatch b (sortedRecords records))); [|exact Hm].
  destruct (lap !! "start_time"%string); [|exact Hm].
  destruct (lap !! "timestamp"%string); [|exact Hm].
  now apply filter_perm.
Qed.

(** X22. The order in which the records are given does not change the
    [minHR] and [maxHR] of a lap, nor its lap number, distance, pace and
    elapsed time. *)
Theorem minHR_maxHR_ignore_record_order
  (laps records records' : list (gmap string number)) (i : nat)
  (st st' : LapStat) :
  Permutation records records' ->
  computeLapStats laps records !! i = Some st ->
  computeLapStats laps records' !! i = Some st' ->
  sameResult (minHR st) (minHR st') /\
  sameResult (maxHR st) (maxHR st') /\
  lapNumber st = lapNumber st' /\
  totalDistance st = totalDistance st' /\
  avgPace st = avgPace st' /\
  elapsedTime st = elapsedTime st'.
Proof.
  intros Hp Hst Hst'.
  assert (Hi : (i < length laps)%nat).
  { apply lookup_lt_Some in Hst. unfold computeLapStats in Hst.
    rewrite mapIndexed_length in Hst; [exact Hst|].
    symmetry. apply lapBoundsFrom_length. }
  destruct (lookup_lt_is_Some_2 laps i Hi) as (lap & Hlap).
  destruct (computeLapStats_lookup laps records i lap Hlap) as (b & Hb & E).
  destruct (computeLapStats_lookup laps records' i lap Hlap) as (b' & Hb' & E').
  assert (b' = b) by congruence. subst b'.
  rewrite Hst in E. rewrite Hst' in E'. injection E as ->. injection E' as ->.
  pose proof (lapRecords_perm lap b records records' Hp) as Hlr.
  assert (Hhr : Permutation
    (map heartRate (List.filter hasHR (lapRecords lap b (sortedRecords records) records)))
    (map heartRate (List.filter hasHR (lapRecords lap b (sortedRecords records') records')))).
  { apply Permutation_map, filter_perm, Hlr. }
  unfold lapStat.
  set (l := map heartRate (List.filter hasHR
              (lapRecords lap b (sortedRecords records) records))) in *.
  set (l' := map heartRate (List.filter hasHR
               (lapRecords lap b (sortedRecords records') records'))) in *.
  assert (Hl : Forall (fun x => x <> NaN) l) by apply hrValues_notNaN.
  destruct l as [|v vs] eqn:El.
  - apply Permutation_nil in Hhr. rewrite Hhr. cbn [minHR maxHR lapNumber
      totalDistance avgPace elapsedTime].
    repeat split; try reflexivity; apply sameResult_refl.
  - destruct l' as [|v' vs'] eqn:El'.
    { apply Permutation_sym, Permutation_nil in Hhr. discriminate. }
    cbn [minHR maxHR lapNumber totalDistance avgPace elapsedTime sameResult].
    repeat split; try reflexivity.
    + apply Math_min_perm; [discriminate | exact Hl | exact Hhr].
    + apply Math_max_perm; [discriminate | exact Hl | exact Hhr].
Qed.

Lemma minHR_maxHR_ignore_record_order_witness :
  let st := lapStat (sortedRecords Sample.farFirst) Sample.farFirst
              Sample.lap1000 0 Sample.window1000 in
  let st' := lapStat (sortedRecords (rev Sample.farFirst)) (rev Sample.farFirst)
               Sample.lap1000 0 Sample.window1000 in
  sameResult (minHR st) (minHR st') /\
  sameResult (maxHR st) (maxHR st') /\
  lapNumber st = lapNumber st' /\
  totalDistance st = totalDistance st' /\
  avgPace st = avgPace st' /\
  elapsedTime st = elapsedTime st'.
Proof.
  apply (minHR_maxHR_ignore_record_order [Sample.lap1000] Sample.farFirst
           (rev Sample.farFirst) 0).
  - apply Permutation_rev.
  - reflexivity.
  - reflexivity.
Defined.

End RecordOrder.

(** ** The ZIP extractor: errors, names and round trip *)

Section ArchiveErrors.

Import Zip ZipSpec.

(** The backward search never leaves the buffer, and stops at the last
    position of its range that carries the signature. *)
Lemma scanEocd_spec zipBytes lo n :
  0 <= lo ->
  ((0 < n)%nat -> lo + Z.of_nat n + 3 <= Z.of_nat (length zipBytes)) ->
  exists r, scanEocd zipBytes lo n = inr r /\
    ((r = -1 /\
      forall i, lo <= i < lo + Z.of_nat n ->
        DataView.getUint32 zipBytes i true <> Some 0x06054b50) \/
     (lo <= r < lo + Z.of_nat n /\
      DataView.getUint32 zipBytes r true = Some 0x06054b50 /\
      forall i, r < i < lo + Z.of_nat n ->
        DataView.getUint32 zipBytes i true <> Some 0x06054b50)).
Proof.
  intros Hlo. induction n as [|k IH]; intros Hin.
  - exists (-1). split; [reflexivity|]. left. split; [reflexivity|]. intros i Hi. lia.
  - cbn [scanEocd].
    destruct (getUint_inside 4 zipBytes (lo + Z.of_nat k) true) as (v & Hv);
      [lia | specialize (Hin ltac:(lia)); lia |].
    change (DataView.getUint 4) with DataView.getUint32 in Hv.
    rewrite Hv. cbn [view].
    destruct (v =? 101010256) eqn:E.
    + apply Z.eqb_eq in E. subst v. eexists. split; [reflexivity|]. right.
      split; [lia|]. split; [exact Hv|]. intros i Hi. lia.
    + apply Z.eqb_neq in E.
      destruct IH as (r & Hr & Hcase); [intros Hk; specialize (Hin ltac:(lia)); lia|].
      exists r. split; [exact Hr|].
      destruct Hcase as [[-> Hnone] | (Hr1 & Hr2 & Hnone)].
      * left. split; [reflexivity|]. intros i Hi.
        destruct (Z.eq_dec i (lo + Z.of_nat k)) as [->|Hne].
        -- rewrite Hv. congruence.
        -- apply Hnone. lia.
      * right. split; [lia|]. split; [exact Hr2|]. intros i Hi.
        destruct (Z.eq_dec i (lo + Z.of_nat k)) as [->|Hne].
        -- rewrite Hv. congruence.
        -- apply Hnone. lia.
Qed.

Lemma scanEocd_file zipBytes :
  let len := Z.of_nat (length zipBytes) in
  let lo := Z.max 0 (len - 65557) in
  exists r, scanEocd zipBytes lo (Z.to_nat (len - 22 - lo + 1)) = inr r /\
    ((r = -1 /\
      forall i, lo <= i <= len - 22 ->
        DataView.getUint32 zipBytes i true <> Some 0x06054b50) \/
     (lo <= r <= len - 22 /\
      DataView.getUint32 zipBytes r true = Some 0x06054b50 /\
      forall i, r < i <= len - 22 ->
        DataView.getUint32 zipBytes i true <> Some 0x06054b50)).
Proof.
  intros len lo.
  destruct (scanEocd_spec zipBytes lo (Z.to_nat (len - 22 - lo + 1)))
    as (r & Hr & Hcase); [lia | fold len; lia |].
  exists r. split; [exact Hr|].
  destruct Hcase as [[-> Hnone] | (Hr1 & Hr2 & Hnone)].
  - left. split; [reflexivity|]. intros i Hi. apply Hnone. lia.
  - right. split; [lia|]. split; [exact Hr2|]. intros i Hi. apply Hnone. lia.
Qed.

Lemma scanEocd_last zipBytes i :
  let len := Z.of_nat (length zipBytes) in
  let lo := Z.max 0 (len - 65557) in
  lo <= i <= len - 22 ->
  DataView.getUint32 zipBytes i true = Some 0x06054b50 ->
  (forall j, i < j <= len - 22 ->
     DataView.getUint32 zipBytes j true <> Some 0x06054b50) ->
  scanEocd zipBytes lo (Z.to_nat (len - 22 - lo + 1)) = inr i.
Proof.
  intros len lo Hi Hsig Hlast.
  destruct (scanEocd_file zipBytes) as (r & Hr & Hcase).
  fold len in Hr, Hcase. fold lo in Hr, Hcase.
  rewrite Hr. f_equal.
  destruct Hcase as [[-> Hnone] | (Hr1 & Hr2 & Hnone)].
  - exfalso. apply (Hnone i); [lia | exact Hsig].
  - destruct (Z.lt_trichotomy r i) as [Hlt | [Heq | Hgt]]; [|exact Heq|].
    + exfalso. apply (Hnone i); [lia | exact Hsig].
    + exfalso. apply (Hlast r); [lia | exact Hr2].
Qed.

Lemma extractEntry_error inflateRaw zipBytes m cs lo e :
  extractEntry inflateRaw zipBytes m cs lo = inl e ->
  e = RangeError \/ e = InflateError \/ e = Unsupported m.
Proof.
  unfold extractEntry.
  destruct (DataView.getUint16 zipBytes (lo + 26) true) as [a|];
    [|cbn [view]; intros [= <-]; auto].
  destruct (DataView.getUint16 zipBytes (lo + 28) true) as [b|];
    [|cbn [view]; intros [= <-]; auto].
  cbn [view]. destruct (m =? 0); [discriminate|].
  destruct (m =? 8); [destruct (inflateRaw _); [discriminate|intros [= <-]; auto]|].
  intros [= <-]; auto.
Qed.

Lemma walkDirectory_no_entry inflateRaw zipBytes n offset :
  entryAt zipBytes offset = None ->
  walkDirectory inflateRaw zipBytes (S n) offset = inl RangeError \/
  walkDirectory inflateRaw zipBytes (S n) offset = inl InvalidCentralDirectory.
Proof.
  unfold entryAt. simpl.
  destruct (DataView.getUint32 zipBytes offset true) as [sig|]; [|auto].
  cbn [view]. destruct (sig =? 33639248); cbn [negb]; [|auto].
  destruct (DataView.getUint16 zipBytes (offset + 10) true) as [m|]; [|auto].
  destruct (DataView.getUint32 zipBytes (offset + 20) true) as [cs|]; [|auto].
  destruct (DataView.getUint16 zipBytes (offset + 28) true) as [nl|]; [|auto].
  destruct (DataView.getUint16 zipBytes (offset + 30) true) as [el|]; [|auto].
  destruct (DataView.getUint16 zipBytes (offset + 32) true) as [cl|]; [|auto].
  destruct (DataView.getUint32 zipBytes (offset + 42) true) as [lo|]; [|auto].
  discriminate.
Qed.

Lemma walkDirectory_error inflateRaw zipBytes n : forall offset e,
  walkDirectory inflateRaw zipBytes n offset = inl e -> e <> InvalidZip.
Proof.
  induction n as [|k IH]; intros offset e H.
  - simpl in H. congruence.
  - destruct (entryAt zipBytes offset) as [en|] eqn:E.
    + rewrite (walkDirectory_entry _ _ _ _ _ E) in H.
      destruct (isFitName (name en)).
      * apply extractEntry_error in H. destruct H as [-> | [-> | ->]]; discriminate.
      * eapply IH, H.
    + destruct (walkDirectory_no_entry inflateRaw zipBytes k offset E) as [H'|H'];
        rewrite H' in H; congruence.
Qed.

(** X5. [extractFitFromZip] reports 'Invalid ZIP file' exactly when no
    position of the search range, the last 65557 bytes up to 22 bytes
    before the end, carries the end-of-central-directory signature; in
    particular for every buffer shorter than 22 bytes.  The search itself
    never reads outside the buffer. *)
Theorem invalid_zip_iff_no_end_record
  (inflateRaw : list byte -> option (list byte)) (zipBytes : list byte) :
  let len := Z.of_nat (length zipBytes) in
  (extractFitFromZip inflateRaw zipBytes = inl InvalidZip <->
   forall i, Z.max 0 (len - 65557) <= i <= len - 22 ->
     DataView.getUint32 zipBytes i true <> Some 0x06054b50) /\
  (len < 22 -> extractFitFromZip inflateRaw zipBytes = inl InvalidZip) /\
  (exists r,
     scanEocd zipBytes (Z.max 0 (len - 65557))
       (Z.to_nat (len - 22 - Z.max 0 (len - 65557) + 1)) = inr r).
Proof.
  intros len.
  destruct (scanEocd_file zipBytes) as (r & Hr & Hcase). fold len in Hr, Hcase.
  assert (Hiff : extractFitFromZip inflateRaw zipBytes = inl InvalidZip <->
    forall i, Z.max 0 (len - 65557) <= i <= len - 22 ->
      DataView.getUint32 zipBytes i true <> Some 0x06054b50).
  { unfold extractFitFromZip. fold len. rewrite Hr.
    destruct Hcase as [[-> Hnone] | (Hr1 & Hr2 & Hnone)].
    - simpl. split; [intros _; exact Hnone | reflexivity].
    - destruct (r =? -1) eqn:E; [apply Z.eqb_eq in E; lia|].
      split.
      + intros H. exfalso.
        destruct (DataView.getUint32 zipBytes (r + 16) true) as [cdo|];
          [|discriminate].
        destruct (DataView.getUint16 zipBytes (r + 10) true) as [cde|];
          [|discriminate].
        cbn [view] in H. now apply walkDirectory_error in H.
      + intros H. exfalso. apply (H r); [lia | exact Hr2]. }
  split; [exact Hiff|]. split.
  - intros Hshort. apply Hiff. intros i Hi. lia.
  - exists r. exact Hr.
Qed.

(** X6. The search runs backwards: of several positions carrying the
    signature, the last one that leaves room for the 22-byte record is
    taken as the end-of-central-directory record, and the directory walk
    starts from the entry count and the offset read there. *)
Theorem end_record_is_last_signature
  (inflateRaw : list byte -> option (list byte)) (zipBytes : list byte) (i : Z) :
  let len := Z.of_nat (length zipBytes) in
  Z.max 0 (len - 65557) <= i <= len - 22 ->
  DataView.getUint32 zipBytes i true = Some 0x06054b50 ->
  (forall j, i < j <= len - 22 ->
     DataView.getUint32 zipBytes j true <> Some 0x06054b50) ->
  exists cdOffset cdEntries,
    DataView.getUint32 zipBytes (i + 16) true = Some cdOffset /\
    DataView.getUint16 zipBytes (i + 10) true = Some cdEntries /\
    extractFitFromZip inflateRaw zipBytes =
      walkDirectory inflateRaw zipBytes (Z.to_nat cdEntries) cdOffset.
Proof.
  intros len Hi Hsig Hlast.
  pose proof (scanEocd_last zipBytes i Hi Hsig Hlast) as Hr.
  destruct (getUint_inside 4 zipBytes (i + 16) true) as (cdo & Hcdo); [lia | fold len; lia |].
  destruct (getUint_inside 2 zipBytes (i + 10) true) as (cde & Hcde); [lia | fold len; lia |].
  exists cdo, cde. split; [exact Hcdo|]. split; [exact Hcde|].
  apply (extractFitFromZip_walk inflateRaw zipBytes i cdo cde); [exact Hr | lia | exact Hcdo | exact Hcde].
Qed.

Lemma end_record_is_last_signature_witness :
  exists cdOffset cdEntries,
    DataView.getUint32 ZipSample.archive (278 + 16) true = Some cdOffset /\
    DataView.getUint16 ZipSample.archive (278 + 10) true = Some cdEntries /\
    extractFitFromZip ZipSample.noInflate ZipSample.archive =
      walkDirectory ZipSample.noInflate ZipSample.archive (Z.to_nat cdEntries) cdOffset.
Proof.
  assert (L : Z.of_nat (length ZipSample.archive) = 300) by (vm_compute; reflexivity).
  apply (end_record_is_last_signature ZipSample.noInflate ZipSample.archive 278).
  - rewrite L. lia.
  - vm_compute. reflexivity.
  - intros j Hj. rewrite L in Hj. lia.
Defined.

Lemma extractEntry_found inflateRaw zipBytes m cs lo :
  extractEntry inflateRaw zipBytes m cs lo <> inl NotFound.
Proof.
  intros H. apply extractEntry_error in H. destruct H as [H | [H | H]]; discriminate.
Qed.

(** X7. The directory walk reports 'No .fit file found in ZIP' exactly
    when every declared entry is a well-formed central-directory entry
    inside the buffer and none has a name ending in '.fit'; in particular
    for an empty directory. *)
Theorem not_found_iff_no_fit_entry
  (inflateRaw : list byte -> option (list byte)) (zipBytes : list byte)
  (cdEntries : nat) (cdOffset : Z) :
  (walkDirectory inflateRaw zipBytes cdEntries cdOffset = inl NotFound <->
   exists offset, precedes zipBytes cdOffset cdEntries offset) /\
  walkDirectory inflateRaw zipBytes 0 cdOffset = inl NotFound.
Proof.
  split; [|reflexivity]. split.
  - revert cdOffset. induction cdEntries as [|k IH]; intros cdOffset H.
    + exists cdOffset. constructor.
    + destruct (entryAt zipBytes cdOffset) as [e|] eqn:E.
      * rewrite (walkDirectory_entry _ _ _ _ _ E) in H.
        destruct (isFitName (name e)) eqn:Hn.
        -- now apply extractEntry_found in H.
        -- destruct (IH _ H) as (offset & Hp). exists offset.
           econstructor; eassumption.
      * destruct (walkDirectory_no_entry inflateRaw zipBytes k cdOffset E) as [H'|H'];
          rewrite H' in H; discriminate.
  - intros (offset & Hp).
    induction Hp as [offset|offset e k offset' He Hn _ IH]; [reflexivity|].
    now rewrite (walkDirectory_entry _ _ _ _ _ He), Hn.
Qed.

End ArchiveErrors.

Section Names.

Import Zip.

Lemma append_cons c a b :
  String.append (String c a) b = String c (String.append a b).
Proof. reflexivity. Qed.

Lemma toLowerCase_app a b :
  toLowerCase (String.append a b) = String.append (toLowerCase a) (toLowerCase b).
Proof. induction a as [|c a IH]; simpl; [reflexivity | now rewrite IH]. Qed.

Lemma toLowerCase_app_inv a : forall s b,
  toLowerCase s = String.append a b ->
  exists s1 s2, s = String.append s1 s2 /\ toLowerCase s1 = a /\ toLowerCase s2 = b.
Proof.
  induction a as [|c a IH]; intros s b H.
  - exists EmptyString, s. auto.
  - destruct s as [|c0 s]; [discriminate|].
    simpl in H. injection H as Hc Hs.
    destruct (IH _ _ Hs) as (s1 & s2 & -> & H1 & H2).
    exists (String c0 s1), s2. simpl. rewrite Hc, H1. auto.
Qed.

Lemma substring_all s : String.substring 0 (String.length s) s = s.
Proof. induction s as [|c s IH]; simpl; [reflexivity | now rewrite IH]. Qed.

Lemma substring_app_suffix pre suf :
  String.substring (String.length pre) (String.length suf) (String.append pre suf) = suf.
Proof. induction pre as [|c pre IH]; simpl; [apply substring_all | exact IH]. Qed.

Lemma substring_split s : forall m, (m <= String.length s)%nat ->
  s = String.append (String.substring 0 m s)
        (String.substring m (String.length s - m) s).
Proof.
  induction s as [|c s IH]; intros m Hm.
  - simpl in Hm. assert (m = 0%nat) by lia. subst. reflexivity.
  - destruct m as [|m].
    + rewrite Nat.sub_0_r.
      change (String.substring 0 0 (String c s)) with EmptyString.
      symmetry. apply (substring_all (String c s)).
    + simpl in Hm |- *. rewrite append_cons. f_equal. apply IH. lia.
Qed.

Lemma length_append a b :
  String.length (String.append a b) = (String.length a + String.length b)%nat.
Proof. induction a as [|c a IH]; simpl; [reflexivity | now rewrite IH]. Qed.

Lemma endsWith_iff s suffix :
  endsWith s suffix = true <-> exists pre, s = String.append pre suffix.
Proof.
  unfold endsWith. split.
  - intros H. apply andb_true_iff in H. destruct H as [Hk He].
    apply Nat.leb_le in Hk. apply String.eqb_eq in He.
    exists (String.substring 0 (String.length s - String.length suffix) s).
    pose proof (substring_split s (String.length s - String.length suffix)
                  ltac:(lia)) as Hs.
    replace (String.length s - (String.length s - String.length suffix))%nat
      with (String.length suffix) in Hs by lia.
    rewrite He in Hs. exact Hs.
  - intros (pre & ->). rewrite length_append. apply andb_true_iff. split.
    + apply Nat.leb_le. lia.
    + apply String.eqb_eq.
      replace (String.length pre + String.length suffix - String.length suffix)%nat
        with (String.length pre) by lia.
      apply substring_app_suffix.
Qed.

(** X8. An entry name is taken for a FIT file exactly when it ends in a
    four-character extension that lower-cases to '.fit': the match is by
    suffix and ignores the case of the extension only. *)
Theorem isFitName_iff_extension (name : string) :
  isFitName name = true <->
  exists stem ext, name = String.append stem ext /\ toLowerCase ext = ".fit"%string.
Proof.
  unfold isFitName. rewrite endsWith_iff. split.
  - intros (pre & H). apply toLowerCase_app_inv in H.
    destruct H as (s1 & s2 & -> & _ & H2). eauto.
  - intros (stem & ext & -> & H). exists (toLowerCase stem).
    now rewrite toLowerCase_app, H.
Qed.

End Names.

Section ArchiveRoundTrip.

Import Zip ZipSpec FitStream ZipStream.

Lemma length_le n : forall v, length (le n v) = n.
Proof. induction n as [|k IH]; intros v; simpl; [reflexivity | now rewrite IH]. Qed.

Lemma leValue_le n : forall v,
  0 <= v < 256 ^ Z.of_nat n -> DataView.leValue (map byteZ (le n v)) = v.
Proof.
  induction n as [|k IH]; intros v Hv.
  - simpl in *. lia.
  - rewrite Nat2Z.inj_succ, Z.pow_succ_r in Hv by lia.
    cbn [le map DataView.leValue].
    rewrite byteZ_ofZ8 by (apply Z.mod_pos_bound; lia).
    rewrite IH.
    + pose proof (Z.div_mod v 256 ltac:(lia)). lia.
    + split; [apply Z.div_pos; lia | apply Z.div_lt_upper_bound; lia].
Qed.

Lemma byteAt_app pre (b : byte) post :
  DataView.byteAt (pre ++ b :: post) (Z.of_nat (length pre)) = Some (byteZ b).
Proof.
  apply (byteAt_skipn _ _ b post); [lia|].
  rewrite Nat2Z.id. rewrite skipn_app, Nat.sub_diag, skipn_all. reflexivity.
Qed.

Lemma getBytes_app l : forall pre post,
  DataView.getBytes (pre ++ l ++ post) (Z.of_nat (length pre)) (length l)
  = Some (map byteZ l).
Proof.
  induction l as [|b l IH]; intros pre post; [reflexivity|].
  cbn [length DataView.getBytes map]. cbn [app].
  rewrite byteAt_app.
  replace (pre ++ b :: l ++ post) with ((pre ++ [b]) ++ l ++ post)
    by (rewrite <- app_assoc; reflexivity).
  replace (Z.of_nat (length pre) + 1) with (Z.of_nat (length (pre ++ [b])))
    by (rewrite length_app; simpl; lia).
  now rewrite IH.
Qed.

(** Reading the [k]-th segment of a buffer made of segments. *)
Lemma getUint_concat (segs : list (list byte)) (k n : nat) (v off : Z) :
  nth_error segs k = Some (le n v) ->
  0 <= v < 256 ^ Z.of_nat n ->
  off = Z.of_nat (length (concat (firstn k segs))) ->
  DataView.getUint n (concat segs) off true = Some v.
Proof.
  intros Hk Hv ->.
  destruct (nth_error_split _ _ Hk) as (l1 & l2 & E & Hlen).
  assert (Hf : firstn k segs = l1).
  { rewrite E, <- Hlen. rewrite firstn_app, Nat.sub_diag, firstn_all.
    cbn [firstn]. apply app_nil_r. }
  rewrite Hf. rewrite E, concat_app. cbn [concat].
  unfold DataView.getUint.
  pose proof (getBytes_app (le n v) (concat l1) (concat l2)) as G.
  rewrite length_le in G. rewrite G. now rewrite leValue_le.
Qed.

Lemma slice_concat (segs : list (list byte)) (k : nat) (l : list byte) (from to : Z) :
  nth_error segs k = Some l ->
  from = Z.of_nat (length (concat (firstn k segs))) ->
  to = from + Z.of_nat (length l) ->
  DataView.slice (concat segs) from to = l.
Proof.
  intros Hk -> ->. unfold DataView.slice.
  destruct (nth_error_split _ _ Hk) as (l1 & l2 & E & Hlen).
  assert (Hf : firstn k segs = l1).
  { rewrite E, <- Hlen. rewrite firstn_app, Nat.sub_diag, firstn_all.
    cbn [firstn]. apply app_nil_r. }
  rewrite Hf. rewrite E, concat_app. cbn [concat].
  rewrite Nat2Z.id, skipn_app, Nat.sub_diag, skipn_all. cbn [skipn app].
  replace (Z.to_nat _) with (length l) by lia.
  change (skipn 0 (l ++ concat l2)) with (l ++ concat l2).
  rewrite firstn_app, Nat.sub_diag, firstn_all. cbn [firstn]. apply app_nil_r.
Qed.

Lemma archive_segments fname extra data method :
  archive fname extra data method = concat (segments fname extra data method).
Proof.
  unfold archive, localFile, centralEntry, endRecord, segments.
  cbn [concat]. rewrite <- !app_assoc. rewrite app_nil_r. reflexivity.
Qed.

Lemma size_localFile fname extra data method :
  size (localFile fname extra data method) = 30 + size fname + size extra + size data.
Proof.
  unfold size, localFile. rewrite !length_app, !length_le. lia.
Qed.

Lemma size_centralEntry fname method cs lo :
  size (centralEntry fname method cs lo) = 46 + size fname.
Proof.
  unfold size, centralEntry. rewrite !length_app, !length_le. lia.
Qed.

Lemma size_archive fname extra data method :
  size (archive fname extra data method)
  = 30 + size fname + size extra + size data + (46 + size fname) + 22.
Proof.
  unfold archive. unfold size at 1. rewrite !length_app.
  pose proof (size_localFile fname extra data method) as H1.
  pose proof (size_centralEntry fname method (size data) 0) as H2.
  unfold size in H1, H2 |- *.
  unfold endRecord. rewrite !length_app, !length_le. lia.
Qed.

Ltac segment k :=
  rewrite archive_segments; apply (getUint_concat _ k);
  [ reflexivity
  | change (256 ^ Z.of_nat 2) with 65536; change (256 ^ Z.of_nat 4) with 4294967296;
    unfold size in *; lia
  | unfold segments; cbn [firstn concat];
    rewrite ?length_app, ?length_le; cbn [length]; unfold size in *; lia ].

(** A one-entry archive: detection, the way to the entry, and the local
    header of the file. *)
Lemma archive_layout
  (inflateRaw : list byte -> option (list byte))
  (fname extra data : list byte) (method : Z) :
  isFitName (decodeName fname) = true ->
  size fname < 2 ^ 16 ->
  size extra < 2 ^ 16 ->
  0 <= method < 2 ^ 16 ->
  size (localFile fname extra data method) < 2 ^ 32 ->
  let zip := archive fname extra data method in
  Loader.isZip zip = true /\
  extractFitFromZip inflateRaw zip
  = extractEntry inflateRaw zip method (size data) 0 /\
  DataView.getUint16 zip (0 + 26) true = Some (size fname) /\
  DataView.getUint16 zip (0 + 28) true = Some (size extra) /\
  DataView.slice zip (0 + 30 + size fname + size extra)
    (0 + 30 + size fname + size extra + size data) = data.
Proof.
  intros Hname Hfn Hex Hm Hlf zip.
  pose proof (size_localFile fname extra data method) as HL.
  pose proof (size_centralEntry fname method (size data) 0) as HC.
  pose proof (size_archive fname extra data method) as Hlen. fold zip in Hlen.
  set (L := 30 + size fname + size extra + size data) in *.
  assert (HL0 : 0 <= size fname /\ 0 <= size extra /\ 0 <= size data)
    by (unfold size; lia).
  split.
  { subst zip. unfold archive, localFile.
    change (le 4 67324752) with [x50; x4b; x03; x04].
    unfold Loader.isZip. cbn [app]. 
    assert (Hgt : (4 <? Z.of_nat (length (x50 :: x4b :: x03 :: x04 ::
      (le 2 20 ++ le 2 0 ++ le 2 method ++ le 2 0 ++ le 2 0 ++ le 4 0 ++
       le 4 (size data) ++ le 4 (size data) ++ le 2 (size fname) ++
       le 2 (size extra) ++ fname ++ extra ++ data) ++
      centralEntry fname method (size data) 0 ++
      endRecord 1 (size (centralEntry fname method (size data) 0))
        (size (x50 :: x4b :: x03 :: x04 ::
          le 2 20 ++ le 2 0 ++ le 2 method ++ le 2 0 ++ le 2 0 ++ le 4 0 ++
          le 4 (size data) ++ le 4 (size data) ++ le 2 (size fname) ++
          le 2 (size extra) ++ fname ++ extra ++ data))))) = true).
    { apply Z.ltb_lt. cbn [length]. rewrite !length_app, !length_le. lia. }
    rewrite Hgt. reflexivity. }
  assert (R_sig : DataView.getUint32 zip (L + (46 + size fname)) true = Some 0x06054b50)
    by (subst zip; unfold DataView.getUint32; segment 32%nat).
  assert (R_cdo : DataView.getUint32 zip (L + (46 + size fname) + 16) true
                  = Some (size (localFile fname extra data method)))
    by (subst zip; unfold DataView.getUint32; segment 38%nat).
  assert (R_cde : DataView.getUint16 zip (L + (46 + size fname) + 10) true = Some 1)
    by (subst zip; unfold DataView.getUint16; segment 36%nat).
  assert (C_sig : DataView.getUint32 zip L true = Some 0x02014b50)
    by (subst zip; unfold DataView.getUint32; segment 14%nat).
  assert (C_method : DataView.getUint16 zip (L + 10) true = Some method)
    by (subst zip; unfold DataView.getUint16; segment 18%nat).
  assert (C_size : DataView.getUint32 zip (L + 20) true = Some (size data))
    by (subst zip; unfold DataView.getUint32; segment 22%nat).
  assert (C_name : DataView.getUint16 zip (L + 28) true = Some (size fname))
    by (subst zip; unfold DataView.getUint16; segment 24%nat).
  assert (C_extra : DataView.getUint16 zip (L + 30) true = Some 0)
    by (subst zip; unfold DataView.getUint16; segment 25%nat).
  assert (C_comment : DataView.getUint16 zip (L + 32) true = Some 0)
    by (subst zip; unfold DataView.getUint16; segment 26%nat).
  assert (C_local : DataView.getUint32 zip (L + 42) true = Some 0)
    by (subst zip; unfold DataView.getUint32; segment 30%nat).
  assert (C_fname : DataView.slice zip (L + 46) (L + 46 + size fname) = fname).
  { subst zip. rewrite archive_segments. apply (slice_concat _ 31%nat).
    - reflexivity.
    - unfold segments; cbn [firstn concat].
      rewrite ?length_app, ?length_le; cbn [length]; unfold size in *; lia.
    - unfold size; lia. }
  assert (F_name : DataView.getUint16 zip (0 + 26) true = Some (size fname))
    by (subst zip; unfold DataView.getUint16; segment 9%nat).
  assert (F_extra : DataView.getUint16 zip (0 + 28) true = Some (size extra))
    by (subst zip; unfold DataView.getUint16; segment 10%nat).
  assert (F_data : DataView.slice zip (0 + 30 + size fname + size extra)
                     (0 + 30 + size fname + size extra + size data) = data).
  { subst zip. rewrite archive_segments. apply (slice_concat _ 13%nat).
    - reflexivity.
    - unfold segments; cbn [firstn concat].
      rewrite ?length_app, ?length_le; cbn [length]; unfold size in *; lia.
    - unfold size; lia. }
  assert (Hscan :
    scanEocd zip (Z.max 0 (Z.of_nat (length zip) - 65557))
      (Z.to_nat (Z.of_nat (length zip) - 22
                 - Z.max 0 (Z.of_nat (length zip) - 65557) + 1))
    = inr (L + (46 + size fname))).
  { apply scanEocd_last.
    - unfold size in *. lia.
    - exact R_sig.
    - intros j Hj. unfold size in *. lia. }
  rewrite (extractFitFromZip_walk inflateRaw zip _ _ _ Hscan ltac:(unfold size in *; lia) R_cdo R_cde).
  rewrite HL. change (Z.to_nat 1) with 1%nat.
  assert (He : entryAt zip L =
    Some {| ZipSpec.method := method; compSize := size data; nameLen := size fname;
            extraLen := 0; commentLen := 0; localOffset := 0;
            name := decodeName fname |}).
  { unfold entryAt.
    rewrite C_sig, C_method, C_size, C_name, C_extra, C_comment, C_local, C_fname.
    reflexivity. }
  rewrite (walkDirectory_entry _ _ _ _ _ He).
  cbn [name ZipSpec.method compSize localOffset]. rewrite Hname.
  split; [reflexivity|]. split; [exact F_name|]. split; [exact F_extra|exact F_data].
Qed.

(** X9. Round trip through a one-entry archive: when the entry's name
    ends in '.fit', [isZip] recognises the archive and
    [extractFitFromZip] returns the stored bytes unchanged for method 0,
    hands exactly these bytes to the raw-deflate stream for method 8, and
    names any other method in its error. *)
Theorem single_entry_archive_round_trip
  (inflateRaw : list byte -> option (list byte))
  (fname extra data : list byte) (method : Z) :
  isFitName (decodeName fname) = true ->
  size fname < 2 ^ 16 ->
  size extra < 2 ^ 16 ->
  0 <= method < 2 ^ 16 ->
  size (localFile fname extra data method) < 2 ^ 32 ->
  let zip := archive fname extra data method in
  Loader.isZip zip = true /\
  extractFitFromZip inflateRaw zip =
    if method =? 0 then inr data
    else if method =? 8 then
      match inflateRaw data with
      | Some d => inr d
      | None => inl InflateError
      end
    else inl (Unsupported method).
Proof.
  intros Hname Hfn Hex Hm Hlf zip.
  destruct (archive_layout inflateRaw fname extra data method Hname Hfn Hex Hm Hlf)
    as (Hzip & Hwalk & Hn & He & Hd).
  fold zip in Hzip, Hwalk, Hn, He, Hd.
  split; [exact Hzip|]. rewrite Hwalk. unfold extractEntry.
  rewrite Hn, He. cbn [view]. rewrite Hd. reflexivity.
Qed.

Lemma single_entry_archive_round_trip_witness :
  let zip := archive (list_byte_of_string "a.fit") [] [x01; x02] 0 in
  Loader.isZip zip = true /\
  extractFitFromZip ZipSample.noInflate zip = inr [x01; x02].
Proof.
  apply (single_entry_archive_round_trip ZipSample.noInflate
           (list_byte_of_string "a.fit") [] [x01; x02] 0).
  - reflexivity.
  - reflexivity.
  - reflexivity.
  - lia.
  - reflexivity.
Defined.

End ArchiveRoundTrip.

(** ** The file header and the binary path *)

Section Header.

Import JS Fit FitProp Loader LoaderProp.

Lemma byteAt_outside bs i :
  Z.of_nat (length bs) <= i -> DataView.byteAt bs i = None.
Proof.
  intros H. unfold DataView.byteAt.
  destruct (i <? 0) eqn:E; [reflexivity|].
  assert (Hn : nth_error bs (Z.to_nat i) = None) by (apply nth_error_None; lia).
  now rewrite Hn.
Qed.

Lemma getBytes_outside bs n : forall off,
  0 <= off <= Z.of_nat (length bs) -> Z.of_nat (length bs) < off + Z.of_nat n ->
  DataView.getBytes bs off n = None.
Proof.
  induction n as [|n IH]; intros off Hoff Hlen; [lia|].
  cbn [DataView.getBytes].
  destruct (DataView.byteAt bs off) as [b|] eqn:E; [|reflexivity].
  assert (Hin : off < Z.of_nat (length bs)).
  { destruct (Z_le_gt_dec (Z.of_nat (length bs)) off) as [Hle|Hgt]; [|lia].
    rewrite byteAt_outside in E by exact Hle. discriminate. }
  rewrite (IH (off + 1)) by lia. reflexivity.
Qed.

Lemma getUint_outside n bs off le :
  0 <= off <= Z.of_nat (length bs) -> Z.of_nat (length bs) < off + Z.of_nat n ->
  DataView.getUint n bs off le = None.
Proof.
  intros Hoff Hlen. unfold DataView.getUint.
  now rewrite getBytes_outside.
Qed.

(** The character of a byte value determines it. *)
Lemma ascii_of_byte_value c (a : N) :
  0 <= c < 256 -> (a < 256)%N ->
  (ascii_of_N (Z.to_N c) =? ascii_of_N a)%char = (c =? Z.of_N a).
Proof.
  intros Hc Ha.
  destruct (c =? Z.of_N a) eqn:E.
  - apply Z.eqb_eq in E. subst c. rewrite N2Z.id. apply Ascii.eqb_refl.
  - apply Ascii.eqb_neq. intros H. apply Z.eqb_neq in E. apply E.
    apply (f_equal N_of_ascii) in H.
    rewrite !N_ascii_embedding in H by lia. lia.
Qed.

Lemma signature_check data :
  String.eqb
    (fromCharCode (map (fun i => default 0 (DataView.byteAt data i)) [8; 9; 10; 11]))
    ".FIT" = fitSignature data.
Proof.
  unfold fromCharCode, fitSignature, byteIs. cbn [map string_of_list_ascii String.eqb].
  assert (H : forall i (a : N), (0 < a < 256)%N ->
    (ascii_of_N (Z.to_N (default 0 (DataView.byteAt data i))) =? ascii_of_N a)%char
    = match DataView.byteAt data i with Some b => b =? Z.of_N a | None => false end).
  { intros i a Ha. destruct (DataView.byteAt data i) as [b|] eqn:E.
    - apply ascii_of_byte_value; [eapply byteAt_range, E | lia].
    - cbn [default]. rewrite ascii_of_byte_value by lia.
      apply Z.eqb_neq. lia. }
  change "."%char with (ascii_of_N 46). change "F"%char with (ascii_of_N 70).
  change "I"%char with (ascii_of_N 73). change "T"%char with (ascii_of_N 84).
  rewrite !H by lia.
  change (Z.of_N 46) with 46. change (Z.of_N 70) with 70.
  change (Z.of_N 73) with 73. change (Z.of_N 84) with 84.
  destruct (DataView.byteAt data 8) as [b8|]; [|reflexivity].
  destruct (b8 =? 46); [|reflexivity].
  destruct (DataView.byteAt data 9) as [b9|]; [|reflexivity].
  destruct (b9 =? 70); [|reflexivity].
  destruct (DataView.byteAt data 10) as [b10|]; [|reflexivity].
  destruct (b10 =? 73); [|reflexivity].
  destruct (DataView.byteAt data 11) as [b11|]; [|reflexivity].
  destruct (b11 =? 84); reflexivity.
Qed.

Lemma _parseHeader_cases data :
  _parseHeader (constructor data) =
    match DataView.getUint8 data 0, DataView.getUint32 data 4 true with
    | Some headerSize, Some ds =>
        if fitSignature data
        then Ret tt (withDataOffset headerSize
                       (withOffset headerSize (withDataSize ds (constructor data))))
        else Throw NotFit (withDataSize ds (constructor data))
    | _, _ => Throw RangeError (constructor data)
    end.
Proof.
  unfold _parseHeader, bind, get, liftView. cbn [bytes constructor].
  destruct (DataView.getUint8 data 0) as [hs|]; [|reflexivity].
  cbn [ret bytes]. destruct (DataView.getUint32 data 4 true) as [ds|]; [|reflexivity].
  cbn [ret modify]. rewrite signature_check.
  destruct (fitSignature data); reflexivity.
Qed.

Lemma fitSignature_length data :
  fitSignature data = true -> 12 <= Z.of_nat (length data).
Proof.
  unfold fitSignature, byteIs. intros H.
  destruct (Z_le_gt_dec 12 (Z.of_nat (length data))) as [Hle|Hgt]; [exact Hle|].
  rewrite (byteAt_outside data 11) in H by lia.
  rewrite andb_false_r in H. discriminate.
Qed.

(** A header that validates is followed by a decode pass that returns. *)
Lemma parse_after_header data s0 :
  _parseHeader (constructor data) = Ret tt s0 ->
  exists table, parse data = Some (inr table).
Proof.
  intros Hh.
  destruct (_parseHeader_ret _ _ _ Hh) as (_ & Hdefs & _).
  assert (Hok : definitionsOk s0).
  { intros lt d. rewrite Hdefs, lookup_empty. discriminate. }
  set (dataEnd := dataOffset s0 + dataSize s0).
  destruct (parseLoop_total (Z.to_nat (dataEnd - offset s0)) dataEnd s0 Hok ltac:(lia))
    as (s1 & s2 & _ & Hl & _ & _).
  exists (messages s2). unfold parse, parseFinal. rewrite Hh. fold dataEnd.
  now rewrite Hl.
Qed.

Lemma fitSignature_parse data :
  fitSignature data = true -> exists table, parse data = Some (inr table).
Proof.
  intros Hs. pose proof (fitSignature_length data Hs) as Hlen.
  pose proof (_parseHeader_cases data) as Hc.
  destruct (getUint_inside 1 data 0 true) as (hs & Hhs); [lia|simpl; lia|].
  destruct (getUint_inside 4 data 4 true) as (ds & Hds); [lia|simpl; lia|].
  change (DataView.getUint 1 data 0 true) with (DataView.getUint8 data 0) in Hhs.
  change (DataView.getUint 4) with DataView.getUint32 in Hds.
  rewrite Hhs, Hds, Hs in Hc. eapply parse_after_header, Hc.
Qed.

Lemma isFit_iff data :
  isFit data = true <-> fitSignature data = true /\ 12 < Z.of_nat (length data).
Proof.
  unfold isFit, fitSignature.
  destruct (12 <? Z.of_nat (length data)) eqn:E.
  - apply Z.ltb_lt in E. cbn [andb]. split; [intros H; split; [exact H|exact E]|].
    intros [H _]. exact H.
  - apply Z.ltb_ge in E. cbn [andb]. split; [discriminate|]. intros [_ H]. lia.
Qed.

Lemma isFit_parse data :
  isFit data = true -> exists table, parse data = Some (inr table).
Proof. intros H. apply fitSignature_parse, isFit_iff, H. Qed.

(** X10. What [parse] makes of the file header: a RangeError for a
    buffer shorter than 8 bytes, 'Not a valid FIT file' for a longer one
    without the signature '.FIT' at offset 8, and the decoded messages in
    every other case, without an exception whatever follows the header.
    [isFit] accepts exactly the signed buffers longer than 12 bytes, so
    every buffer it accepts is parsed. *)
Theorem parse_header_outcomes (data : list byte) :
  let len := Z.of_nat (length data) in
  (len < 8 -> parse data = Some (inl RangeError)) /\
  (8 <= len -> fitSignature data = false -> parse data = Some (inl NotFit)) /\
  (fitSignature data = true -> exists table, parse data = Some (inr table)) /\
  (isFit data = true <-> fitSignature data = true /\ 12 < len) /\
  (isFit data = true -> exists table, parse data = Some (inr table)).
Proof.
  intros len.
  split; [|split; [|split; [apply fitSignature_parse|split; [apply isFit_iff|]]]].
  - intros Hshort. unfold parse, parseFinal. rewrite _parseHeader_cases.
    destruct (DataView.getUint8 data 0) as [hs|]; [|reflexivity].
    destruct (Z_le_gt_dec 4 len) as [H4|H4].
    + unfold DataView.getUint32.
      rewrite (getUint_outside 4 data 4 true) by (simpl; fold len; lia).
      reflexivity.
    + destruct (DataView.getUint32 data 4 true) as [ds|] eqn:E; [|reflexivity].
      exfalso. unfold DataView.getUint32, DataView.getUint in E.
      cbn [DataView.getBytes] in E.
      rewrite (byteAt_outside data (4 + 1 + 1 + 1)) in E by (fold len; lia).
      destruct (DataView.byteAt data 4), (DataView.byteAt data (4 + 1)),
        (DataView.byteAt data (4 + 1 + 1)); discriminate.
  - intros Hlong Hs. unfold parse, parseFinal. rewrite _parseHeader_cases.
    destruct (getUint_inside 1 data 0 true) as (hs & Hhs); [lia|simpl; fold len; lia|].
    destruct (getUint_inside 4 data 4 true) as (ds & Hds); [lia|simpl; fold len; lia|].
    change (DataView.getUint 1 data 0 true) with (DataView.getUint8 data 0) in Hhs.
    change (DataView.getUint 4) with DataView.getUint32 in Hds.
    now rewrite Hhs, Hds, Hs.
  - apply isFit_parse.
Qed.

End Header.

Section BinaryPath.

Import Zip FitStream ZipStream Loader.

(** X11. A FIT file and a one-entry archive that stores it take the
    binary path of [openAnalyzer] to the same result: the archive is
    unpacked to the very bytes of the file, and both are decoded without
    an exception when the file passes [isFit] and does not itself start
    with the archive signature. *)
Theorem archived_file_is_decoded_as_the_file
  (inflateRaw : list byte -> option (list byte))
  (fname extra data : list byte) :
  isFitName (decodeName fname) = true ->
  size fname < 2 ^ 16 ->
  size extra < 2 ^ 16 ->
  size (localFile fname extra data 0) < 2 ^ 32 ->
  isFit data = true ->
  isZip data = false ->
  let zip := archive fname extra data 0 in
  fitBytes inflateRaw zip = inr data /\
  fitBytes inflateRaw data = inr data /\
  fitData inflateRaw zip = fitData inflateRaw data /\
  exists table, fitData inflateRaw zip = Some (inr table).
Proof.
  intros Hname Hfn Hex Hlf Hfit Hzip zip.
  destruct (archive_layout inflateRaw fname extra data 0 Hname Hfn Hex ltac:(lia) Hlf)
    as (Hz & Hwalk & Hn & Hx & Hd).
  fold zip in Hz, Hwalk, Hn, Hx, Hd.
  assert (He : extractFitFromZip inflateRaw zip = inr data).
  { rewrite Hwalk, (extractEntry_stored inflateRaw zip _ 0 _ _ Hn Hx). now rewrite Hd. }
  assert (H1 : fitBytes inflateRaw zip = inr data)
    by (unfold fitBytes; now rewrite Hz, He).
  assert (H2 : fitBytes inflateRaw data = inr data)
    by (unfold fitBytes; now rewrite Hzip, Hfit).
  split; [exact H1|]. split; [exact H2|].
  unfold fitData. rewrite H1, H2. split; [reflexivity|].
  destruct (isFit_parse data Hfit) as (table & ->). eauto.
Qed.

Lemma archived_file_is_decoded_as_the_file_witness :
  let data := StreamSample.sentinelHeartRate in
  let zip := archive (list_byte_of_string "a.fit") [] data 0 in
  fitBytes ZipSample.noInflate zip = inr data /\
  fitBytes ZipSample.noInflate data = inr data /\
  fitData ZipSample.noInflate zip = fitData ZipSample.noInflate data /\
  exists table, fitData ZipSample.noInflate zip = Some (inr table).
Proof.
  apply (archived_file_is_decoded_as_the_file ZipSample.noInflate
           (list_byte_of_string "a.fit") [] StreamSample.sentinelHeartRate).
  - reflexivity.
  - reflexivity.
  - reflexivity.
  - reflexivity.
  - reflexivity.
  - reflexivity.
Defined.

End BinaryPath.

(** ** The decoder: messages, definitions and timestamps *)

Section Messages.

Import JS Fit FitProp FitStream.

Tactic Notation "mstep" constr(H) constr(L) "as" ident(a) ident(s1) ident(Ha) ident(Hs) :=
  lazymatch goal with
  | |- context [bind ?m ?k ?s] =>
      pattern (bind m k s); eapply (bind_case m k _ _ _ s H L);
      [ intros ? ? ?; try assumption | intros a s1 Ha Hs; cbv beta ]
  end.

(** What a data message does to the message table. *)
Lemma _parseDataMessage_messages lt cts s def :
  definitions s !! lt = Some def -> definitionOk def ->
  match _parseDataMessage lt cts s with
  | Ret _ s' =>
      match FIT_MSG_NAMES (globalMsgNum def) with
      | Some typeName =>
          exists msg, messages s' =
            <[typeName := default nil (messages s !! typeName) ++ [msg]]> (messages s)
      | None => messages s' = messages s
      end
  | Throw _ s' => messages s' = messages s
  end.
Proof.
  intros Hdef [Hf Hd]. unfold _parseDataMessage. unfold bind at 1, get.
  rewrite Hdef.
  assert (T : forall e s1, advance s s1 ->
    match @Throw unit e s1 with
    | Ret _ s' =>
        match FIT_MSG_NAMES (globalMsgNum def) with
        | Some typeName =>
            exists msg, messages s' =
              <[typeName := default nil (messages s !! typeName) ++ [msg]]> (messages s)
        | None => messages s' = messages s
        end
    | Throw _ s' => messages s' = messages s
    end) by (intros e s1 A; apply A).
  mstep (advance_refl s) (advancing_readFields
           (match FIT_FIELDS (globalMsgNum def) with Some p => p | None => fun _ => None end)
           (littleEndian def) (fields def) ∅ Hf) as msg0 s1 Hm A1; [now apply T|].
  mstep A1 (advancing_skipDevFields (devFields def) Hd) as u s2 Hu A2; [now apply T|].
  set (msg := match cts, msg0 !! "timestamp"%string with
              | Some ts, None => <["timestamp"%string := ts]> msg0
              | _, _ => msg0
              end).
  assert (F : forall s3, messages s3 = messages s ->
    match (match FIT_MSG_NAMES (globalMsgNum def) with
           | Some typeName => modify (pushMessage typeName msg)
           | None => ret tt
           end) s3 with
    | Ret _ s' =>
        match FIT_MSG_NAMES (globalMsgNum def) with
        | Some typeName =>
            exists m, messages s' =
              <[typeName := default nil (messages s !! typeName) ++ [m]]> (messages s)
        | None => messages s' = messages s
        end
    | Throw _ s' => messages s' = messages s
    end).
  { intros s3 E. destruct (FIT_MSG_NAMES _) as [typeName|]; simpl.
    - exists msg. now rewrite E.
    - exact E. }
  unfold bind. destruct (msg !! "timestamp"%string) as [t|]; simpl; apply F;
    simpl; apply A2.
Qed.

(** A record either leaves the message table alone or appends one message
    to one of its lists. *)
Lemma _parseRecord_messages s :
  definitionsOk s ->
  match _parseRecord s with
  | Ret _ s' =>
      messages s' = messages s \/
      exists typeName msg, messages s' =
        <[typeName := default nil (messages s !! typeName) ++ [msg]]> (messages s)
  | Throw _ s' => messages s' = messages s
  end.
Proof.
  intros Hok. unfold _parseRecord. unfold bind at 1. rewrite nextUint8_eq.
  set (s1 := withOffset (offset s + 1) s).
  destruct (DataView.byteAt _ _) as [header|]; [|reflexivity].
  assert (D : forall lt cts s2,
    messages s2 = messages s -> definitions s2 = definitions s ->
    match _parseDataMessage lt cts s2 with
    | Ret _ s' =>
        messages s' = messages s \/
        exists typeName msg, messages s' =
          <[typeName := default nil (messages s !! typeName) ++ [msg]]> (messages s)
    | Throw _ s' => messages s' = messages s
    end).
  { intros lt cts s2 Em Ed.
    destruct (definitions s2 !! lt) as [def|] eqn:Hdef.
    - assert (Hdok : definitionOk def) by (apply (Hok lt); now rewrite <- Ed).
      pose proof (_parseDataMessage_messages lt cts s2 def Hdef Hdok) as H.
      destruct (_parseDataMessage lt cts s2) as [u s3|e s3].
      + destruct (FIT_MSG_NAMES (globalMsgNum def)) as [typeName|].
        * destruct H as (msg & H). right. exists typeName, msg. now rewrite <- Em.
        * left. congruence.
      + congruence.
    - rewrite (_parseDataMessage_undefined lt cts s2 Hdef). exact Em. }
  destruct (negb (Z.land header 128 =? 0)).
  - unfold bind at 1, get. unfold bind at 1. unfold modify.
    apply D; reflexivity.
  - destruct (negb (Z.land header 64 =? 0)).
    + pose proof (_parseDefinition_spec (Z.land header 15)
                    (negb (Z.land header 32 =? 0)) s1) as H.
      destruct (_parseDefinition _ _ s1) as [u s3|e s3].
      * left. apply H.
      * apply H.
    + apply D; reflexivity.
Qed.

Lemma pushed_lookup (table : gmap string (list (gmap string number)))
  typeName msg k :
  default nil
    (<[typeName := default nil (table !! typeName) ++ [msg]]> table !! k)
  = default nil (table !! k) ++ (if decide (typeName = k) then [msg] else nil).
Proof.
  rewrite lookup_insert. destruct (decide (typeName = k)) as [->|Hne].
  - reflexivity.
  - now rewrite app_nil_r.
Qed.

(** X12. The decode pass only appends: whatever list of messages a type
    has at some point of the pass is a prefix of the list it has at any
    later point, and a record that fails to decode adds nothing. *)
Theorem decode_pass_only_appends (dataEnd : Z) (s s' : FitParser) :
  definitionsOk s ->
  decodes dataEnd s s' ->
  (forall typeName, exists added,
     default nil (messages s' !! typeName)
     = default nil (messages s !! typeName) ++ added) /\
  (forall e s'', _parseRecord s' = Throw e s'' -> messages s'' = messages s').
Proof.
  intros Hok Hd. induction Hd as [s|s s1 s2 Hlt Hrun Hd IH].
  - split.
    + intros typeName. exists nil. now rewrite app_nil_r.
    + intros e s'' Hrun. pose proof (_parseRecord_spec s Hok) as H.
      now rewrite Hrun in H.
  - pose proof (_parseRecord_spec s Hok) as Hs. rewrite Hrun in Hs.
    destruct Hs as [Hf _].
    destruct (IH (fol_definitions _ _ Hf Hok)) as [IH1 IH2].
    split; [|exact IH2].
    intros typeName. destruct (IH1 typeName) as (added & E). rewrite E.
    pose proof (_parseRecord_messages s Hok) as Hm. rewrite Hrun in Hm.
    destruct Hm as [-> | (n & msg & ->)].
    + eauto.
    + rewrite pushed_lookup, <- app_assoc. eauto.
Qed.

Lemma decode_pass_only_appends_witness :
  (forall typeName, exists added,
     default nil (messages (DecoderSample.step DecoderSample.ready) !! typeName)
     = default nil (messages DecoderSample.ready !! typeName) ++ added) /\
  (forall e s'',
     _parseRecord (DecoderSample.step DecoderSample.ready) = Throw e s'' ->
     messages s'' = messages (DecoderSample.step DecoderSample.ready)).
Proof.
  apply (decode_pass_only_appends 2 DecoderSample.ready
           (DecoderSample.step DecoderSample.ready)).
  - intros lt d H. unfold DecoderSample.ready in H.
    cbn [definitions withDefinitions] in H.
    apply lookup_singleton_Some in H. destruct H as [_ <-].
    split; repeat constructor. unfold fieldOk. simpl. lia.
  - apply (decodes_record 2 DecoderSample.ready
             (DecoderSample.step DecoderSample.ready)).
    + simpl. lia.
    + reflexivity.
    + apply decodes_done.
Defined.

(** X13. A data message is filed under the name of its global message
    number: exactly one message is appended to that list and the other
    lists stay as they are.  A message whose number has no name in
    [FIT_MSG_NAMES] is read, so that its payload is consumed, and then
    dropped. *)
Theorem data_message_is_filed_by_name
  (lt : Z) (cts : option number) (s : FitParser) (d : definition) :
  definitions s !! lt = Some d ->
  definitionOk d ->
  0 <= offset s ->
  offset s + payloadOf d <= Z.of_nat (length (bytes s)) ->
  exists s',
    _parseDataMessage lt cts s = Ret tt s' /\
    offset s' = offset s + payloadOf d /\
    match FIT_MSG_NAMES (globalMsgNum d) with
    | Some typeName =>
        exists msg,
          default nil (messages s' !! typeName)
          = default nil (messages s !! typeName) ++ [msg] /\
          forall other, other <> typeName ->
            messages s' !! other = messages s !! other
    | None => messages s' = messages s
    end.
Proof.
  intros Hd Hok Hoff Hlen.
  destruct (_parseDataMessage_inside lt cts s d Hd Hok Hoff Hlen)
    as (s' & Hrun & Ho & _).
  exists s'. split; [exact Hrun|]. split; [exact Ho|].
  pose proof (_parseDataMessage_messages lt cts s d Hd Hok) as Hm.
  rewrite Hrun in Hm.
  destruct (FIT_MSG_NAMES (globalMsgNum d)) as [typeName|]; [|exact Hm].
  destruct Hm as (msg & ->). exists msg. split.
  - rewrite lookup_insert. destruct (decide (typeName = typeName)); [reflexivity|congruence].
  - intros other Hne. rewrite lookup_insert.
    destruct (decide (typeName = other)); [congruence|reflexivity].
Qed.

Lemma data_message_is_filed_by_name_witness :
  exists s',
    _parseDataMessage 0 None (withOffset 1 DecoderSample.ready) = Ret tt s' /\
    offset s' = 1 + 1 /\
    exists msg,
      default nil (messages s' !! "record"%string)
      = default nil (messages (withOffset 1 DecoderSample.ready) !! "record"%string)
        ++ [msg] /\
      forall other, other <> "record"%string ->
        messages s' !! other = messages (withOffset 1 DecoderSample.ready) !! other.
Proof.
  apply (data_message_is_filed_by_name 0 None (withOffset 1 DecoderSample.ready)
           DecoderSample.heartRateDefinition).
  - reflexivity.
  - split; repeat constructor. unfold fieldOk. simpl. lia.
  - vm_compute. discriminate.
  - vm_compute. discriminate.
Defined.

End Messages.

Section Definitions.

Import JS Fit FitProp FitStream.

Lemma getBytes_skipn (l : list byte) : forall bs off rest,
  0 <= off -> skipn (Z.to_nat off) bs = l ++ rest ->
  DataView.getBytes bs off (length l) = Some (map byteZ l).
Proof.
  induction l as [|b l IH]; intros bs off rest Hoff H; [reflexivity|].
  cbn [length DataView.getBytes map].
  rewrite (byteAt_skipn bs off b (l ++ rest) Hoff H).
  pose proof (skipn_advance bs off [b] (l ++ rest) Hoff H) as H1.
  change (Z.of_nat (length [b])) with 1 in H1.
  now rewrite (IH bs (off + 1) rest ltac:(lia) H1).
Qed.

Lemma getUint16_ahead s m0 m1 rest le :
  0 <= offset s -> ahead s = m0 :: m1 :: rest ->
  DataView.getUint16 (bytes s) (offset s) le
  = Some (if le then byteZ m0 + 256 * byteZ m1 else byteZ m1 + 256 * byteZ m0).
Proof.
  intros Hoff H. unfold DataView.getUint16, DataView.getUint.
  pose proof (getBytes_skipn [m0; m1] (bytes s) (offset s) rest Hoff H) as G.
  cbn [length] in G. rewrite G.
  destruct le; cbn [map rev app DataView.leValue]; f_equal; lia.
Qed.

(** The definition a definition record stands for. *)
Lemma _parseDefinition_exact s lt reserved arch m0 m1 fs dev rest :
  0 <= offset s ->
  ahead s = reserved :: arch :: m0 :: m1 :: ofZ8 (Z.of_nat (length fs))
              :: encodeTriples fs ++ encodeDev dev ++ rest ->
  Z.of_nat (length fs) < 256 ->
  match dev with Some ds => Z.of_nat (length ds) < 256 | None => True end ->
  exists s',
    _parseDefinition lt (match dev with Some _ => true | None => false end) s
      = Ret tt s' /\
    offset s' = offset s + 5 + Z.of_nat (length (encodeTriples fs ++ encodeDev dev)) /\
    bytes s' = bytes s /\ messages s' = messages s /\
    lastTimestamp s' = lastTimestamp s /\
    dataSize s' = dataSize s /\ dataOffset s' = dataOffset s /\
    definitions s' =
      <[lt := {| globalMsgNum :=
                   if byteZ arch =? 0 then byteZ m0 + 256 * byteZ m1
                   else byteZ m1 + 256 * byteZ m0;
                 littleEndian := byteZ arch =? 0;
                 fields := map fieldOf fs;
                 devFields := match dev with
                              | Some ds => map devFieldOf ds
                              | None => nil
                              end |}]> (definitions s).
Proof.
  intros Hoff H Hfs Hdev. unfold _parseDefinition.
  unfold bind at 1. unfold addOffset at 1, modify.
  pose proof (ahead_next s reserved _ Hoff H) as H1.
  set (s1 := withOffset (offset s + 1) s) in *.
  assert (Hoff1 : 0 <= offset s1) by (simpl; lia).
  unfold bind at 1. rewrite (nextUint8_ahead s1 arch _ Hoff1 H1).
  pose proof (ahead_next s1 arch _ Hoff1 H1) as H2.
  set (s2 := withOffset (offset s1 + 1) s1) in *.
  assert (Hoff2 : 0 <= offset s2) by (simpl; lia).
  unfold bind at 1, get. unfold bind at 1.
  rewrite (getUint16_ahead s2 m0 m1 _ (byteZ arch =? 0) Hoff2 H2).
  cbn [liftView ret].
  unfold bind at 1. unfold addOffset at 1, modify.
  pose proof (ahead_advance s2 [m0; m1] _ Hoff2 H2) as H3.
  change (Z.of_nat (length [m0; m1])) with 2 in H3.
  set (s3 := withOffset (offset s2 + 2) s2) in *.
  assert (Hoff3 : 0 <= offset s3) by (simpl; lia).
  unfold bind at 1. rewrite (nextUint8_ahead s3 _ _ Hoff3 H3).
  pose proof (ahead_next s3 _ _ Hoff3 H3) as H4.
  set (s4 := withOffset (offset s3 + 1) s3) in *.
  assert (Hoff4 : 0 <= offset s4) by (simpl; lia).
  rewrite (byteZ_ofZ8 (Z.of_nat (length fs)) ltac:(lia)), Nat2Z.id.
  unfold bind at 1. rewrite (readFieldDefs_ahead fs _ s4 Hoff4 H4).
  pose proof (ahead_advance s4 (encodeTriples fs) _ Hoff4 H4) as H5.
  rewrite length_encodeTriples in H5.
  replace (Z.of_nat (3 * length fs)) with (3 * Z.of_nat (length fs)) in H5 by lia.
  set (s5 := withOffset (offset s4 + 3 * Z.of_nat (length fs)) s4) in *.
  assert (Hoff5 : 0 <= offset s5) by (simpl; lia).
  unfold bind at 1.
  destruct dev as [ds|].
  - simpl in H5. unfold bind at 1. rewrite (nextUint8_ahead s5 _ _ Hoff5 H5).
    pose proof (ahead_next s5 _ _ Hoff5 H5) as H6.
    set (s6 := withOffset (offset s5 + 1) s5) in *.
    assert (Hoff6 : 0 <= offset s6) by (simpl; lia).
    rewrite (byteZ_ofZ8 (Z.of_nat (length ds)) ltac:(lia)), Nat2Z.id.
    rewrite (readDevFieldDefs_ahead ds _ s6 Hoff6 H6).
    eexists. split; [reflexivity|].
    simpl. rewrite length_app, length_encodeTriples. simpl.
    rewrite length_encodeTriples.
    split; [lia|]. repeat split.
  - eexists. split; [reflexivity|].
    simpl. rewrite length_app, length_encodeTriples. simpl.
    split; [lia|]. repeat split.
Qed.

(** A definition header hands the record to [_parseDefinition]. *)
Lemma _parseRecord_definition_header s lt (hasDev : bool) rest :
  0 <= offset s -> 0 <= lt < 16 ->
  ahead s = ofZ8 (64 + (if hasDev then 32 else 0) + lt) :: rest ->
  _parseRecord s = _parseDefinition lt hasDev (withOffset (offset s + 1) s).
Proof.
  intros Hoff Hlt H. unfold _parseRecord. unfold bind at 1.
  destruct (header_definition lt hasDev Hlt) as (B1 & B2 & B3 & B4).
  set (h := 64 + (if hasDev then 32 else 0) + lt) in *.
  assert (Hh : 0 <= h < 256) by (subst h; destruct hasDev; lia).
  rewrite (nextUint8_ahead s _ _ Hoff H), (byteZ_ofZ8 h Hh).
  rewrite B1, B2, B3, B4. cbn [negb]. now rewrite negb_involutive.
Qed.

(** X14. A definition record registers, under its local type, the
    global message number (read in the byte order its architecture byte
    selects) and the fields and developer fields it lists, in order; it
    replaces whatever was defined for that local type, leaves the other
    local types and the messages alone, and moves the cursor past the
    record. *)
Theorem definition_record_is_registered
  (s : FitParser) (lt : Z) (reserved arch m0 m1 : byte)
  (fs : list (byte * byte * byte)) (dev : option (list (byte * byte * byte)))
  (rest : list byte) :
  0 <= offset s ->
  ahead s = encode (DefinitionRecord lt reserved arch m0 m1 fs dev) ++ rest ->
  0 <= lt < 16 ->
  Z.of_nat (length fs) < 256 ->
  match dev with Some ds => Z.of_nat (length ds) < 256 | None => True end ->
  exists s',
    _parseRecord s = Ret tt s' /\
    definitions s' !! lt =
      Some {| globalMsgNum :=
                if byteZ arch =? 0 then byteZ m0 + 256 * byteZ m1
                else byteZ m1 + 256 * byteZ m0;
              littleEndian := byteZ arch =? 0;
              fields := map fieldOf fs;
              devFields := match dev with
                           | Some ds => map devFieldOf ds
                           | None => nil
                           end |} /\
    (forall other, other <> lt -> definitions s' !! other = definitions s !! other) /\
    messages s' = messages s /\
    ahead s' = rest /\
    offset s' = offset s
      + Z.of_nat (length (encode (DefinitionRecord lt reserved arch m0 m1 fs dev))).
Proof.
  intros Hoff H Hlt Hfs Hdev. cbn [encode app] in H.
  set (hasDev := match dev with Some _ => true | None => false end).
  assert (Eh : 64 + match dev with Some _ => 32 | None => 0 end + lt
               = 64 + (if hasDev then 32 else 0) + lt) by now destruct dev.
  rewrite Eh in H.
  rewrite (_parseRecord_definition_header s lt hasDev _ Hoff Hlt H).
  pose proof (ahead_next s _ _ Hoff H) as H1.
  set (s1 := withOffset (offset s + 1) s) in *.
  assert (Hoff1 : 0 <= offset s1) by (simpl; lia).
  pose proof H1 as H1'. rewrite <- app_assoc in H1'.
  destruct (_parseDefinition_exact s1 lt reserved arch m0 m1 fs dev rest
              Hoff1 H1' Hfs Hdev)
    as (s' & Hrun & Ho & Hb & Hm & _ & _ & _ & Hdefs).
  fold hasDev in Hrun.
  exists s'. split; [exact Hrun|]. rewrite Hdefs. split; [|split; [|split; [|split]]].
  - rewrite lookup_insert. destruct (decide (lt = lt)); [reflexivity|congruence].
  - intros other Hne. rewrite lookup_insert.
    destruct (decide (lt = other)); [congruence|reflexivity].
  - exact Hm.
  - unfold ahead. rewrite Hb, Ho.
    replace (offset s1 + 5 + Z.of_nat (length (encodeTriples fs ++ encodeDev dev)))
      with (offset s1 + Z.of_nat (length
              (reserved :: arch :: m0 :: m1 :: ofZ8 (Z.of_nat (length fs))
                 :: encodeTriples fs ++ encodeDev dev)))
      by (cbn [length]; lia).
    apply skipn_advance; [exact Hoff1|].
    cbn [app]. exact H1.
  - rewrite Ho. cbn [encode length]. simpl offset. lia.
Qed.

Lemma definition_record_is_registered_witness :
  exists s',
    _parseRecord (constructor (encode DecoderSample.bigEndianDefinition)) = Ret tt s' /\
    definitions s' !! 3 =
      Some {| globalMsgNum := 20; littleEndian := false;
              fields := [ {| num := 3; size := 1; baseType := 2 |} ];
              devFields := nil |} /\
    (forall other, other <> 3 ->
       definitions s' !! other
       = definitions (constructor (encode DecoderSample.bigEndianDefinition)) !! other) /\
    messages s' = messages (constructor (encode DecoderSample.bigEndianDefinition)) /\
    ahead s' = nil /\
    offset s' = 0 + 9.
Proof.
  apply (definition_record_is_registered
           (constructor (encode DecoderSample.bigEndianDefinition))
           3 x00 x01 x00 (ofZ8 20) [(ofZ8 3, ofZ8 1, ofZ8 2)] None nil).
  - simpl. lia.
  - reflexivity.
  - lia.
  - simpl. lia.
  - exact I.
Defined.

(** X15. Below 2^31 a compressed-timestamp header never moves time
    backwards: the reconstructed timestamp is the first one at or after
    the last full timestamp whose low five bits are the header's offset,
    so it is less than 32 seconds later. *)
Theorem compressed_timestamp_is_next_match (T O : Z) :
  0 <= T < 2 ^ 31 ->
  0 <= O < 32 ->
  exists R,
    sameValue (compressedTimestamp (ofZ T) O) (ofZ R) /\
    T <= R < T + 32 /\ R mod 32 = O.
Proof.
  intros HT HO. exists (Spec.expectedTimestamp T O).
  split; [now apply compressedTimestamp_below_2_31|].
  unfold Spec.expectedTimestamp.
  change (Z.lnot 31) with (-32). rewrite land_clear5, land_low5.
  pose proof (Z.div_mod T 32 ltac:(lia)) as Hdm.
  pose proof (Z.mod_pos_bound T 32 ltac:(lia)) as Hmod.
  destruct (O <? T mod 32) eqn:E.
  - apply Z.ltb_lt in E. split; [lia|].
    replace (32 * (T / 32) + O + 32) with (O + (T / 32 + 1) * 32) by lia.
    rewrite Z.mod_add by lia. apply Z.mod_small. lia.
  - apply Z.ltb_ge in E. split; [lia|].
    replace (32 * (T / 32) + O) with (O + (T / 32) * 32) by lia.
    rewrite Z.mod_add by lia. apply Z.mod_small. lia.
Qed.

Lemma compressed_timestamp_is_next_match_witness :
  exists R,
    sameValue (compressedTimestamp (ofZ 1000) 3) (ofZ R) /\
    1000 <= R < 1000 + 32 /\ R mod 32 = 3.
Proof.
  apply (compressed_timestamp_is_next_match 1000 3); lia.
Defined.

End Definitions.

Section CompressedRecords.

Import JS Fit FitProp FitStream.





End CompressedRecords.

Section RecordRoundTrip.

Import JS Fit FitProp FitStream RecordStream.

Lemma strictEq_ofZ a b : strictEq (ofZ a) (ofZ b) = (a =? b).
Proof.
  unfold strictEq, ofZ. destruct (a =? b) eqn:E.
  - apply Z.eqb_eq in E. subst. apply Qeq_bool_iff. reflexivity.
  - apply Z.eqb_neq in E. destruct (Qeq_bool _ _) eqn:Q; [|reflexivity].
    apply Qeq_bool_iff in Q. exfalso. apply E.
    unfold Qeq, inject_Z in Q. simpl in Q. lia.
Qed.

Lemma getUint32_ahead s v rest :
  0 <= offset s -> 0 <= v < 2 ^ 32 -> ahead s = le32 v ++ rest ->
  DataView.getUint32 (bytes s) (offset s) true = Some v.
Proof.
  intros Hoff Hv H. unfold DataView.getUint32, DataView.getUint.
  pose proof (getBytes_skipn (le32 v) (bytes s) (offset s) rest Hoff H) as G.
  change (length (le32 v)) with 4%nat in G. rewrite G.
  now rewrite leValue_le32.
Qed.

Lemma _readField_uint32 s n v rest :
  0 <= offset s -> 0 <= v < 2 ^ 32 -> ahead s = le32 v ++ rest ->
  _readField {| num := n; size := 4; baseType := 0x86 |} true s
  = Ret (if v =? 0xFFFFFFFF then None else Some (ofZ v))
        (withOffset (offset s + 4) s).
Proof.
  intros Hoff Hv H. unfold _readField.
  change (baseTypeInfo (baseType {| num := n; size := 4; baseType := 134 |}))
    with (Some {| tsize := 4; read := Some getUint32;
                  invalid := Some (ofZ 0xFFFFFFFF) |}).
  cbn [read tsize size invalid Z.eqb Pos.eqb negb].
  unfold bind at 1, get. unfold bind at 1.
  unfold viewRead. rewrite (getUint32_ahead s v rest Hoff Hv H).
  cbn [option_map liftView ret]. unfold bind at 1, addOffset, modify.
  rewrite strictEq_ofZ. destruct (v =? 4294967295); reflexivity.
Qed.

Lemma _readField_uint8 s n v rest :
  0 <= offset s -> 0 <= v < 256 -> ahead s = ofZ8 v :: rest ->
  _readField {| num := n; size := 1; baseType := 2 |} true s
  = Ret (if v =? 0xFF then None else Some (ofZ v))
        (withOffset (offset s + 1) s).
Proof.
  intros Hoff Hv H. unfold _readField.
  change (baseTypeInfo (baseType {| num := n; size := 1; baseType := 2 |}))
    with (Some {| tsize := 1; read := Some getUint8;
                  invalid := Some (ofZ 0xFF) |}).
  cbn [read tsize size invalid Z.eqb Pos.eqb negb].
  unfold bind at 1, get. unfold bind at 1.
  unfold viewRead. rewrite getUint8_byteAt.
  rewrite (byteAt_skipn _ _ _ _ Hoff H), (byteZ_ofZ8 v Hv).
  cbn [option_map liftView ret]. unfold bind at 1, addOffset, modify.
  rewrite strictEq_ofZ. destruct (v =? 255); reflexivity.
Qed.

Lemma _parseRecord_sample s lt p rest :
  0 <= offset s -> 0 <= lt < 16 -> valid p ->
  definitions s !! lt = Some sampleFields ->
  ahead s = encode (sampleRecord lt p) ++ rest ->
  exists s',
    _parseRecord s = Ret tt s' /\
    ahead s' = rest /\
    offset s' = offset s + 10 /\
    definitions s' = definitions s /\
    messages s' =
      <["record"%string :=
          default nil (messages s !! "record"%string) ++ [sampleMessage p]]>
        (messages s).
Proof.
  intros Hoff Hlt (Ht & Hh & Hd) Hdef H.
  unfold _parseRecord. unfold bind at 1.
  unfold sampleRecord in H. cbn [encode app] in H.
  destruct (header_data lt Hlt) as (B1 & B2 & B3).
  rewrite (nextUint8_ahead s _ _ Hoff H), (byteZ_ofZ8 lt ltac:(lia)).
  rewrite B1, B2, B3. cbn [negb].
  pose proof (ahead_next s _ _ Hoff H) as H1.
  set (s1 := withOffset (offset s + 1) s) in *.
  assert (Hoff1 : 0 <= offset s1) by (simpl; lia).
  unfold _parseDataMessage. unfold bind at 1, get.
  change (definitions s1) with (definitions s). rewrite Hdef.
  change (FIT_MSG_NAMES (globalMsgNum sampleFields)) with (Some "record"%string).
  cbn [fields littleEndian devFields sampleFields readFields skipDevFields].
  unfold bind at 1. unfold bind at 1.
  rewrite <- app_assoc in H1.
  rewrite (_readField_uint32 s1 253 (time p) _ Hoff1 ltac:(lia) H1).
  replace (time p =? 4294967295) with false by (symmetry; apply Z.eqb_neq; lia).
  pose proof (ahead_advance s1 (le32 (time p)) _ Hoff1 H1) as H2.
  change (Z.of_nat (length (le32 (time p)))) with 4 in H2.
  set (s2 := withOffset (offset s1 + 4) s1) in *.
  assert (Hoff2 : 0 <= offset s2) by (simpl; lia).
  cbn [app] in H2.
  unfold bind at 1.
  rewrite (_readField_uint8 s2 3 (heart p) _ Hoff2 ltac:(lia) H2).
  replace (heart p =? 255) with false by (symmetry; apply Z.eqb_neq; lia).
  pose proof (ahead_next s2 _ _ Hoff2 H2) as H3.
  set (s3 := withOffset (offset s2 + 1) s2) in *.
  assert (Hoff3 : 0 <= offset s3) by (simpl; lia).
  unfold bind at 1.
  rewrite (_readField_uint32 s3 5 (centimetres p) _ Hoff3 ltac:(lia) H3).
  replace (centimetres p =? 4294967295) with false
    by (symmetry; apply Z.eqb_neq; lia).
  pose proof (ahead_advance s3 (le32 (centimetres p)) _ Hoff3 H3) as H4.
  change (Z.of_nat (length (le32 (centimetres p)))) with 4 in H4.
  set (s4 := withOffset (offset s3 + 4) s3) in *.
  change (storeField _ _ (Some (ofZ (centimetres p)))
            (storeField _ _ (Some (ofZ (heart p)))
               (storeField _ _ (Some (ofZ (time p))) ∅)))
    with (sampleMessage p).
  cbn [ret]. unfold bind at 1. cbn [ret]. 
  assert (Hts : sampleMessage p !! "timestamp"%string = Some (ofZ (time p))).
  { unfold sampleMessage. rewrite !lookup_insert.
    repeat (destruct (decide _) as [E|E]; [discriminate E|]; clear E).
    destruct (decide _) as [E|E]; [reflexivity|congruence]. }
  rewrite Hts. unfold bind, modify.
  eexists. split; [reflexivity|].
  split; [exact H4|]. split; [simpl; lia|]. split; reflexivity.
Qed.

Lemma length_sampleRecord lt p : length (encode (sampleRecord lt p)) = 10%nat.
Proof. reflexivity. Qed.

Lemma parseLoop_samples lt samples : forall s rest fuel,
  0 <= offset s -> 0 <= lt < 16 -> Forall valid samples ->
  definitions s !! lt = Some sampleFields ->
  ahead s = body (map (sampleRecord lt) samples) ++ rest ->
  (length (body (map (sampleRecord lt) samples)) <= fuel)%nat ->
  exists s',
    parseLoop fuel
      (offset s + Z.of_nat (length (body (map (sampleRecord lt) samples)))) s
    = Some s' /\
    default nil (messages s' !! "record"%string)
    = default nil (messages s !! "record"%string) ++ map sampleMessage samples /\
    forall other, other <> "record"%string ->
      messages s' !! other = messages s !! other.
Proof.
  induction samples as [|p samples IH]; intros s rest fuel Hoff Hlt Hv Hdef H Hfuel.
  - exists s. cbn [map body flat_map length]. rewrite Z.add_0_r.
    split; [destruct fuel; simpl; now rewrite Z.ltb_irrefl|].
    split; [now rewrite app_nil_r | reflexivity].
  - inversion Hv as [|? ? Hp Hv']; subst.
    unfold body in *. cbn [map flat_map] in *. rewrite length_app in *.
    rewrite length_sampleRecord in *.
    rewrite <- app_assoc in H.
    destruct fuel as [|fuel]; [lia|]. cbn [parseLoop].
    replace (offset s <? _) with true by (symmetry; apply Z.ltb_lt; lia).
    destruct (_parseRecord_sample s lt p _ Hoff Hlt Hp Hdef H)
      as (s1 & Hrun & Ha & Ho & Hd & Hm).
    rewrite Hrun.
    destruct (IH s1 rest fuel ltac:(lia) Hlt Hv' ltac:(now rewrite Hd) Ha ltac:(lia))
      as (s' & Hloop & Hrec & Hother).
    replace (offset s + Z.of_nat (10 + length (flat_map encode (map (sampleRecord lt) samples))))
      with (offset s1 + Z.of_nat (length (flat_map encode (map (sampleRecord lt) samples))))
      by lia.
    exists s'. split; [exact Hloop|]. split.
    + rewrite Hrec, Hm. rewrite lookup_insert.
      destruct (decide ("record"%string = "record"%string)); [|congruence].
      change (default nil (Some ?x)) with x.
      rewrite <- app_assoc. reflexivity.
    + intros other Hne. rewrite (Hother other Hne), Hm, lookup_insert.
      destruct (decide ("record"%string = other)); [congruence|reflexivity].
Qed.

(** X16. Round trip of a record stream: a file that defines a record
    message with a timestamp, a heart rate and a distance and then carries
    any number of such records decodes to exactly these records, in
    order, under 'record' and to nothing else; timestamps and heart rates
    come back as stored and distances, stored in centimetres, in
    metres. *)
Theorem record_stream_round_trip
  (protocol profile0 profile1 : byte) (extra : list byte) (lt : Z)
  (samples : list sample) (trailer : list byte) :
  12 + Z.of_nat (length extra) < 256 ->
  Z.of_nat (length (body (stream lt samples))) < 2 ^ 32 ->
  0 <= lt < 16 ->
  Forall valid samples ->
  exists table,
    parse (file protocol profile0 profile1 extra (stream lt samples) trailer)
    = Some (inr table) /\
    default nil (table !! "record"%string) = map sampleMessage samples /\
    forall other, other <> "record"%string -> table !! other = None.
Proof.
  intros Hex Hbody Hlt Hv.
  destruct (_parseHeader_file protocol profile0 profile1 extra (stream lt samples)
              trailer Hex Hbody)
    as (s0 & Hh & Hb & Hdefs & Ho & Hdo & Hds & _ & _ & Ha).
  destruct (_parseHeader_ret _ _ _ Hh) as (_ & _ & Hmsgs & _).
  unfold parse, parseFinal. rewrite Hh. rewrite Hdo, Hds, Ho.
  replace (12 + Z.of_nat (length extra) + Z.of_nat (length (body (stream lt samples)))
           - (12 + Z.of_nat (length extra)))
    with (Z.of_nat (length (body (stream lt samples)))) by lia.
  rewrite Nat2Z.id.
  unfold stream, body in *. cbn [flat_map] in *. rewrite length_app in *.
  pose proof (encode_nonempty (sampleDefinition lt)) as Hne.
  rewrite <- app_assoc in Ha.
  assert (Hoff0 : 0 <= offset s0) by lia.
  pose proof Ha as Ha0. unfold sampleDefinition in Ha0. cbn [encode app] in Ha0.
  pose proof (_parseRecord_definition_header s0 lt false _ Hoff0 Hlt Ha0) as Hrun.
  pose proof (ahead_next s0 _ _ Hoff0 Ha0) as Hnext.
  destruct (_parseDefinition_exact (withOffset (offset s0 + 1) s0) lt x00 x00
              (ofZ8 20) x00
              [ (ofZ8 253, ofZ8 4, ofZ8 134); (ofZ8 3, ofZ8 1, ofZ8 2);
                (ofZ8 5, ofZ8 4, ofZ8 134) ] None
              (flat_map encode (map (sampleRecord lt) samples) ++ trailer)
              ltac:(simpl; lia) Hnext ltac:(simpl; lia) I)
    as (s1 & Hrun1 & Ho1 & Hb1 & Hm1 & _ & _ & _ & Hdefs1).
  cbn [negb] in Hrun1. rewrite Hrun1 in Hrun. clear Hrun1.
  assert (Hd1 : definitions s1 !! lt = Some sampleFields).
  { rewrite Hdefs1, lookup_insert.
    destruct (decide (lt = lt)); [reflexivity|congruence]. }
  assert (Ha1 : ahead s1 = flat_map encode (map (sampleRecord lt) samples) ++ trailer).
  { unfold ahead. rewrite Hb1, Ho1.
    apply (skipn_advance (bytes (withOffset (offset s0 + 1) s0))
             (offset (withOffset (offset s0 + 1) s0) + 5)
             (encodeTriples
                [ (ofZ8 253, ofZ8 4, ofZ8 134); (ofZ8 3, ofZ8 1, ofZ8 2);
                  (ofZ8 5, ofZ8 4, ofZ8 134) ] ++ encodeDev None));
      [simpl; lia|].
    apply (skipn_advance (bytes (withOffset (offset s0 + 1) s0))
             (offset (withOffset (offset s0 + 1) s0))
             [x00; x00; ofZ8 20; x00; ofZ8 (Z.of_nat 3)]); [simpl; lia|].
    exact Hnext. }
  simpl offset in Ho1.
  assert (Ho1' : offset s1 = offset s0 + Z.of_nat (length (encode (sampleDefinition lt))))
    by (rewrite Ho1; simpl; lia).
  clear Ho1. rename Ho1' into Ho1.
  set (n := length (encode (sampleDefinition lt))) in *.
  destruct n as [|n]; [lia|].
  cbn [Nat.add parseLoop].
  replace (offset s0 <? _) with true by (symmetry; apply Z.ltb_lt; lia).
  rewrite Hrun.
  destruct (parseLoop_samples lt samples s1 trailer
              (n + length (flat_map encode (map (sampleRecord lt) samples)))
              ltac:(lia) Hlt Hv Hd1 Ha1 ltac:(unfold body; lia))
    as (s' & Hloop & Hrec & Hother).
  unfold body in Hloop.
  replace (12 + Z.of_nat (length extra)
           + Z.of_nat (S (n + length (flat_map encode (map (sampleRecord lt) samples)))))
    with (offset s1
          + Z.of_nat (length (flat_map encode (map (sampleRecord lt) samples))))
    by lia.
  rewrite Hloop. exists (messages s'). split; [reflexivity|].
  change (messages (withOffset (offset s0 + 1) s0)) with (messages s0) in Hm1.
  rewrite Hm1, Hmsgs in Hrec, Hother. split.
  - rewrite Hrec, lookup_empty. reflexivity.
  - intros other Hother'. rewrite (Hother other Hother'). apply lookup_empty.
Qed.


Lemma record_stream_round_trip_witness :
  let samples := [ {| time := 100; heart := 120; centimetres := 50000 |};
                   {| time := 101; heart := 118; centimetres := 50350 |} ] in
  exists table,
    parse (file x10 x00 x00 nil (stream 0 samples) nil) = Some (inr table) /\
    default nil (table !! "record"%string) = map sampleMessage samples /\
    forall other, other <> "record"%string -> table !! other = None.
Proof.
  intros samples.
  apply (record_stream_round_trip x10 x00 x00 nil 0 samples nil).
  - simpl. lia.
  - reflexivity.
  - lia.
  - repeat constructor; simpl; lia.
Defined.

End RecordRoundTrip.

(** ** The JSON adapter: records and the result *)

Section JsonRecords.

Import JS Stats JsonActivity JsonProp.

Lemma assign_lookup k v (o : gmap string number) k' :
  assign k v o !! k' = if decide (k = k') then v else o !! k'.
Proof.
  unfold assign. destruct v as [n|].
  - apply lookup_insert.
  - rewrite lookup_delete. destruct (decide (k = k')); reflexivity.
Qed.

(** The four column keys and the property each one feeds. *)
Lemma storeMetric_timestamp keys i v record :
  storeMetric keys i v record !! "timestamp"%string =
    if decide (keys !! Z.of_nat i = Some "directTimestamp"%string)
    then Some (div (toNumber v) (ofZ 1000))
    else record !! "timestamp"%string.
Proof.
  unfold storeMetric. destruct (keys !! Z.of_nat i) as [k|].
  - destruct (String.eqb_spec k "directTimestamp") as [->|Hne].
    + cbn [String.eqb Ascii.eqb Bool.eqb]. cbv beta iota zeta.
      destruct (decide _) as [_|E]; [|congruence].
      rewrite lookup_insert. destruct (decide _) as [_|E]; [reflexivity|congruence].
    + destruct (decide _) as [E|_]; [congruence|].
      cbv zeta.
      destruct (String.eqb k "directHeartRate"), (String.eqb k "directDistance"),
        (String.eqb k "directSpeed");
        rewrite ?assign_lookup;
        repeat (destruct (decide _) as [E|_]; [discriminate E|]); reflexivity.
  - destruct (decide _) as [E|_]; [discriminate E|]. reflexivity.
Qed.

Lemma storeMetric_copy keys i v record k p :
  (k, p) = ("directHeartRate", "heart_rate")%string \/
  (k, p) = ("directDistance", "distance")%string \/
  (k, p) = ("directSpeed", "speed")%string ->
  storeMetric keys i v record !! p =
    if decide (keys !! Z.of_nat i = Some k) then v else record !! p.
Proof.
  intros Hkp. unfold storeMetric. destruct (keys !! Z.of_nat i) as [k0|].
  - destruct (decide (Some k0 = Some k)) as [E|Hne].
    + injection E as ->.
      destruct Hkp as [[= -> ->] | [[= -> ->] | [= -> ->]]];
        cbn [String.eqb Ascii.eqb Bool.eqb]; cbv beta iota zeta;
        rewrite ?assign_lookup;
        repeat (destruct (decide _) as [E|E]; [try discriminate E|try congruence]);
        reflexivity.
    + assert (Hk : k0 <> k) by congruence.
      destruct Hkp as [[= -> ->] | [[= -> ->] | [= -> ->]]];
        destruct (String.eqb_spec k0 "directTimestamp");
        destruct (String.eqb_spec k0 "directHeartRate");
        destruct (String.eqb_spec k0 "directDistance");
        destruct (String.eqb_spec k0 "directSpeed");
        try congruence; cbv zeta;
        rewrite ?assign_lookup, ?lookup_insert;
        repeat (destruct (decide _) as [E|E]; [try discriminate E|try congruence]);
        try reflexivity; try congruence.
  - destruct (decide _) as [E|_]; [discriminate E|]. reflexivity.
Qed.

Lemma find_snoc {A} (f : A -> bool) (l : list A) (x : A) :
  List.find f (l ++ [x]) =
    match List.find f l with
    | Some y => Some y
    | None => if f x then Some x else None
    end.
Proof.
  induction l as [|a l IH]; simpl; [reflexivity|].
  destruct (f a); [reflexivity | exact IH].
Qed.

Lemma lastFrom_range keys k i n j : lastFrom keys k i n = Some j -> (i <= j < i + n)%nat.
Proof.
  unfold lastFrom. intros H. apply find_some in H. destruct H as [H _].
  apply in_rev in H. apply in_seq in H. exact H.
Qed.

Lemma lastFrom_step keys k i n :
  lastFrom keys k i (S n) =
    match lastFrom keys k (S i) n with
    | Some j => Some j
    | None => if bool_decide (keys !! Z.of_nat i = Some k) then Some i else None
    end.
Proof. unfold lastFrom. cbn [seq rev]. rewrite find_snoc. reflexivity. Qed.

(** Reading a row: a property fed by the key [k] holds what the last
    column carrying [k] gives it. *)
Lemma readMetrics_lookup keys k p (f : option number -> option number) :
  (forall i v r, storeMetric keys i v r !! p =
     if decide (keys !! Z.of_nat i = Some k) then f v else r !! p) ->
  forall vals i r,
    readMetrics keys i vals r !! p =
      match lastFrom keys k i (length vals) with
      | Some j => f (nth (j - i) vals None)
      | None => r !! p
      end.
Proof.
  intros Hstore. induction vals as [|v vals IH]; intros i r; [reflexivity|].
  cbn [readMetrics length]. rewrite IH, lastFrom_step.
  destruct (lastFrom keys k (S i) (length vals)) as [j|] eqn:E.
  - apply lastFrom_range in E.
    replace (j - i)%nat with (S (j - S i)) by lia. reflexivity.
  - rewrite Hstore. destruct (decide (keys !! Z.of_nat i = Some k)) as [Hk|Hk].
    + rewrite bool_decide_eq_true_2 by exact Hk. now rewrite Nat.sub_diag.
    + now rewrite bool_decide_eq_false_2 by exact Hk.
Qed.

(** X17. How [parseJsonActivity] reads a metric row: each property of
    the record comes from the last column whose descriptor carries its
    key.  The timestamp is that cell divided by 1000, a [null] cell
    counting as 0; heart rate, distance and speed are copied, a [null]
    cell leaving the property unset.  A row gets a timestamp, and so is
    kept, exactly when one of its columns is a timestamp column. *)
Theorem metric_row_is_read_by_column
  (keys : gmap Z string) (m : metric) :
  let vals := default nil (metrics m) in
  let column k := lastColumn keys k (length vals) in
  let r := recordOf keys m in
  r !! "timestamp"%string =
    match column "directTimestamp"%string with
    | Some j => Some (div (toNumber (nth j vals None)) (ofZ 1000))
    | None => None
    end /\
  r !! "heart_rate"%string =
    match column "directHeartRate"%string with
    | Some j => nth j vals None
    | None => None
    end /\
  r !! "distance"%string =
    match column "directDistance"%string with
    | Some j => nth j vals None
    | None => None
    end /\
  r !! "speed"%string =
    match column "directSpeed"%string with
    | Some j => nth j vals None
    | None => None
    end /\
  (hasProp "timestamp" r = true <-> column "directTimestamp"%string <> None).
Proof.
  intros vals column r.
  assert (HT : r !! "timestamp"%string =
    match column "directTimestamp"%string with
    | Some j => Some (div (toNumber (nth j vals None)) (ofZ 1000))
    | None => None
    end).
  { subst r. unfold recordOf. fold vals.
    rewrite (readMetrics_lookup keys "directTimestamp" "timestamp"
               (fun v => Some (div (toNumber v) (ofZ 1000)))
               (storeMetric_timestamp keys)).
    change (lastFrom keys "directTimestamp" 0 (length vals))
      with (column "directTimestamp"%string).
    destruct (column "directTimestamp"%string) as [j|];
      [now rewrite Nat.sub_0_r | apply lookup_empty]. }
  assert (HC : forall k p,
    (k, p) = ("directHeartRate", "heart_rate")%string \/
    (k, p) = ("directDistance", "distance")%string \/
    (k, p) = ("directSpeed", "speed")%string ->
    r !! p = match column k with Some j => nth j vals None | None => None end).
  { intros k p Hkp. subst r. unfold recordOf. fold vals.
    rewrite (readMetrics_lookup keys k p (fun v => v)
               (fun i v r => storeMetric_copy keys i v r k p Hkp)).
    change (lastFrom keys k 0 (length vals)) with (column k).
    destruct (column k) as [j|]; [now rewrite Nat.sub_0_r | apply lookup_empty]. }
  split; [exact HT|].
  split; [apply HC; auto|]. split; [apply HC; auto|]. split; [apply HC; auto|].
  unfold hasProp. rewrite HT.
  destruct (column "directTimestamp"%string); split; congruence.
Qed.


Lemma idx_from_lookup descriptors : forall (acc : gmap Z string) i k,
  fold_left (fun (acc : gmap Z string) d => <[metricsIndex d := key d]> acc)
    descriptors acc !! i = Some k ->
  acc !! i = Some k \/ exists d, In d descriptors /\ key d = k.
Proof.
  induction descriptors as [|d ds IH]; intros acc i k H; [now left|].
  cbn [fold_left] in H. destruct (IH _ _ _ H) as [H'|(d' & Hin & Hk)].
  - rewrite lookup_insert in H'. destruct (decide (metricsIndex d = i)).
    + injection H' as <-. right. exists d. split; [now left|reflexivity].
    + now left.
  - right. exists d'. split; [now right|exact Hk].
Qed.

Lemma idx_lookup descriptors i k :
  idx descriptors !! i = Some k -> exists d, In d descriptors /\ key d = k.
Proof.
  intros H. destruct (idx_from_lookup descriptors ∅ i k H) as [H'|H']; [|exact H'].
  rewrite lookup_empty in H'. discriminate.
Qed.

Lemma lastFrom_none keys k i n :
  (forall j, keys !! Z.of_nat j <> Some k) -> lastFrom keys k i n = None.
Proof.
  intros H. unfold lastFrom.
  destruct (List.find _ _) as [j|] eqn:E; [|reflexivity].
  apply find_some in E. destruct E as [_ E].
  apply bool_decide_eq_true_1 in E. now apply H in E.
Qed.

Lemma no_timestamp_column_no_records (det : details) :
  (forall d, In d (default nil (metricDescriptors det)) ->
     key d <> "directTimestamp"%string) ->
  parseJsonRecords det = nil.
Proof.
  intros Hno. unfold parseJsonRecords.
  set (keys := idx (default nil (metricDescriptors det))).
  assert (Hk : forall j, keys !! Z.of_nat j <> Some "directTimestamp"%string).
  { intros j H. apply idx_lookup in H. destruct H as (d & Hin & Hkey).
    exact (Hno d Hin Hkey). }
  induction (metricRows det) as [|m ms IH]; [reflexivity|].
  cbn [map List.filter].
  assert (Hm : hasProp "timestamp" (recordOf keys m) = false).
  { unfold hasProp, recordOf.
    rewrite (readMetrics_lookup keys "directTimestamp" "timestamp"
               (fun v => Some (div (toNumber v) (ofZ 1000)))
               (storeMetric_timestamp keys)).
    rewrite lastFrom_none by exact Hk. now rewrite lookup_empty. }
  rewrite Hm. exact IH.
Qed.

Lemma orElse_None_idem o : orElse (orElse o None) None = orElse o None.
Proof. destruct o as [n|]; [|reflexivity]. simpl. destruct (truthy n) eqn:E; simpl; now rewrite ?E. Qed.

Lemma lapMessage_heart_rates gt lap :
  Json.lapMessage gt lap !! "max_heart_rate"%string
    = orElse (orElse (Json.maxHR lap) (Json.maxHeartRate lap)) None /\
  Json.lapMessage gt lap !! "avg_heart_rate"%string
    = orElse (orElse (Json.averageHR lap) (Json.averageHeartRate lap)) None.
Proof.
  unfold Json.lapMessage, Json.orNull. rewrite !setProp_lookup.
  repeat (destruct (decide _) as [E|E]; [try discriminate E|try congruence]).
  all: rewrite ?lookup_empty.
  all: split.
  all: try (destruct (orElse (orElse (Json.maxHR lap) (Json.maxHeartRate lap)) None);
            reflexivity).
  all: try (destruct (orElse (orElse (Json.averageHR lap) (Json.averageHeartRate lap)) None);
            reflexivity).
Qed.

(** X19. From the JSON document to the lap table: when no metric
    descriptor carries the key 'directTimestamp', no record survives, and
    [displayLaps] shows for every lap row a statistic without [minHR] and
    [timeToMinHR] whose [maxHR] and [avgHR] are the lap row's own
    ([maxHR] or else [maxHeartRate], [averageHR] or else
    [averageHeartRate]), [null] when these are missing or 0. *)
Theorem json_without_timestamps_shows_lap_summaries
  (Date_getTime : string -> number) (det : details) (s : option splits)
  (laps : list Json.lapDTO) :
  (forall d, In d (default nil (metricDescriptors det)) ->
     key d <> "directTimestamp"%string) ->
  lapSplits s = inr laps ->
  laps <> nil ->
  exists table stats,
    parseJsonActivity Date_getTime (Some det) s = inr table /\
    table !! "record"%string = Some nil /\
    Loader.allLapStats table = Some stats /\
    length stats = length laps /\
    forall i lap st, laps !! i = Some lap -> stats !! i = Some st ->
      minHR st = None /\ timeToMinHR st = None /\
      maxHR st = orElse (orElse (Json.maxHR lap) (Json.maxHeartRate lap)) None /\
      avgHR st
      = orElse (orElse (Json.averageHR lap) (Json.averageHeartRate lap)) None.
Proof.
  intros Hno Hs Hne.
  pose proof (no_timestamp_column_no_records det Hno) as Hrec.
  set (msgs := map (Json.lapMessage Date_getTime) laps).
  exists (<["record"%string := nil]> (<["lap"%string := msgs]> ∅)),
    (computeLapStats msgs nil).
  assert (Hlap : (<["record"%string := nil]> (<["lap"%string := msgs]> ∅)
                   : gmap string (list (gmap string number))) !! "lap"%string
                 = Some msgs).
  { rewrite lookup_insert. destruct (decide _) as [E|_]; [discriminate E|].
    rewrite lookup_insert. destruct (decide _) as [_|E]; [reflexivity|congruence]. }
  assert (Hrecs : (<["record"%string := nil]> (<["lap"%string := msgs]> ∅)
                    : gmap string (list (gmap string number))) !! "record"%string
                  = Some nil).
  { rewrite lookup_insert. destruct (decide _) as [_|E]; [reflexivity|congruence]. }
  split; [|split; [exact Hrecs|split; [|split]]].
  - unfold parseJsonActivity. rewrite Hs, Hrec. reflexivity.
  - unfold Loader.allLapStats. rewrite Hlap, Hrecs. cbn [default].
    change (default nil (Some msgs)) with msgs.
    destruct msgs as [|m ms] eqn:E; [|reflexivity].
    subst msgs. destruct laps; [congruence|discriminate].
  - unfold computeLapStats. rewrite mapIndexed_length.
    + subst msgs. apply length_map.
    + symmetry. apply lapBoundsFrom_length.
  - intros i lap st Hi Hst.
    assert (Hm : msgs !! i = Some (Json.lapMessage Date_getTime lap)).
    { subst msgs. rewrite list_lookup_fmap_Some. eauto. }
    destruct (computeLapStats_lookup msgs nil i _ Hm) as (b & _ & Hst').
    rewrite Hst in Hst'. injection Hst' as ->.
    destruct (lapStat_no_heart_rate nil (Json.lapMessage Date_getTime lap) i b)
      as (H1 & H2 & H3 & H4); [intros r []|].
    destruct (lapMessage_heart_rates Date_getTime lap) as [Hmax Havg].
    split; [exact H1|]. split; [exact H2|]. split.
    + rewrite H3, Hmax. apply orElse_None_idem.
    + rewrite H4, Havg. apply orElse_None_idem.
Qed.

Lemma json_without_timestamps_shows_lap_summaries_witness :
  exists table stats,
    parseJsonActivity Sample.noDate (Some noTimestamps)
      (Some (SplitsArray [Sample.startAt100])) = inr table /\
    table !! "record"%string = Some nil /\
    Loader.allLapStats table = Some stats /\
    length stats = length [Sample.startAt100] /\
    forall i lap st, [Sample.startAt100] !! i = Some lap -> stats !! i = Some st ->
      minHR st = None /\ timeToMinHR st = None /\
      maxHR st = orElse (orElse (Json.maxHR lap) (Json.maxHeartRate lap)) None /\
      avgHR st
      = orElse (orElse (Json.averageHR lap) (Json.averageHeartRate lap)) None.
Proof.
  apply (json_without_timestamps_shows_lap_summaries Sample.noDate noTimestamps
           (Some (SplitsArray [Sample.startAt100])) [Sample.startAt100]).
  - intros d [<- | []]. discriminate.
  - reflexivity.
  - discriminate.
Defined.

End JsonRecords.

(** ** Pace formatting *)

Section Pace.

Import JS Format FitStream.





End Pace.
